(** * ssh-key-manager: the synchronisation core

    A shallow embedding of [internal/sync/incremental.go],
    [internal/sync/history.go] and the [Key] record of
    [internal/models/key.go], with the properties of the checksum, of change
    detection, conflict detection and resolution, change application and the
    sync history ledger; then the changelog, the queries and statistics of
    the ledger, and the rotation status of a key with
    [RotationChecker.ShouldNotify] of [internal/rotation/rotation.go].

    Conventions.
    - Go [string] is Rocq [string]: a sequence of bytes, not necessarily
      valid UTF-8.  The string-typed enumerations [SyncStrategy] and
      [ChangeType] are strings, as in the code: any value can occur.
    - Go [int] is [Z].  Lengths and the counters bounded by them cannot
      overflow; the sums of [GetStats] and the durations of the rotation
      policy wrap around in sixty-four bits ([wrap64]), and [time.Sub]
      holds at the bounds of a [Duration].
    - Go [map[string]V] is [gmap string V].  The order of a [range] over a
      map is unspecified in Go: every loop over a map takes a [MapRange],
      an arbitrary enumeration of the map's entries.
    - [sort.Slice] is not stable: functions that sort take a [SliceSorter],
      an arbitrary procedure whose result is a sorted rearrangement.
    - Methods with a pointer receiver return the value as the call leaves
      it, next to what the method returns.  A call either returns or
      panics ([outcome]).
    - The history file is a value passed to and returned by the calls that
      read or write it: absent, holding the text of a list of entries, or
      holding a text that is no JSON.  Whether the operating system lets a
      call through, and how a write fails, is an argument ([OS]).
    - [time.Time] is an instant (seconds and nanoseconds since January 1 of
      year 1, UTC) with the offset of its location; monotonic clock readings
      are not modelled, [time.Now()] is an argument.
    - The standard library pieces the code calls ([encoding/json],
      [crypto/sha256], [encoding/hex], [time.Time.MarshalJSON]) are modelled
      after Go 1.21, the toolchain the repository builds with. *)

From Stdlib Require Import ZArith Ascii String List Lia.
From stdpp Require Import base gmap strings list fin_maps sorting.

Local Open Scope Z_scope.

(* ===================================================================== *)
(** * Bytes and strings *)
(* ===================================================================== *)

Definition byte_of (c : ascii) : Z := Z.of_N (N_of_ascii c).
Definition ascii_of (b : Z) : ascii := ascii_of_N (Z.to_N b).

Fixpoint bytes_of (s : string) : list Z :=
  match s with
  | EmptyString => []
  | String c s' => byte_of c :: bytes_of s'
  end.

Fixpoint string_of (bs : list Z) : string :=
  match bs with
  | [] => EmptyString
  | b :: bs' => String (ascii_of b) (string_of bs')
  end.

(** The double quote, as a one-byte string. *)
Definition dquote : string := String (ascii_of 34) EmptyString.

Definition hexdigit (n : Z) : ascii :=
  if n <? 10 then ascii_of (48 + n) else ascii_of (87 + n).

(** [hex.EncodeToString] *)
Fixpoint hex_EncodeToString (bs : list Z) : string :=
  match bs with
  | [] => EmptyString
  | b :: bs' =>
      String (hexdigit (Z.shiftr b 4))
        (String (hexdigit (Z.land b 15)) (hex_EncodeToString bs'))
  end.

(* ===================================================================== *)
(** * crypto/sha256 *)
(* ===================================================================== *)

Module sha256.

Definition w32 (x : Z) : Z := x mod 2 ^ 32.
Definition add32 (x y : Z) : Z := w32 (x + y).
Definition rotr (n x : Z) : Z :=
  Z.lor (Z.shiftr x n) (w32 (Z.shiftl x (32 - n))).

Definition Ch (x y z : Z) : Z :=
  Z.lxor (Z.land x y) (Z.land (w32 (Z.lnot x)) z).
Definition Maj (x y z : Z) : Z :=
  Z.lxor (Z.lxor (Z.land x y) (Z.land x z)) (Z.land y z).
Definition Sigma0 (x : Z) : Z :=
  Z.lxor (Z.lxor (rotr 2 x) (rotr 13 x)) (rotr 22 x).
Definition Sigma1 (x : Z) : Z :=
  Z.lxor (Z.lxor (rotr 6 x) (rotr 11 x)) (rotr 25 x).
Definition sigma0 (x : Z) : Z :=
  Z.lxor (Z.lxor (rotr 7 x) (rotr 18 x)) (Z.shiftr x 3).
Definition sigma1 (x : Z) : Z :=
  Z.lxor (Z.lxor (rotr 17 x) (rotr 19 x)) (Z.shiftr x 10).

Definition is_prime (n : Z) : bool :=
  forallb (λ d, negb (n mod Z.of_nat d =? 0)) (seq 2 (Z.to_nat n - 2)).

(** The first sixty-four primes: those up to 311. *)
Definition primes : list Z :=
  List.filter is_prime (map Z.of_nat (seq 2 310)).

(** The integer cube root of [x], found bit by bit from bit [n] down;
    [r] holds the bits chosen so far. *)
Fixpoint cube_root (n : nat) (x r : Z) : Z :=
  match n with
  | O => r
  | S n' =>
      let c := r + 2 ^ Z.of_nat n' in
      if c * c * c <=? x then cube_root n' x c else cube_root n' x r
  end.

(** The round constants: the first thirty-two bits of the fractional parts
    of the cube roots of the first sixty-four primes. *)
Definition K : list Z :=
  Eval vm_compute in map (λ p, w32 (cube_root 36 (p * 2 ^ 96) 0)) primes.

(** The initial hash value: the first thirty-two bits of the fractional
    parts of the square roots of the first eight primes. *)
Definition init : list Z :=
  Eval vm_compute in map (λ p, w32 (Z.sqrt (p * 2 ^ 64))) (take 8 primes).

(** Big-endian encoding of [x] on [n] bytes. *)
Fixpoint be_bytes (n : nat) (x : Z) : list Z :=
  match n with
  | O => []
  | S n' => Z.land (Z.shiftr x (8 * Z.of_nat n')) 255 :: be_bytes n' x
  end.

(** The message followed by 0x80, zeroes up to 56 modulo 64, and the bit
    length on eight bytes. *)
Definition pad (msg : list Z) : list Z :=
  let len := Z.of_nat (length msg) in
  let zeros := Z.to_nat ((55 - len) mod 64) in
  msg ++ [128] ++ replicate zeros 0 ++ be_bytes 8 ((8 * len) mod 2 ^ 64).

(** Big-endian 32-bit words of a byte sequence. *)
Fixpoint words (bs : list Z) : list Z :=
  match bs with
  | b0 :: b1 :: b2 :: b3 :: bs' =>
      (Z.shiftl b0 24 + Z.shiftl b1 16 + Z.shiftl b2 8 + b3) :: words bs'
  | _ => []
  end.

(** The message schedule, most recent word first: [rev_w] starts as the
    block's sixteen words reversed and grows by [n] words. *)
Fixpoint schedule (n : nat) (rev_w : list Z) : list Z :=
  match n with
  | O => rev_w
  | S n' =>
      let w := add32 (add32 (sigma1 (nth 1 rev_w 0)) (nth 6 rev_w 0))
                     (add32 (sigma0 (nth 14 rev_w 0)) (nth 15 rev_w 0)) in
      schedule n' (w :: rev_w)
  end.

Record regs := Regs { ra : Z; rb : Z; rc : Z; rd : Z;
                      re : Z; rf : Z; rg : Z; rh : Z }.

Definition round (s : regs) (kw : Z * Z) : regs :=
  let t1 := add32 (add32 (add32 (rh s) (Sigma1 (re s))) (Ch (re s) (rf s) (rg s)))
                  (add32 kw.1 kw.2) in
  let t2 := add32 (Sigma0 (ra s)) (Maj (ra s) (rb s) (rc s)) in
  Regs (add32 t1 t2) (ra s) (rb s) (rc s) (add32 (rd s) t1) (re s) (rf s) (rg s).

Definition regs_of (h : list Z) : regs :=
  Regs (nth 0 h 0) (nth 1 h 0) (nth 2 h 0) (nth 3 h 0)
       (nth 4 h 0) (nth 5 h 0) (nth 6 h 0) (nth 7 h 0).

Definition block (h : list Z) (blk : list Z) : list Z :=
  let w := rev (schedule 48 (rev (words blk))) in
  let s := fold_left round (zip K w) (regs_of h) in
  zip_with add32 h [ra s; rb s; rc s; rd s; re s; rf s; rg s; rh s].

Fixpoint blocks (n : nat) (h : list Z) (bs : list Z) : list Z :=
  match n with
  | O => h
  | S n' => blocks n' (block h (take 64 bs)) (drop 64 bs)
  end.

(** [sha256.Sum256]: the digest, thirty-two bytes. *)
Definition Sum256 (msg : list Z) : list Z :=
  let p := pad msg in
  concat (map (be_bytes 4) (blocks (length p / 64)%nat init p)).

End sha256.

(* ===================================================================== *)
(** * time.Time *)
(* ===================================================================== *)

Module time.

(** [sec]: seconds since January 1, year 1, 00:00:00 UTC; [nsec]: the
    nanoseconds within the second; [offset]: seconds east of UTC of the
    time's location at that instant. *)
Record Time := mkTime { sec : Z; nsec : Z; offset : Z }.

(** The zero value of [time.Time]. *)
Definition zero : Time := mkTime 0 0 0.


(** [t.After(u)]: the instant [t] is strictly later than [u]. *)
Definition After (t u : Time) : bool :=
  (sec u <? sec t) || ((sec t =? sec u) && (nsec u <? nsec t)).

(** [t.Before(u)]: the instant [t] is strictly earlier than [u]. *)
Definition Before (t u : Time) : bool :=
  (sec t <? sec u) || ((sec t =? sec u) && (nsec t <? nsec u)).

(** A [time.Duration] is a count of nanoseconds in sixty-four bits. *)
Definition minDuration : Z := - 2 ^ 63.
Definition maxDuration : Z := 2 ^ 63 - 1.
Definition Hour : Z := 3600000000000.

(** [t.Sub(u)]: the difference of the instants, held at the nearest bound
    when it does not fit a [Duration]. *)
Definition Sub (t u : Time) : Z :=
  let d := (sec t - sec u) * 1000000000 + (nsec t - nsec u) in
  if d <? minDuration then minDuration
  else if maxDuration <? d then maxDuration
  else d.

(** Year, month and day of the day number [d] counted from January 1 of
    year 1 in the proleptic Gregorian calendar. *)
Definition civil (d : Z) : Z * Z * Z :=
  let d0 := d + 306 in
  let era := d0 / 146097 in
  let doe := d0 mod 146097 in
  let yoe := (doe - doe / 1460 + doe / 36524 - doe / 146096) / 365 in
  let doy := doe - (365 * yoe + yoe / 4 - yoe / 100) in
  let mp := (5 * doy + 2) / 153 in
  let day := doy - (153 * mp + 2) / 5 + 1 in
  let month := if mp <? 10 then mp + 3 else mp - 9 in
  let year := yoe + era * 400 + (if month <=? 2 then 1 else 0) in
  (year, month, day).

Definition digit (n : Z) : ascii := ascii_of (48 + n).

(** [appendInt(b, x, 2)] for [0 <= x < 100]. *)
Definition dec2 (x : Z) : string :=
  String (digit (x / 10)) (String (digit (x mod 10)) EmptyString).

(** [appendInt(b, x, 4)] for [0 <= x < 10000]. *)
Definition dec4 (x : Z) : string :=
  String (digit (x / 1000)) (String (digit (x / 100 mod 10)) (dec2 (x mod 100))).

(** The digits of [x] on [n] places, trailing zeroes dropped. *)
Fixpoint frac (n : nat) (x : Z) : string :=
  match n with
  | O => EmptyString
  | S n' =>
      if x =? 0 then EmptyString
      else let p := 10 ^ Z.of_nat n' in
           String (digit (x / p)) (frac n' (x mod p))
  end.

(** [appendNano] with the layout [.999999999]. *)
Definition nano (ns : Z) : string :=
  if ns =? 0 then EmptyString else String "." (frac 9 ns).

Definition zone (off : Z) : string :=
  if off =? 0 then "Z"
  else
    let z := Z.quot off 60 in
    let sign := if z <? 0 then "-" else "+" in
    let z := Z.abs z in
    sign +:+ dec2 (z / 60) +:+ ":" +:+ dec2 (z mod 60).

(** [appendStrictRFC3339]: the layout [2006-01-02T15:04:05.999999999Z07:00],
    refused when the year is outside [0, 9999] or the zone's hour is not
    below 24. *)
Definition appendStrictRFC3339 (t : Time) : option string :=
  let abs := sec t + offset t in
  let '(year, month, day) := civil (abs / 86400) in
  let s := abs mod 86400 in
  if (year <? 0) || (9999 <? year) then None
  else if negb (offset t =? 0) && (24 <=? Z.abs (Z.quot (offset t) 60) / 60) then None
  else Some (dec4 year +:+ "-" +:+ dec2 month +:+ "-" +:+ dec2 day +:+ "T"
             +:+ dec2 (s / 3600) +:+ ":" +:+ dec2 (s / 60 mod 60) +:+ ":"
             +:+ dec2 (s mod 60) +:+ nano (nsec t) +:+ zone (offset t)).

(** [Time.MarshalJSON] *)
Definition MarshalJSON (t : Time) : option string :=
  s ← appendStrictRFC3339 t; Some (dquote +:+ s +:+ dquote).

End time.

(* ===================================================================== *)
(** * encoding/json *)
(* ===================================================================== *)

Module json.

Definition between (lo hi b : Z) : bool := (lo <=? b) && (b <=? hi).

(** The size of the UTF-8 sequence that starts with byte [b0] and goes on
    with [rest], as [utf8.DecodeRuneInString] finds it; [0%nat] when the bytes
    are no valid encoding (Go then yields [RuneError] with size 1). *)
Definition rune_size (b0 : Z) (rest : list Z) : nat :=
  if b0 <? 128 then 1%nat
  else if between 194 223 b0 then
    match rest with
    | b1 :: _ => if between 128 191 b1 then 2%nat else 0%nat
    | _ => 0%nat
    end
  else if between 224 239 b0 then
    let lo := if b0 =? 224 then 160 else 128 in
    let hi := if b0 =? 237 then 159 else 191 in
    match rest with
    | b1 :: b2 :: _ =>
        if between lo hi b1 && between 128 191 b2 then 3%nat else 0%nat
    | _ => 0%nat
    end
  else if between 240 244 b0 then
    let lo := if b0 =? 240 then 144 else 128 in
    let hi := if b0 =? 244 then 143 else 191 in
    match rest with
    | b1 :: b2 :: b3 :: _ =>
        if between lo hi b1 && between 128 191 b2 && between 128 191 b3
        then 4%nat else 0%nat
    | _ => 0%nat
    end
  else 0%nat.

(** [htmlSafeSet]: the ASCII bytes copied as they are. *)
Definition htmlSafe (b : Z) : bool :=
  between 32 127 b
  && negb ((b =? 34) || (b =? 38) || (b =? 60) || (b =? 62) || (b =? 92)).

(** What [appendString] emits for the byte [b] followed by [rest], and how
    many bytes of the source that consumes. *)
Definition encode_at (b : Z) (rest : list Z) : string * nat :=
  if b <? 128 then
    if htmlSafe b then (string_of [b], 1%nat)
    else if (b =? 92) || (b =? 34) then (string_of [92; b], 1%nat)
    else if b =? 10 then ("\n", 1%nat)
    else if b =? 13 then ("\r", 1%nat)
    else if b =? 9 then ("\t", 1%nat)
    else (String "\" (String "u" (String "0" (String "0"
           (String (hexdigit (Z.shiftr b 4))
              (String (hexdigit (Z.land b 15)) EmptyString))))), 1%nat)
  else
    match rune_size b rest with
    | O => (String "\" "ufffd", 1%nat)
    | n =>
        if (b =? 226) && bool_decide (take 2 rest = [128; 168]) then (String "\" "u2028", 3%nat)
        else if (b =? 226) && bool_decide (take 2 rest = [128; 169]) then (String "\" "u2029", 3%nat)
        else (string_of (b :: take (n - 1) rest), n)
    end.

(** The loop of [appendString] with [escapeHTML] set; [skip] counts the bytes
    already consumed by the previous step. *)
Fixpoint appendString_loop (skip : nat) (bs : list Z) : string :=
  match bs with
  | [] => EmptyString
  | b :: rest =>
      match skip with
      | S k => appendString_loop k rest
      | O => let '(out, n) := encode_at b rest in
             out +:+ appendString_loop (n - 1) rest
      end
  end.

(** A Go string as a JSON string. *)
Definition appendString (s : string) : string :=
  dquote +:+ appendString_loop 0 (bytes_of s) +:+ dquote.

Fixpoint join (sep : string) (l : list string) : string :=
  match l with
  | [] => EmptyString
  | [x] => x
  | x :: l' => x +:+ sep +:+ join sep l'
  end.

(** A [[]string]: [null] for the nil slice. *)
Definition stringSlice (tags : option (list string)) : string :=
  match tags with
  | None => "null"
  | Some l => "[" +:+ join "," (map appendString l) +:+ "]"
  end.

Definition field (name : string) (value : string) : string :=
  dquote +:+ name +:+ dquote +:+ ":" +:+ value.

End json.

(* ===================================================================== *)
(** * internal/models: Key *)
(* ===================================================================== *)

Module Key.

Record t := mk {
  Name : string;
  Type_ : string;
  Path : string;
  PubPath : string;
  Tags : option (list string);
  Comment : string;
  CreatedAt : time.Time;
  UpdatedAt : time.Time;
  Fingerprint : string;
  Installed : bool;
  RSABits : Z;
  HasPassphrase : bool;
  LastRotatedAt : option time.Time;
  RotationDueAt : option time.Time;
  RotatedFrom : string
}.

(** The zero value [models.Key{}]. *)
Definition zero : t :=
  mk "" "" "" "" None "" time.zero time.zero "" false 0 false None None "".

(** [models.Key{Name: name}] *)
Definition named (name : string) : t :=
  mk name "" "" "" None "" time.zero time.zero "" false 0 false None None "".

End Key.

(* ===================================================================== *)
(** * internal/sync/incremental.go *)
(* ===================================================================== *)

(** [json.Marshal] of the anonymous struct of [ComputeChecksum]; [None] when
    [CreatedAt] cannot be marshalled. *)
Definition checksum_json (key : Key.t) : option string :=
  created ← time.MarshalJSON (Key.CreatedAt key);
  Some ("{" +:+ json.field "Name" (json.appendString (Key.Name key))
        +:+ "," +:+ json.field "Type" (json.appendString (Key.Type_ key))
        +:+ "," +:+ json.field "Fingerprint" (json.appendString (Key.Fingerprint key))
        +:+ "," +:+ json.field "Path" (json.appendString (Key.Path key))
        +:+ "," +:+ json.field "Comment" (json.appendString (Key.Comment key))
        +:+ "," +:+ json.field "Tags" (json.stringSlice (Key.Tags key))
        +:+ "," +:+ json.field "CreatedAt" created
        +:+ "}").

(** [ComputeChecksum]: the error of [json.Marshal] is dropped, so a failed
    marshal hashes the nil slice. *)
Definition ComputeChecksum (key : Key.t) : string :=
  let jsonData := default EmptyString (checksum_json key) in
  hex_EncodeToString (sha256.Sum256 (bytes_of jsonData)).

(* ===================================================================== *)
(** * Iteration over maps and sorting *)
(* ===================================================================== *)

(** A [range] over a Go map visits every entry once, in an order the
    language leaves open. *)
Record MapRange := {
  range : ∀ {V : Type}, gmap string V → list (string * V);
  range_perm : ∀ (V : Type) (m : gmap string V), range m ≡ₚ map_to_list m
}.

Definition irreflexive {A} (less : A → A → bool) : Prop :=
  ∀ x, less x x = false.
Definition transitive {A} (less : A → A → bool) : Prop :=
  ∀ x y z, less x y = true → less y z = true → less x z = true.
Definition negatively_transitive {A} (less : A → A → bool) : Prop :=
  ∀ x y z, less x y = false → less y z = false → less x z = false.

(** What [sort.Slice] asks of its [less]. *)
Definition StrictWeakOrder {A} (less : A → A → bool) : Prop :=
  irreflexive less ∧ transitive less ∧ negatively_transitive less.

(** No element is [less] than one that stands before it. *)
Definition ordered_by {A} (less : A → A → bool) (l : list A) : Prop :=
  StronglySorted (λ x y, less y x = false) l.

(** [sort.Slice]: some rearrangement of the slice that is ordered by
    [less]; which one among equals is not fixed. *)
Record SliceSorter := {
  sort_Slice : ∀ {A : Type}, (A → A → bool) → list A → list A;
  sort_Slice_perm : ∀ (A : Type) (less : A → A → bool) (l : list A),
    sort_Slice less l ≡ₚ l;
  sort_Slice_ordered : ∀ (A : Type) (less : A → A → bool) (l : list A),
    StrictWeakOrder less → ordered_by less (sort_Slice less l)
}.

(* ===================================================================== *)
(** * internal/sync/incremental.go: types *)
(* ===================================================================== *)

Definition StrategyLocalWins : string := "local".
Definition StrategyRemoteWins : string := "remote".
Definition StrategyNewerWins : string := "newer".
Definition StrategyManual : string := "manual".

Definition ChangeTypeCreate : string := "create".
Definition ChangeTypeUpdate : string := "update".
Definition ChangeTypeDelete : string := "delete".

Module KeyChange.
Record t := mk {
  Type_ : string;
  Key : Key.t;
  Timestamp : time.Time;
  DeviceID : string;
  Checksum : string
}.
End KeyChange.

Module SyncState.
Record t := mk {
  LastSyncTime : time.Time;
  DeviceID : string;
  KeyChecksums : gmap string string;
  Changes : list KeyChange.t
}.
End SyncState.

Module ConflictResolution.
Record t := mk {
  KeyName : string;
  LocalKey : Key.t;
  RemoteKey : Key.t;
  Strategy : string;
  ResolvedKey : Key.t
}.
End ConflictResolution.

Module SyncManager.
Record t := mk {
  deviceID : string;
  localState : SyncState.t;
  remoteState : SyncState.t;
  strategy : string
}.
End SyncManager.

Definition NewSyncManager (deviceID : string) (strategy : string) : SyncManager.t :=
  SyncManager.mk deviceID
    (SyncState.mk time.zero deviceID ∅ [])
    (SyncState.mk time.zero "" ∅ [])
    strategy.

(** The loop [for _, key := range keys { m[key.Name] = key }]. *)
Definition keyMap (keys : list Key.t) : gmap string Key.t :=
  fold_left (λ m key, <[Key.Name key := key]> m) keys ∅.

(** [UpdateLocalState]; [now] is what [time.Now()] returns. *)
Definition UpdateLocalState (sm : SyncManager.t) (now : time.Time)
    (keys : list Key.t) : SyncManager.t :=
  let checksums :=
    fold_left (λ m key, <[Key.Name key := ComputeChecksum key]> m) keys ∅ in
  let ls := SyncManager.localState sm in
  SyncManager.mk (SyncManager.deviceID sm)
    (SyncState.mk now (SyncState.DeviceID ls) checksums (SyncState.Changes ls))
    (SyncManager.remoteState sm)
    (SyncManager.strategy sm).

Definition UpdateRemoteState (sm : SyncManager.t) (state : SyncState.t)
    : SyncManager.t :=
  SyncManager.mk (SyncManager.deviceID sm) (SyncManager.localState sm) state
    (SyncManager.strategy sm).

(** [localMap[name]]: the zero [Key] when the name is missing. *)
Definition index (m : gmap string Key.t) (name : string) : Key.t :=
  default Key.zero (m !! name).

(** Body of the first loop of [DetectChanges]. *)
Definition detect_local (sm : SyncManager.t) (now : time.Time)
    (localMap : gmap string Key.t)
    (changes : list KeyChange.t) (entry : string * string) : list KeyChange.t :=
  let '(name, localChecksum) := entry in
  match SyncState.KeyChecksums (SyncManager.remoteState sm) !! name with
  | None =>
      changes ++ [KeyChange.mk ChangeTypeCreate (index localMap name) now
                    (SyncManager.deviceID sm) localChecksum]
  | Some remoteChecksum =>
      if bool_decide (localChecksum ≠ remoteChecksum) then
        changes ++ [KeyChange.mk ChangeTypeUpdate (index localMap name) now
                      (SyncManager.deviceID sm) localChecksum]
      else changes
  end.

(** Body of the second loop of [DetectChanges]. *)
Definition detect_deleted (sm : SyncManager.t) (now : time.Time)
    (changes : list KeyChange.t) (entry : string * string) : list KeyChange.t :=
  let '(name, _) := entry in
  match SyncState.KeyChecksums (SyncManager.localState sm) !! name with
  | None =>
      changes ++ [KeyChange.mk ChangeTypeDelete (Key.named name) now
                    (SyncManager.deviceID sm) ""]
  | Some _ => changes
  end.

(** [DetectChanges]; [r1] and [r2] are the orders of its two loops over the
    checksum maps. *)
Definition DetectChanges (r1 r2 : MapRange) (sm : SyncManager.t)
    (now : time.Time) (localKeys : list Key.t) : list KeyChange.t :=
  let localMap := keyMap localKeys in
  let changes :=
    fold_left (detect_local sm now localMap)
      (range r1 (SyncState.KeyChecksums (SyncManager.localState sm))) [] in
  fold_left (detect_deleted sm now)
    (range r2 (SyncState.KeyChecksums (SyncManager.remoteState sm))) changes.

(** Body of the loop of [DetectConflicts]. *)
Definition detect_conflict (sm : SyncManager.t) (remoteMap : gmap string Key.t)
    (conflicts : list ConflictResolution.t) (entry : string * Key.t)
    : list ConflictResolution.t :=
  let '(name, localKey) := entry in
  match remoteMap !! name with
  | Some remoteKey =>
      let localChecksum := ComputeChecksum localKey in
      let remoteChecksum := ComputeChecksum remoteKey in
      if bool_decide (localChecksum ≠ remoteChecksum) then
        conflicts ++ [ConflictResolution.mk name localKey remoteKey
                        (SyncManager.strategy sm) Key.zero]
      else conflicts
  | None => conflicts
  end.

Definition DetectConflicts (r : MapRange) (sm : SyncManager.t)
    (localKeys remoteKeys : list Key.t) : list ConflictResolution.t :=
  let localMap := keyMap localKeys in
  let remoteMap := keyMap remoteKeys in
  fold_left (detect_conflict sm remoteMap) (range r localMap) [].

Definition set_ResolvedKey (c : ConflictResolution.t) (k : Key.t)
    : ConflictResolution.t :=
  ConflictResolution.mk (ConflictResolution.KeyName c)
    (ConflictResolution.LocalKey c) (ConflictResolution.RemoteKey c)
    (ConflictResolution.Strategy c) k.

(** [ResolveConflict]: the conflict as the call leaves it, and the value
    returned. *)
Definition ResolveConflict (sm : SyncManager.t) (conflict : ConflictResolution.t)
    : ConflictResolution.t * Key.t :=
  let s := ConflictResolution.Strategy conflict in
  let conflict' :=
    if String.eqb s StrategyLocalWins then
      set_ResolvedKey conflict (ConflictResolution.LocalKey conflict)
    else if String.eqb s StrategyRemoteWins then
      set_ResolvedKey conflict (ConflictResolution.RemoteKey conflict)
    else if String.eqb s StrategyNewerWins then
      if time.After (Key.UpdatedAt (ConflictResolution.LocalKey conflict))
                    (Key.UpdatedAt (ConflictResolution.RemoteKey conflict))
      then set_ResolvedKey conflict (ConflictResolution.LocalKey conflict)
      else set_ResolvedKey conflict (ConflictResolution.RemoteKey conflict)
    else if String.eqb s StrategyManual then
      set_ResolvedKey conflict (ConflictResolution.LocalKey conflict)
    else conflict in
  (conflict', ConflictResolution.ResolvedKey conflict').

(** Body of the loop of [ApplyChanges]. *)
Definition apply_change (m : gmap string Key.t) (change : KeyChange.t)
    : gmap string Key.t :=
  let ty := KeyChange.Type_ change in
  if String.eqb ty ChangeTypeCreate || String.eqb ty ChangeTypeUpdate then
    <[Key.Name (KeyChange.Key change) := KeyChange.Key change]> m
  else if String.eqb ty ChangeTypeDelete then
    delete (Key.Name (KeyChange.Key change)) m
  else m.

(** The map [ApplyChanges] builds before it turns it into a slice. *)
Definition applied (localKeys : list Key.t) (changes : list KeyChange.t)
    : gmap string Key.t :=
  fold_left apply_change changes (keyMap localKeys).

(** [ApplyChanges]; [r] is the order of its final loop over the map. *)
Definition ApplyChanges (r : MapRange) (localKeys : list Key.t)
    (changes : list KeyChange.t) : list Key.t :=
  (range r (applied localKeys changes)).*2.

(* ===================================================================== *)
(** * internal/sync/history.go *)
(* ===================================================================== *)

Module SyncHistoryEntry.
Record t := mk {
  ID : string;
  Timestamp : time.Time;
  DeviceID : string;
  Direction : string;
  ChangesApplied : Z;
  ConflictsFound : Z;
  Success : bool;
  Error : string;
  Changes : list KeyChange.t;
  Duration : Z
}.
End SyncHistoryEntry.

Module SyncHistory.
Record t := mk {
  historyFile : string;
  entries : list SyncHistoryEntry.t;
  maxEntries : Z
}.
End SyncHistory.

(** What the history file holds: the JSON text [Save] writes for a list of
    entries (the text itself is not modelled), or a text that is no JSON,
    as a write that fails half-way leaves it: empty or cut off. *)
Inductive Content :=
| Entries (es : list SyncHistoryEntry.t)
| Garbled.

(** The history file: absent ([None]), or present with its content. *)
Definition File := option Content.

(** How a call of [os.WriteFile] fails.  It opens the file with [O_TRUNC],
    which empties it, writes the text and closes the file; each of the
    three can return the error. *)
Inductive write_failure :=
| Unopened   (* the file could not be opened or created: it is as it was *)
| Cut        (* opened and emptied, then the text did not all arrive *)
| Unclosed.  (* the text all arrived, then the close failed *)

(** How the operating system answers one call of [Load] or [Save];
    [writeFile_failure] is read only when [writeFile_ok] is false. *)
Record OS := {
  readFile_ok : bool;
  mkdirAll_ok : bool;
  writeFile_ok : bool;
  writeFile_failure : write_failure
}.

(** The errors of [Load] and [Save], by their message. *)
Inductive error :=
| ErrRead      (* failed to read history file *)
| ErrParse     (* failed to parse history file *)
| ErrCreateDir (* failed to create history directory *)
| ErrMarshal   (* failed to marshal history *)
| ErrWrite.    (* failed to write history file *)

(** A call returns, or the runtime panics. *)
Inductive outcome (A : Type) :=
| Returns (a : A)
| Panics.
Arguments Returns {A} a.
Arguments Panics {A}.

(** The comparison passed to [sort.Slice]: newest first. *)
Definition newer (a b : SyncHistoryEntry.t) : bool :=
  time.After (SyncHistoryEntry.Timestamp a) (SyncHistoryEntry.Timestamp b).

Definition len {A} (l : list A) : Z := Z.of_nat (length l).

(** [json.MarshalIndent] fails exactly when some [time.Time] in the data
    refuses to marshal. *)
Definition time_marshals (t : time.Time) : bool :=
  bool_decide (is_Some (time.MarshalJSON t)).
Definition key_marshals (k : Key.t) : bool :=
  time_marshals (Key.CreatedAt k) && time_marshals (Key.UpdatedAt k)
  && from_option time_marshals true (Key.LastRotatedAt k)
  && from_option time_marshals true (Key.RotationDueAt k).
Definition change_marshals (c : KeyChange.t) : bool :=
  key_marshals (KeyChange.Key c) && time_marshals (KeyChange.Timestamp c).
Definition entry_marshals (e : SyncHistoryEntry.t) : bool :=
  time_marshals (SyncHistoryEntry.Timestamp e)
  && forallb change_marshals (SyncHistoryEntry.Changes e).

Definition set_entries (sh : SyncHistory.t) (es : list SyncHistoryEntry.t)
    : SyncHistory.t :=
  SyncHistory.mk (SyncHistory.historyFile sh) es (SyncHistory.maxEntries sh).

(** [Load]: a missing file is no error and leaves the entries alone, and
    so does a text [json.Unmarshal] refuses, which it checks before it
    stores anything. *)
Definition Load (os : OS) (sh : SyncHistory.t) (file : File)
    : SyncHistory.t * option error :=
  match file with
  | None => (sh, None)
  | Some content =>
      if negb (readFile_ok os) then (sh, Some ErrRead)
      else match content with
           | Entries es => (set_entries sh es, None)
           | Garbled => (sh, Some ErrParse)
           end
  end.

(** [filepath.Join], for a clean directory name. *)
Definition filepath_Join (dir name : string) : string := dir +:+ "/" +:+ name.

(** [NewSyncHistory]: the error of [Load] is dropped. *)
Definition NewSyncHistory (os : OS) (configDir : string) (maxEntries : Z)
    (file : File) : SyncHistory.t :=
  (Load os (SyncHistory.mk (filepath_Join configDir "sync-history.json") [] maxEntries)
     file).1.

(** The slice expression [s[:n]], which panics for a negative [n]; at both
    places where the code uses it, [n] does not exceed the length. *)
Definition slice_to {A} (s : list A) (n : Z) : outcome (list A) :=
  if n <? 0 then Panics else Returns (take (Z.to_nat n) s).

(** The file after a call of [os.WriteFile] with the text of [es] that
    returns an error. *)
Definition failed_write (os : OS) (file : File) (es : list SyncHistoryEntry.t)
    : File :=
  match writeFile_failure os with
  | Unopened => file
  | Cut => Some Garbled
  | Unclosed => Some (Entries es)
  end.

(** [Save]: the ledger and the file as the call leaves them, and the error
    returned ([None] for nil). *)
Definition Save (srt : SliceSorter) (os : OS) (sh : SyncHistory.t) (file : File)
    : SyncHistory.t * File * outcome (option error) :=
  if negb (mkdirAll_ok os) then (sh, file, Returns (Some ErrCreateDir))
  else
    let sorted := sort_Slice srt newer (SyncHistory.entries sh) in
    let truncated :=
      if SyncHistory.maxEntries sh <? len sorted
      then slice_to sorted (SyncHistory.maxEntries sh)
      else Returns sorted in
    match truncated with
    | Panics => (set_entries sh sorted, file, Panics)
    | Returns kept =>
        let sh' := set_entries sh kept in
        if negb (forallb entry_marshals kept)
        then (sh', file, Returns (Some ErrMarshal))
        else if negb (writeFile_ok os)
        then (sh', failed_write os file kept, Returns (Some ErrWrite))
        else (sh', Some (Entries kept), Returns None)
    end.

(** [Add] *)
Definition Add (srt : SliceSorter) (os : OS) (sh : SyncHistory.t) (file : File)
    (entry : SyncHistoryEntry.t)
    : SyncHistory.t * File * outcome (option error) :=
  Save srt os (set_entries sh (SyncHistory.entries sh ++ [entry])) file.

(** [GetRecent]: the ledger as the call leaves it (sorted in place) and the
    slice returned. *)
Definition GetRecent (srt : SliceSorter) (sh : SyncHistory.t) (n : Z)
    : SyncHistory.t * outcome (list SyncHistoryEntry.t) :=
  let n := if len (SyncHistory.entries sh) <? n
           then len (SyncHistory.entries sh) else n in
  let sorted := sort_Slice srt newer (SyncHistory.entries sh) in
  (set_entries sh sorted, slice_to sorted n).

(** [Clear] *)
Definition Clear (srt : SliceSorter) (os : OS) (sh : SyncHistory.t) (file : File)
    : SyncHistory.t * File * outcome (option error) :=
  Save srt os (set_entries sh []) file.

(* ===================================================================== *)
(** * One iteration order and one sorting procedure *)
(* ===================================================================== *)

(** The entries in the order of [map_to_list]. *)
Definition range_listed : MapRange :=
  {| range := λ V m, map_to_list m;
     range_perm := λ V m, reflexivity (map_to_list m) |}.

Lemma range_reversed_perm (V : Type) (m : gmap string V) :
  reverse (map_to_list m) ≡ₚ map_to_list m.
Proof. apply reverse_Permutation. Qed.

(** The same entries, last to first. *)
Definition range_reversed : MapRange :=
  {| range := λ V m, reverse (map_to_list m);
     range_perm := range_reversed_perm |}.

(** [x] may stand before [y]. *)
Definition not_after {A} (less : A → A → bool) (x y : A) : Prop :=
  less y x = false.

#[local] Instance not_after_dec {A} (less : A → A → bool) (x y : A) :
  Decision (not_after less x y).
Proof. unfold not_after. apply _. Defined.

Definition merge_sorted {A} (less : A → A → bool) (l : list A) : list A :=
  merge_sort (not_after less) l.

Lemma not_after_total {A} (less : A → A → bool) :
  StrictWeakOrder less → Total (not_after less).
Proof.
  intros (Hirr & Htr & _) x y. unfold not_after.
  destruct (less y x) eqn:Hyx; [right | by left].
  destruct (less x y) eqn:Hxy; [| done].
  by rewrite <- (Hirr x), (Htr x y x).
Qed.

Lemma not_after_trans {A} (less : A → A → bool) :
  StrictWeakOrder less → Transitive (not_after less).
Proof. intros (_ & _ & Hinc) x y z Hxy Hyz. exact (Hinc z y x Hyz Hxy). Qed.

Lemma merge_sorted_perm (A : Type) (less : A → A → bool) (l : list A) :
  merge_sorted less l ≡ₚ l.
Proof. apply merge_sort_Permutation. Qed.

Lemma merge_sorted_ordered (A : Type) (less : A → A → bool) (l : list A) :
  StrictWeakOrder less → ordered_by less (merge_sorted less l).
Proof.
  intros Hswo. unfold ordered_by, merge_sorted.
  pose proof (not_after_total less Hswo).
  pose proof (not_after_trans less Hswo).
  apply (StronglySorted_merge_sort (not_after less)).
Qed.

(** A stable merge sort. *)
Definition sorter_stable : SliceSorter :=
  {| sort_Slice := @merge_sorted;
     sort_Slice_perm := merge_sorted_perm;
     sort_Slice_ordered := merge_sorted_ordered |}.

Lemma merge_sorted_reverse_perm (A : Type) (less : A → A → bool) (l : list A) :
  merge_sorted less (reverse l) ≡ₚ l.
Proof. rewrite merge_sorted_perm. apply reverse_Permutation. Qed.

Lemma merge_sorted_reverse_ordered (A : Type) (less : A → A → bool) (l : list A) :
  StrictWeakOrder less → ordered_by less (merge_sorted less (reverse l)).
Proof. apply merge_sorted_ordered. Qed.

(** A sort that reverses the order among equals. *)
Definition sorter_reversing : SliceSorter :=
  {| sort_Slice := λ A less l, merge_sorted less (reverse l);
     sort_Slice_perm := merge_sorted_reverse_perm;
     sort_Slice_ordered := merge_sorted_reverse_ordered |}.

(* ===================================================================== *)
(** * Time comparison *)
(* ===================================================================== *)

Ltac bool_to_Z :=
  repeat match goal with
  | H : _ || _ = true |- _ => apply orb_true_iff in H
  | H : _ || _ = false |- _ => apply orb_false_iff in H
  | H : _ && _ = true |- _ => apply andb_true_iff in H
  | H : _ && _ = false |- _ => apply andb_false_iff in H
  | H : (_ <? _) = true |- _ => apply Z.ltb_lt in H
  | H : (_ <? _) = false |- _ => apply Z.ltb_ge in H
  | H : (_ =? _) = true |- _ => apply Z.eqb_eq in H
  | H : (_ =? _) = false |- _ => apply Z.eqb_neq in H
  | |- _ || _ = true => apply orb_true_iff
  | |- _ || _ = false => apply orb_false_iff
  | |- _ && _ = true => apply andb_true_iff
  | |- _ && _ = false => apply andb_false_iff
  | |- context [(?a <? ?b) = true] => rewrite (Z.ltb_lt a b)
  | |- context [(?a <? ?b) = false] => rewrite (Z.ltb_ge a b)
  | |- context [(?a =? ?b) = true] => rewrite (Z.eqb_eq a b)
  | |- context [(?a =? ?b) = false] => rewrite (Z.eqb_neq a b)
  end.

Lemma After_irrefl (t : time.Time) : time.After t t = false.
Proof. unfold time.After. bool_to_Z. lia. Qed.

Lemma After_asym (t u : time.Time) :
  time.After t u = true → time.After u t = false.
Proof. unfold time.After. intros H. bool_to_Z. lia. Qed.

Lemma After_trans (t u v : time.Time) :
  time.After t u = true → time.After u v = true → time.After t v = true.
Proof. unfold time.After. intros H1 H2. bool_to_Z. lia. Qed.

Lemma After_negatively_transitive (t u v : time.Time) :
  time.After t u = false → time.After u v = false → time.After t v = false.
Proof. unfold time.After. intros H1 H2. bool_to_Z. lia. Qed.

(** Neither is after the other exactly when the instants coincide. *)
Lemma After_neither (t u : time.Time) :
  time.After t u = false ∧ time.After u t = false
  ↔ time.sec t = time.sec u ∧ time.nsec t = time.nsec u.
Proof.
  unfold time.After. split.
  - intros [H1 H2]. bool_to_Z. lia.
  - intros [H1 H2]. split; bool_to_Z; lia.
Qed.

Lemma newer_StrictWeakOrder : StrictWeakOrder newer.
Proof.
  unfold newer. split; [| split].
  - intros x. apply After_irrefl.
  - intros x y z. apply After_trans.
  - intros x y z. apply After_negatively_transitive.
Qed.

(* ===================================================================== *)
(** * Conflict resolution *)
(* ===================================================================== *)

(** Two records under the name [work], both updated at the same instant. *)
Definition tie_at : time.Time := time.mkTime 63000000000 0 0.
Definition tie_local : Key.t :=
  Key.mk "work" "ed25519" "" "" None "from here" time.zero tie_at "" false 0
    false None None "".
Definition tie_remote : Key.t :=
  Key.mk "work" "ed25519" "" "" None "from there" time.zero tie_at "" false 0
    false None None "".
Definition tie_conflict : ConflictResolution.t :=
  ConflictResolution.mk "work" tie_local tie_remote StrategyNewerWins Key.zero.

(** C1, as the code has it: under the NewerWins strategy [ResolveConflict]
    returns, and writes into [ResolvedKey], the local record when its
    [UpdatedAt] is strictly later than the remote one's, and the remote
    record otherwise: when the remote [UpdatedAt] is strictly later, and
    also when the two are the same instant. *)
Theorem ResolveConflict_newer (sm : SyncManager.t) (c : ConflictResolution.t) :
  ConflictResolution.Strategy c = StrategyNewerWins →
  let localAt := Key.UpdatedAt (ConflictResolution.LocalKey c) in
  let remoteAt := Key.UpdatedAt (ConflictResolution.RemoteKey c) in
  let resolved := (ResolveConflict sm c).2 in
  ConflictResolution.ResolvedKey (ResolveConflict sm c).1 = resolved
  ∧ (time.After localAt remoteAt = true →
     resolved = ConflictResolution.LocalKey c)
  ∧ (time.After remoteAt localAt = true →
     resolved = ConflictResolution.RemoteKey c)
  ∧ (time.After localAt remoteAt = false → time.After remoteAt localAt = false →
     resolved = ConflictResolution.RemoteKey c).
Proof.
  intros Hs. cbn zeta. unfold ResolveConflict. rewrite Hs. cbn [String.eqb].
  change (StrategyNewerWins =? StrategyLocalWins)%string with false.
  change (StrategyNewerWins =? StrategyRemoteWins)%string with false.
  change (StrategyNewerWins =? StrategyNewerWins)%string with true.
  cbv iota.
  destruct (time.After _ _) eqn:Hafter; cbn [fst snd set_ResolvedKey
    ConflictResolution.ResolvedKey].
  - split; [done |]. split; [done |]. split; [| done].
    intros Hrev. apply After_asym in Hrev. congruence.
  - done.
Qed.

Lemma ResolveConflict_newer_witness :
  ConflictResolution.ResolvedKey
    (ResolveConflict (NewSyncManager "laptop" StrategyNewerWins) tie_conflict).1
  = tie_remote.
Proof.
  pose proof (ResolveConflict_newer (NewSyncManager "laptop" StrategyNewerWins)
                tie_conflict eq_refl) as (Hset & _ & _ & Htie).
  rewrite Hset. apply Htie; reflexivity.
Defined.

(** C1, as the claim states it, fails on a tie: both records were updated at
    the same instant, and the record returned and stored is the remote one,
    not the local one. *)
Lemma ResolveConflict_newer_tie_not_local :
  let sm := NewSyncManager "laptop" StrategyNewerWins in
  ConflictResolution.Strategy tie_conflict = StrategyNewerWins
  ∧ Key.UpdatedAt (ConflictResolution.LocalKey tie_conflict)
    = Key.UpdatedAt (ConflictResolution.RemoteKey tie_conflict)
  ∧ (ResolveConflict sm tie_conflict).2 ≠ ConflictResolution.LocalKey tie_conflict
  ∧ ConflictResolution.ResolvedKey (ResolveConflict sm tie_conflict).1
    ≠ ConflictResolution.LocalKey tie_conflict
  ∧ (ResolveConflict sm tie_conflict).2 = ConflictResolution.RemoteKey tie_conflict.
Proof. cbn. repeat split; discriminate. Qed.

(* ===================================================================== *)
(** * The bytes of a digest *)
(* ===================================================================== *)

Definition is_byte (b : Z) : Prop := 0 ≤ b < 256.

Lemma be_bytes_shape (n : nat) (x : Z) :
  length (sha256.be_bytes n x) = n ∧ Forall is_byte (sha256.be_bytes n x).
Proof.
  induction n as [| n [IHlen IHb]]; [by split |].
  cbn [sha256.be_bytes length]. split; [by rewrite IHlen |].
  constructor; [| done]. unfold is_byte.
  change 255 with (Z.ones 8). rewrite Z.land_ones by lia.
  pose proof (Z.mod_pos_bound (x ≫ (8 * Z.of_nat n)) (2 ^ 8)). lia.
Qed.

Lemma block_length (h blk : list Z) :
  length h = 8%nat → length (sha256.block h blk) = 8%nat.
Proof.
  intros Hh. unfold sha256.block. cbv zeta.
  rewrite length_zip_with, Hh. done.
Qed.

Lemma blocks_length (n : nat) (h bs : list Z) :
  length h = 8%nat → length (sha256.blocks n h bs) = 8%nat.
Proof.
  revert h bs. induction n as [| n IH]; intros h bs Hh; [done |].
  cbn [sha256.blocks]. by apply IH, block_length.
Qed.

Lemma Sum256_shape (msg : list Z) :
  length (sha256.Sum256 msg) = 32%nat ∧ Forall is_byte (sha256.Sum256 msg).
Proof.
  unfold sha256.Sum256. cbv zeta.
  pose proof (blocks_length (length (sha256.pad msg) / 64) sha256.init
                (sha256.pad msg) eq_refl) as Hlen.
  set (h := sha256.blocks _ _ _) in *. clearbody h.
  do 8 (destruct h as [| ? h]; [done |]). destruct h as [| ? h]; [| done].
  clear Hlen. cbn [map concat]. rewrite !length_app, app_nil_r.
  rewrite !(proj1 (be_bytes_shape 4 _)). split; [done |].
  repeat (apply Forall_app; split); apply be_bytes_shape.
Qed.

(* ===================================================================== *)
(** * Strings and their bytes *)
(* ===================================================================== *)

Lemma ascii_of_byte_of (c : ascii) : ascii_of (byte_of c) = c.
Proof. unfold ascii_of, byte_of. rewrite N2Z.id. apply ascii_N_embedding. Qed.

Lemma byte_of_range (c : ascii) : is_byte (byte_of c).
Proof. unfold is_byte, byte_of. pose proof (N_ascii_bounded c). lia. Qed.

Lemma byte_of_ascii_of (b : Z) : is_byte b → byte_of (ascii_of b) = b.
Proof.
  unfold is_byte, ascii_of, byte_of. intros Hb.
  rewrite N_ascii_embedding by lia. lia.
Qed.

Lemma string_of_bytes_of (s : string) : string_of (bytes_of s) = s.
Proof.
  induction s as [| c s IH]; [done |]. cbn. by rewrite ascii_of_byte_of, IH.
Qed.

Lemma bytes_of_string_of (bs : list Z) :
  Forall is_byte bs → bytes_of (string_of bs) = bs.
Proof.
  induction 1 as [| b bs Hb _ IH]; [done |]. cbn.
  by rewrite byte_of_ascii_of, IH.
Qed.

Lemma bytes_of_range (s : string) : Forall is_byte (bytes_of s).
Proof.
  induction s as [| c s IH]; constructor; [apply byte_of_range | done].
Qed.

Lemma bytes_of_app (s t : string) : bytes_of (s +:+ t) = bytes_of s ++ bytes_of t.
Proof.
  induction s as [| c s IH]; [done |].
  change (bytes_of (String c s +:+ t)) with (byte_of c :: bytes_of (s +:+ t)).
  by rewrite IH.
Qed.

Lemma bytes_of_inj (s t : string) : bytes_of s = bytes_of t → s = t.
Proof.
  intros H. by rewrite <- (string_of_bytes_of s), H, string_of_bytes_of.
Qed.

(* ===================================================================== *)
(** * Valid UTF-8 *)
(* ===================================================================== *)

(** The loop of [utf8.ValidString]; [skip] counts the bytes that belong to
    the sequence already accepted. *)
Fixpoint utf8_valid_loop (skip : nat) (bs : list Z) : bool :=
  match bs with
  | [] => match skip with O => true | S _ => false end
  | b :: rest =>
      match skip with
      | S k => utf8_valid_loop k rest
      | O =>
          if b <? 128 then utf8_valid_loop 0 rest
          else match json.rune_size b rest with
               | O => false
               | S n => utf8_valid_loop n rest
               end
      end
  end.

(** [utf8.ValidString] *)
Definition utf8_ValidString (s : string) : bool :=
  utf8_valid_loop 0 (bytes_of s).

(** The bytes that follow the first byte of a sequence. *)
Definition lead_len (b : Z) : nat :=
  if json.between 194 223 b then 1%nat
  else if json.between 224 239 b then 2%nat
  else 3%nat.

Lemma rune_size_cases (b : Z) (rest : list Z) (n : nat) :
  128 ≤ b → json.rune_size b rest = S n →
  n = lead_len b ∧ (n ≤ length rest)%nat
  ∧ (1 ≤ n ≤ 3)%nat
  ∧ json.rune_size b (take n rest) = S n.
Proof.
  intros Hb. unfold json.rune_size, lead_len.
  destruct (Z.ltb_spec b 128); [lia |].
  destruct (json.between 194 223 b).
  { destruct rest as [| b1 rest]; [done |].
    destruct (json.between 128 191 b1) eqn:H1; [| done].
    intros [= <-]. cbn [take length]. rewrite H1. repeat split; lia. }
  destruct (json.between 224 239 b).
  { destruct rest as [| b1 [| b2 rest]]; [done | done |].
    destruct (_ && _) eqn:H1; [| done].
    intros [= <-]. cbn [take length]. rewrite H1. repeat split; lia. }
  destruct (json.between 240 244 b); [| done].
  destruct rest as [| b1 [| b2 [| b3 rest]]]; [done | done | done |].
  destruct (_ && _) eqn:H1; [| done].
  intros [= <-]. cbn [take length]. rewrite H1. repeat split; lia.
Qed.

Lemma appendString_loop_skip (n : nat) (bs : list Z) :
  (n ≤ length bs)%nat →
  json.appendString_loop n bs = json.appendString_loop 0 (drop n bs).
Proof.
  revert bs. induction n as [| n IH]; intros bs Hn; [done |].
  destruct bs as [| b bs]; [cbn in Hn; lia |]. cbn in *. apply IH. lia.
Qed.

Lemma utf8_valid_loop_skip (n : nat) (bs : list Z) :
  (n ≤ length bs)%nat →
  utf8_valid_loop n bs = utf8_valid_loop 0 (drop n bs).
Proof.
  revert bs. induction n as [| n IH]; intros bs Hn; [done |].
  destruct bs as [| b bs]; [cbn in Hn; lia |]. cbn in *. apply IH. lia.
Qed.

(* ===================================================================== *)
(** * [appendString] can be read back *)
(* ===================================================================== *)

(** One step of [appendString] reads the byte [b] and the bytes [cont] that
    complete its sequence. *)
Definition good_unit (b : Z) (cont : list Z) : Prop :=
  (b < 128 ∧ cont = [])
  ∨ (128 ≤ b ∧ json.rune_size b cont = S (length cont)).

(** What the step writes. *)
Definition unit_out (b : Z) (cont : list Z) : list Z :=
  bytes_of (json.encode_at b cont).1.

Definition u2028 : list Z := [92; 117; 50; 48; 50; 56].
Definition u2029 : list Z := [92; 117; 50; 48; 50; 57].

Lemma encode_at_ascii (b : Z) (rest : list Z) :
  b < 128 → json.encode_at b rest = json.encode_at b [].
Proof.
  intros Hb. unfold json.encode_at. by destruct (Z.ltb_spec b 128); [| lia].
Qed.

Lemma encode_at_ascii_size (b : Z) : b < 128 → (json.encode_at b []).2 = 1%nat.
Proof.
  intros Hb. unfold json.encode_at. destruct (Z.ltb_spec b 128); [| lia].
  repeat match goal with |- context [if ?c then _ else _] => destruct c end; done.
Qed.

(** What a step writes for a sequence of several bytes, and how many bytes
    it takes. *)
Lemma encode_at_multi (b : Z) (rest : list Z) (n : nat) :
  128 ≤ b → json.rune_size b rest = S n →
  json.encode_at b rest
  = (if decide (b = 226 ∧ take n rest = [128; 168]) then string_of u2028
     else if decide (b = 226 ∧ take n rest = [128; 169]) then string_of u2029
     else string_of (b :: take n rest), S n).
Proof.
  intros Hb Hsize.
  pose proof (rune_size_cases b rest n Hb Hsize) as (Hn & Hlen & _ & _).
  unfold json.encode_at. destruct (Z.ltb_spec b 128); [lia |]. rewrite Hsize.
  assert (H226 : b = 226 → n = 2%nat).
  { intros ->. by rewrite Hn. }
  destruct (Z.eqb_spec b 226) as [-> | Hne]; cbn [andb].
  - rewrite (H226 eq_refl) in *.
    destruct (decide (take 2 rest = [128; 168])) as [H1 | H1].
    + rewrite bool_decide_eq_true_2 by done. by rewrite decide_True.
    + rewrite bool_decide_eq_false_2 by done.
      rewrite decide_False by (by intros [_ ?]).
      destruct (decide (take 2 rest = [128; 169])) as [H2 | H2].
      * rewrite bool_decide_eq_true_2 by done. by rewrite decide_True.
      * rewrite bool_decide_eq_false_2 by done.
        by rewrite decide_False by (by intros [_ ?]).
  - rewrite !decide_False by (by intros [? _]).
    by replace (S n - 1)%nat with n by lia.
Qed.

Lemma unit_out_multi (b : Z) (cont : list Z) :
  is_byte b → Forall is_byte cont →
  128 ≤ b → json.rune_size b cont = S (length cont) →
  unit_out b cont
  = if decide (b = 226 ∧ cont = [128; 168]) then u2028
    else if decide (b = 226 ∧ cont = [128; 169]) then u2029
    else b :: cont.
Proof.
  intros Hb Hc Hge Hsize. unfold unit_out.
  rewrite (encode_at_multi b cont (length cont) Hge Hsize), firstn_all. cbn [fst].
  repeat destruct (decide _); [done | done |].
  apply bytes_of_string_of. by constructor.
Qed.

(** One step of the loop on a valid string. *)
Lemma appendString_loop_step (b : Z) (rest : list Z) :
  utf8_valid_loop 0 (b :: rest) = true →
  ∃ n, (n ≤ length rest)%nat
       ∧ good_unit b (take n rest)
       ∧ bytes_of (json.appendString_loop 0 (b :: rest))
         = unit_out b (take n rest)
             ++ bytes_of (json.appendString_loop 0 (drop n rest))
       ∧ utf8_valid_loop 0 (drop n rest) = true.
Proof.
  cbn [utf8_valid_loop json.appendString_loop]. unfold unit_out.
  destruct (Z.ltb_spec b 128) as [Hlt | Hge].
  - intros Hv. exists 0%nat. rewrite take_0, drop_0.
    split; [lia |]. split; [by left |]. split; [| done].
    rewrite (encode_at_ascii b rest Hlt).
    pose proof (encode_at_ascii_size b Hlt) as Hsz.
    destruct (json.encode_at b []) as [out m]. cbn in Hsz. subst m.
    by rewrite bytes_of_app.
  - destruct (json.rune_size b rest) as [| n] eqn:Hsize; [done |].
    intros Hv.
    pose proof (rune_size_cases b rest n Hge Hsize) as (Hn & Hlen & _ & Htake).
    exists n. split; [done |]. split.
    { right. split; [lia |]. by rewrite Htake, length_take_le. }
    rewrite utf8_valid_loop_skip in Hv by done. split; [| done].
    rewrite (encode_at_multi b rest n Hge Hsize).
    rewrite (encode_at_multi b (take n rest) n Hge Htake).
    rewrite take_take, Nat.min_id. cbn [fst].
    replace (S n - 1)%nat with n by lia.
    by rewrite bytes_of_app, appendString_loop_skip.
Qed.

(** [l1] is the beginning of [l2]. *)
Fixpoint prefixb (l1 l2 : list Z) : bool :=
  match l1, l2 with
  | [], _ => true
  | a :: l1', b :: l2' => (a =? b) && prefixb l1' l2'
  | _ :: _, [] => false
  end.

Lemma app_eq_prefixb (l1 l2 x y : list Z) :
  l1 ++ x = l2 ++ y → prefixb l1 l2 = true ∨ prefixb l2 l1 = true.
Proof.
  revert l2. induction l1 as [| a l1 IH]; intros l2 H; [by left |].
  destruct l2 as [| b l2]; [by right |].
  injection H as -> H. cbn. rewrite Z.eqb_refl. cbn. by apply IH.
Qed.

(** The texts written for the bytes below 128: none is empty, starts with
    a double quote or with a byte from 128 on, and none is the beginning of
    another or of the text written for U+2028 or U+2029, or begins with
    it. *)
Definition ascii_units_apart : bool :=
  forallb (λ n1,
    let o1 := unit_out (Z.of_nat n1) [] in
    match o1 with
    | h :: _ => negb (h =? 34) && (h <? 128)
    | [] => false
    end
    && negb (prefixb o1 u2028) && negb (prefixb u2028 o1)
    && negb (prefixb o1 u2029) && negb (prefixb u2029 o1)
    && forallb (λ n2,
         (n1 =? n2)%nat || negb (prefixb o1 (unit_out (Z.of_nat n2) [])))
         (seq 0 128))
    (seq 0 128).

Lemma ascii_units_apart_true : ascii_units_apart = true.
Proof. vm_compute. reflexivity. Qed.

Lemma ascii_unit_facts (b : Z) :
  0 ≤ b < 128 →
  (∃ h t, unit_out b [] = h :: t ∧ h ≠ 34 ∧ h < 128)
  ∧ prefixb (unit_out b []) u2028 = false ∧ prefixb u2028 (unit_out b []) = false
  ∧ prefixb (unit_out b []) u2029 = false ∧ prefixb u2029 (unit_out b []) = false
  ∧ ∀ b', 0 ≤ b' < 128 → prefixb (unit_out b []) (unit_out b' []) = true → b = b'.
Proof.
  intros Hb. pose proof ascii_units_apart_true as H. unfold ascii_units_apart in H.
  rewrite forallb_forall in H. specialize (H (Z.to_nat b)).
  rewrite Z2Nat.id in H by lia.
  assert (Hin : In (Z.to_nat b) (seq 0 128)) by (apply in_seq; lia).
  specialize (H Hin). cbv zeta in H.
  repeat (apply andb_true_iff in H as [H ?]).
  repeat match goal with
         | H : negb _ = true |- _ => apply negb_true_iff in H
         end.
  split.
  { destruct (unit_out b []) as [| h t]; [done |]. exists h, t.
    apply andb_true_iff in H as [Hquote Hlow].
    apply negb_true_iff, Z.eqb_neq in Hquote. apply Z.ltb_lt in Hlow. done. }
  repeat (split; [done |]).
  intros b' Hb' Hpre.
  match goal with Hx : forallb _ _ = true |- _ => rename Hx into Hall end.
  rewrite forallb_forall in Hall. specialize (Hall (Z.to_nat b')).
  rewrite Z2Nat.id in Hall by lia.
  specialize (Hall ltac:(apply in_seq; lia)).
  rewrite Hpre in Hall. cbn in Hall. rewrite orb_false_r in Hall.
  apply Nat.eqb_eq in Hall. lia.
Qed.

Lemma good_unit_multi_length (b : Z) (cont : list Z) :
  128 ≤ b → json.rune_size b cont = S (length cont) → length cont = lead_len b.
Proof. intros Hb Hs. by destruct (rune_size_cases b cont _ Hb Hs) as [-> _]. Qed.

(** The texts written for two steps are never the beginning of one
    another: a text that starts with both starts with the same step. *)
Lemma unit_out_apart (b1 b2 : Z) (c1 c2 x y : list Z) :
  is_byte b1 → Forall is_byte c1 → is_byte b2 → Forall is_byte c2 →
  good_unit b1 c1 → good_unit b2 c2 →
  unit_out b1 c1 ++ x = unit_out b2 c2 ++ y →
  b1 = b2 ∧ c1 = c2 ∧ x = y.
Proof.
  intros Hb1 Hc1 Hb2 Hc2 [[Hl1 ->] | [Hg1 Hs1]] [[Hl2 ->] | [Hg2 Hs2]] Heq.
  - destruct (ascii_unit_facts b1 ltac:(unfold is_byte in *; lia))
      as (_ & _ & _ & _ & _ & Hapart1).
    destruct (ascii_unit_facts b2 ltac:(unfold is_byte in *; lia))
      as (_ & _ & _ & _ & _ & Hapart2).
    assert (b1 = b2) as ->.
    { destruct (app_eq_prefixb _ _ _ _ Heq) as [Hp | Hp].
      - apply Hapart1; [unfold is_byte in *; lia | done].
      - symmetry. apply Hapart2; [unfold is_byte in *; lia | done]. }
    by apply app_inv_head in Heq.
  - exfalso.
    destruct (ascii_unit_facts b1 ltac:(unfold is_byte in *; lia))
      as ((h & t & Hout & _ & Hh) & H28a & H28b & H29a & H29b & _).
    rewrite (unit_out_multi b2 c2 Hb2 Hc2 Hg2 Hs2) in Heq.
    repeat destruct (decide _).
    + destruct (app_eq_prefixb _ _ _ _ Heq); congruence.
    + destruct (app_eq_prefixb _ _ _ _ Heq); congruence.
    + rewrite Hout in Heq. injection Heq as -> _. lia.
  - exfalso.
    destruct (ascii_unit_facts b2 ltac:(unfold is_byte in *; lia))
      as ((h & t & Hout & _ & Hh) & H28a & H28b & H29a & H29b & _).
    rewrite (unit_out_multi b1 c1 Hb1 Hc1 Hg1 Hs1) in Heq.
    repeat destruct (decide _).
    + destruct (app_eq_prefixb _ _ _ _ Heq); congruence.
    + destruct (app_eq_prefixb _ _ _ _ Heq); congruence.
    + rewrite Hout in Heq. injection Heq as <- _. lia.
  - pose proof (good_unit_multi_length b1 c1 Hg1 Hs1) as Hlen1.
    pose proof (good_unit_multi_length b2 c2 Hg2 Hs2) as Hlen2.
    rewrite (unit_out_multi b1 c1 Hb1 Hc1 Hg1 Hs1) in Heq.
    rewrite (unit_out_multi b2 c2 Hb2 Hc2 Hg2 Hs2) in Heq.
    repeat destruct (decide _);
      repeat match goal with H : _ ∧ _ |- _ => destruct H end;
      subst; unfold u2028, u2029 in Heq; cbn [app] in Heq;
      try (injection Heq as Heq; first [lia | congruence | done]);
      try (exfalso; injection Heq as Heq; lia).
    injection Heq as -> Heq.
    apply app_inj_1 in Heq as [-> ->]; [done | congruence].
Qed.

Lemma unit_out_head (b : Z) (cont : list Z) :
  is_byte b → Forall is_byte cont → good_unit b cont →
  ∃ h t, unit_out b cont = h :: t ∧ h ≠ 34.
Proof.
  intros Hb Hc [[Hl ->] | [Hg Hs]].
  - destruct (ascii_unit_facts b ltac:(unfold is_byte in *; lia))
      as ((h & t & Hout & Hq & _) & _). eauto.
  - rewrite (unit_out_multi b cont Hb Hc Hg Hs).
    repeat destruct (decide _); eexists _, _; (split; [reflexivity | lia]).
Qed.

(** The bytes [appendString] writes between the quotes. *)
Definition escaped (bs : list Z) : list Z :=
  bytes_of (json.appendString_loop 0 bs).

(** A valid string can be read back from its escaped text and the double
    quote that ends it, whatever follows. *)
Lemma escaped_inj (bs1 bs2 x y : list Z) :
  Forall is_byte bs1 → Forall is_byte bs2 →
  utf8_valid_loop 0 bs1 = true → utf8_valid_loop 0 bs2 = true →
  escaped bs1 ++ 34 :: x = escaped bs2 ++ 34 :: y →
  bs1 = bs2 ∧ x = y.
Proof.
  remember (length bs1) as n eqn:Hn. revert bs1 bs2 Hn.
  induction n as [n IH] using lt_wf_ind. intros bs1 bs2 -> Hr1 Hr2 Hv1 Hv2 Heq.
  destruct bs1 as [| b1 rest1], bs2 as [| b2 rest2].
  - unfold escaped in Heq. cbn in Heq. by injection Heq as ->.
  - exfalso. destruct (appendString_loop_step b2 rest2 Hv2) as (n2 & Hn2 & Hg2 & Hs2 & _).
    apply Forall_cons in Hr2 as [Hb2 Hr2].
    destruct (unit_out_head b2 (take n2 rest2) Hb2 (Forall_take _ _ _ Hr2) Hg2)
      as (h & t & Hout & Hh).
    unfold escaped in Heq. rewrite Hs2, Hout in Heq. cbn in Heq.
    injection Heq as Heq _. congruence.
  - exfalso. destruct (appendString_loop_step b1 rest1 Hv1) as (n1 & Hn1 & Hg1 & Hs1 & _).
    apply Forall_cons in Hr1 as [Hb1 Hr1].
    destruct (unit_out_head b1 (take n1 rest1) Hb1 (Forall_take _ _ _ Hr1) Hg1)
      as (h & t & Hout & Hh).
    unfold escaped in Heq. rewrite Hs1, Hout in Heq. cbn in Heq.
    injection Heq as Heq _. congruence.
  - destruct (appendString_loop_step b1 rest1 Hv1) as (n1 & Hn1 & Hg1 & Hs1 & Hv1').
    destruct (appendString_loop_step b2 rest2 Hv2) as (n2 & Hn2 & Hg2 & Hs2 & Hv2').
    apply Forall_cons in Hr1 as [Hb1 Hr1]. apply Forall_cons in Hr2 as [Hb2 Hr2].
    unfold escaped in Heq. rewrite Hs1, Hs2, <- !app_assoc in Heq.
    apply unit_out_apart in Heq as (-> & Htake & Heq);
      [| done | by apply Forall_take | done | by apply Forall_take | done | done].
    destruct (IH (length (drop n1 rest1))) with (bs1 := drop n1 rest1)
      (bs2 := drop n2 rest2) as [Hdrop ->];
      [rewrite length_drop; cbn; lia | done | by apply Forall_drop
      | by apply Forall_drop | done | done | exact Heq |].
    split; [| done]. f_equal.
    by rewrite <- (take_drop n1 rest1), <- (take_drop n2 rest2), Htake, Hdrop.
Qed.

Lemma bytes_of_appendString (s : string) :
  bytes_of (json.appendString s) = 34 :: escaped (bytes_of s) ++ [34].
Proof.
  unfold json.appendString, escaped. by rewrite !bytes_of_app.
Qed.

(** A JSON string written by [appendString] for a valid string can be read
    back, whatever follows it. *)
Lemma appendString_inj (s1 s2 : string) (x y : list Z) :
  utf8_ValidString s1 = true → utf8_ValidString s2 = true →
  bytes_of (json.appendString s1) ++ x = bytes_of (json.appendString s2) ++ y →
  s1 = s2 ∧ x = y.
Proof.
  intros Hv1 Hv2. rewrite !bytes_of_appendString. cbn [app].
  rewrite <- !app_assoc. cbn [app]. intros [= Heq].
  apply escaped_inj in Heq as [Hs ->];
    [| apply bytes_of_range | apply bytes_of_range | done | done].
  split; [by apply bytes_of_inj | done].
Qed.

Lemma bytes_of_appendString_head (s : string) :
  ∃ t, bytes_of (json.appendString s) = 34 :: t.
Proof. rewrite bytes_of_appendString. eauto. Qed.

(** The elements of a JSON array of strings, up to the bracket that closes
    it. *)
Lemma join_cons (s : string) (l : list string) (r : list Z) :
  bytes_of (json.join "," (map json.appendString (s :: l))) ++ 93 :: r
  = bytes_of (json.appendString s)
      ++ match l with
         | [] => 93 :: r
         | _ => 44 :: bytes_of (json.join "," (map json.appendString l)) ++ 93 :: r
         end.
Proof.
  destruct l as [| s' l]; [done |].
  change (json.join "," (map json.appendString (s :: s' :: l)))
    with (json.appendString s
            +:+ "," +:+ json.join "," (map json.appendString (s' :: l))).
  rewrite !bytes_of_app, <- !app_assoc. done.
Qed.

Lemma join_inj (l1 l2 : list string) (x y : list Z) :
  Forall (λ s, utf8_ValidString s = true) l1 →
  Forall (λ s, utf8_ValidString s = true) l2 →
  bytes_of (json.join "," (map json.appendString l1)) ++ 93 :: x
  = bytes_of (json.join "," (map json.appendString l2)) ++ 93 :: y →
  l1 = l2 ∧ x = y.
Proof.
  intros Hv1. revert l2. induction Hv1 as [| s1 l1 Hs1 Hv1 IH]; intros l2 Hv2 Heq.
  - destruct Hv2 as [| s2 l2 Hs2 Hv2]; [cbn in Heq; by injection Heq as -> |].
    exfalso. rewrite join_cons in Heq.
    destruct (bytes_of_appendString_head s2) as [t Ht]. rewrite Ht in Heq.
    cbn in Heq. discriminate.
  - destruct Hv2 as [| s2 l2 Hs2 Hv2].
    { exfalso. rewrite join_cons in Heq.
      destruct (bytes_of_appendString_head s1) as [t Ht]. rewrite Ht in Heq.
      cbn in Heq. discriminate. }
    rewrite !join_cons in Heq.
    apply appendString_inj in Heq as [-> Heq]; [| done | done].
    destruct l1 as [| s1' l1], l2 as [| s2' l2].
    + by injection Heq as ->.
    + discriminate.
    + discriminate.
    + injection Heq as Heq. by destruct (IH (s2' :: l2) Hv2 Heq) as [-> ->].
Qed.

(** A slice of strings can be read back from its JSON text, nil from
    [null] and the empty slice from the empty array. *)
Lemma stringSlice_inj (t1 t2 : option (list string)) (x y : list Z) :
  (∀ l, t1 = Some l → Forall (λ s, utf8_ValidString s = true) l) →
  (∀ l, t2 = Some l → Forall (λ s, utf8_ValidString s = true) l) →
  bytes_of (json.stringSlice t1) ++ x = bytes_of (json.stringSlice t2) ++ y →
  t1 = t2 ∧ x = y.
Proof.
  intros Hv1 Hv2 Heq. destruct t1 as [l1 |], t2 as [l2 |]; cbn [json.stringSlice] in Heq.
  - rewrite !bytes_of_app in Heq. cbn [bytes_of app] in Heq.
    rewrite <- !app_assoc in Heq. cbn [app] in Heq. injection Heq as Heq.
    apply join_inj in Heq as [-> ->]; [done | by apply Hv1 | by apply Hv2].
  - exfalso. rewrite !bytes_of_app in Heq. cbn in Heq. discriminate.
  - exfalso. rewrite !bytes_of_app in Heq. cbn in Heq. discriminate.
  - cbn in Heq. by simplify_eq.
Qed.

(* ===================================================================== *)
(** * The text of a time can be read back *)
(* ===================================================================== *)

Lemma byte_of_digit (d : Z) : 0 ≤ d ≤ 9 → byte_of (time.digit d) = 48 + d.
Proof. intros Hd. apply byte_of_ascii_of. unfold is_byte. lia. Qed.

Lemma bytes_of_dec2 (x : Z) :
  0 ≤ x < 100 → bytes_of (time.dec2 x) = [48 + x / 10; 48 + x mod 10].
Proof.
  intros Hx. unfold time.dec2. cbn [bytes_of].
  rewrite !byte_of_digit; [done | |]; Z.div_mod_to_equations; lia.
Qed.

Lemma bytes_of_dec4 (x : Z) :
  0 ≤ x < 10000 →
  bytes_of (time.dec4 x)
  = [48 + x / 1000; 48 + x / 100 mod 10; 48 + x mod 100 / 10; 48 + x mod 100 mod 10].
Proof.
  intros Hx. unfold time.dec4. cbn [bytes_of].
  rewrite bytes_of_dec2 by (Z.div_mod_to_equations; lia).
  rewrite !byte_of_digit; [done | |]; Z.div_mod_to_equations; lia.
Qed.

(** A text does not go on with a digit. *)
Definition no_digit_ahead (z : list Z) : Prop :=
  match z with
  | h :: _ => h < 48 ∨ 57 < h
  | [] => False
  end.

Lemma frac_inj (k : nat) (x y : Z) (z1 z2 : list Z) :
  0 ≤ x < 10 ^ Z.of_nat k → 0 ≤ y < 10 ^ Z.of_nat k →
  no_digit_ahead z1 → no_digit_ahead z2 →
  bytes_of (time.frac k x) ++ z1 = bytes_of (time.frac k y) ++ z2 →
  x = y ∧ z1 = z2.
Proof.
  revert x y. induction k as [| k IH]; intros x y Hx Hy Hz1 Hz2 Heq.
  - cbn in *. split; [lia | done].
  - cbn [time.frac] in Heq.
    assert (Hpow : 10 ^ Z.of_nat (S k) = 10 * 10 ^ Z.of_nat k).
    { rewrite Nat2Z.inj_succ, Z.pow_succ_r; lia. }
    assert (Hpos : 0 < 10 ^ Z.of_nat k) by (apply Z.pow_pos_nonneg; lia).
    rewrite Hpow in Hx, Hy.
    assert (Hdigit : ∀ v, 0 ≤ v < 10 * 10 ^ Z.of_nat k →
              0 ≤ v / 10 ^ Z.of_nat k ≤ 9
              ∧ 0 ≤ v mod 10 ^ Z.of_nat k < 10 ^ Z.of_nat k).
    { intros v Hv. split; [| apply Z.mod_pos_bound; lia]. split.
      - apply Z.div_pos; lia.
      - apply Z.lt_succ_r. apply Z.div_lt_upper_bound; lia. }
    destruct (Z.eqb_spec x 0) as [-> | Hx0], (Z.eqb_spec y 0) as [-> | Hy0].
    + done.
    + exfalso. cbn [bytes_of app] in Heq. rewrite byte_of_digit in Heq
        by apply Hdigit, Hy.
      destruct z1 as [| h z1]; [done |]. injection Heq as -> _.
      pose proof (Hdigit y Hy). cbn in Hz1. lia.
    + exfalso. cbn [bytes_of app] in Heq. rewrite byte_of_digit in Heq
        by apply Hdigit, Hx.
      destruct z2 as [| h z2]; [done |]. injection Heq as <- _.
      pose proof (Hdigit x Hx). cbn in Hz2. lia.
    + cbn [bytes_of app] in Heq.
      rewrite !byte_of_digit in Heq by (apply Hdigit; done).
      injection Heq as Hd Heq.
      apply IH in Heq as [Hm ->]; [| apply Hdigit; done | apply Hdigit; done
                                   | done | done].
      split; [| done].
      rewrite (Z.div_mod x (10 ^ Z.of_nat k)), (Z.div_mod y (10 ^ Z.of_nat k)) by lia.
      f_equal; [f_equal; lia | done].
Qed.

Lemma bytes_of_zone (off : Z) :
  Z.abs (Z.quot off 60) / 60 < 24 →
  bytes_of (time.zone off)
  = if off =? 0 then [90]
    else let z := Z.quot off 60 in
         [if z <? 0 then 45 else 43;
          48 + Z.abs z / 60 / 10; 48 + Z.abs z / 60 mod 10; 58;
          48 + Z.abs z mod 60 / 10; 48 + Z.abs z mod 60 mod 10].
Proof.
  intros Hhour. unfold time.zone. destruct (Z.eqb_spec off 0); [done |].
  cbv zeta. pose proof (Z.abs_nonneg (Z.quot off 60)) as Hpos.
  set (a := Z.abs (Z.quot off 60)) in *. clearbody a.
  rewrite !bytes_of_app.
  rewrite !bytes_of_dec2 by (Z.div_mod_to_equations; lia).
  by destruct (_ <? 0).
Qed.

Lemma zone_no_digit (off : Z) :
  Z.abs (Z.quot off 60) / 60 < 24 →
  ∀ x, no_digit_ahead (bytes_of (time.zone off) ++ x).
Proof.
  intros Hhour x. rewrite bytes_of_zone by done.
  destruct (off =? 0); [cbn; lia |]. cbv zeta. destruct (_ <? 0); cbn; lia.
Qed.

Lemma quot_exact (off : Z) : off mod 60 = 0 → off = 60 * Z.quot off 60.
Proof.
  intros Hmod. pose proof (Z.div_mod off 60 ltac:(lia)) as Hdiv.
  rewrite Hmod, Z.add_0_r, Z.mul_comm in Hdiv. rewrite Hdiv.
  rewrite Z.quot_mul by lia. lia.
Qed.

Lemma zone_inj (o1 o2 : Z) (x y : list Z) :
  o1 mod 60 = 0 → Z.abs (Z.quot o1 60) / 60 < 24 →
  o2 mod 60 = 0 → Z.abs (Z.quot o2 60) / 60 < 24 →
  bytes_of (time.zone o1) ++ x = bytes_of (time.zone o2) ++ y →
  o1 = o2.
Proof.
  intros Hm1 Hh1 Hm2 Hh2. rewrite !bytes_of_zone by done. cbv zeta.
  pose proof (quot_exact o1 Hm1) as He1. pose proof (quot_exact o2 Hm2) as He2.
  set (z1 := Z.quot o1 60) in *. set (z2 := Z.quot o2 60) in *.
  clearbody z1 z2.
  pose proof (Z.abs_nonneg z1) as Hp1. pose proof (Z.abs_nonneg z2) as Hp2.
  pose proof (Z.abs_eq_or_opp z1) as Ha1. pose proof (Z.abs_eq_or_opp z2) as Ha2.
  set (a1 := Z.abs z1) in *. set (a2 := Z.abs z2) in *. clearbody a1 a2.
  destruct (Z.eqb_spec o1 0), (Z.eqb_spec o2 0); [congruence | | |];
    destruct (Z.ltb_spec z1 0), (Z.ltb_spec z2 0); cbn [app];
    intros Heq; simplify_eq; Z.div_mod_to_equations; lia.
Qed.

Lemma nano_zone_inj (n1 n2 o1 o2 : Z) :
  0 ≤ n1 < 1000000000 → 0 ≤ n2 < 1000000000 →
  o1 mod 60 = 0 → Z.abs (Z.quot o1 60) / 60 < 24 →
  o2 mod 60 = 0 → Z.abs (Z.quot o2 60) / 60 < 24 →
  bytes_of (time.nano n1) ++ bytes_of (time.zone o1)
  = bytes_of (time.nano n2) ++ bytes_of (time.zone o2) →
  n1 = n2 ∧ o1 = o2.
Proof.
  intros Hn1 Hn2 Hm1 Hh1 Hm2 Hh2 Heq.
  pose proof (zone_no_digit o1 Hh1 []) as Hz1.
  pose proof (zone_no_digit o2 Hh2 []) as Hz2.
  rewrite app_nil_r in Hz1, Hz2.
  assert (Hdot : ∀ o, Z.abs (Z.quot o 60) / 60 < 24 →
            ∀ t, bytes_of (time.zone o) ≠ 46 :: t).
  { intros o Hh t. rewrite bytes_of_zone by done.
    destruct (o =? 0); [done |]. cbv zeta. by destruct (_ <? 0). }
  unfold time.nano in Heq.
  destruct (Z.eqb_spec n1 0) as [-> | H1], (Z.eqb_spec n2 0) as [-> | H2].
  - cbn in Heq. split; [done |].
    apply (zone_inj o1 o2 [] []); [done | done | done | done |].
    by rewrite !app_nil_r.
  - exfalso. cbn [bytes_of app] in Heq. by apply (Hdot o1 Hh1) in Heq.
  - exfalso. cbn [bytes_of app] in Heq. symmetry in Heq.
    by apply (Hdot o2 Hh2) in Heq.
  - cbn [bytes_of app] in Heq. injection Heq as Heq.
    apply (frac_inj 9) in Heq as [-> Heq]; [| done | done | done | done].
    split; [done |].
    apply (zone_inj o1 o2 [] []); [done | done | done | done |].
    by rewrite !app_nil_r.
Qed.

(** ** The calendar *)

(** [civil] within one cycle of four hundred years, from the day number
    [doe] counted from March 1 of the cycle's first year. *)
Definition civil_doe (doe : Z) : Z * Z * Z :=
  let yoe := (doe - doe / 1460 + doe / 36524 - doe / 146096) / 365 in
  let doy := doe - (365 * yoe + yoe / 4 - yoe / 100) in
  let mp := (5 * doy + 2) / 153 in
  let day := doy - (153 * mp + 2) / 5 + 1 in
  let month := if mp <? 10 then mp + 3 else mp - 9 in
  (yoe + (if month <=? 2 then 1 else 0), month, day).

Lemma civil_cycle (d : Z) :
  time.civil d
  = let '(y, m, dd) := civil_doe ((d + 306) mod 146097) in
    (y + (d + 306) / 146097 * 400, m, dd).
Proof. unfold time.civil, civil_doe. cbv zeta. f_equal. f_equal. lia. Qed.

(** The day number within the cycle, from the date. *)
Definition doe_of (y m d : Z) : Z :=
  let yoe := y - (if m <=? 2 then 1 else 0) in
  let mp := if m <=? 2 then m + 9 else m - 3 in
  yoe * 365 + yoe / 4 - yoe / 100 + ((153 * mp + 2) / 5 + d - 1).

(** Every day of a cycle has a month from 1 to 12, a day from 1 to 31 and a
    year of the cycle from 0 to 400, the year 400 in January and February
    only and the year 0 from March on only; and the date gives back the
    day. *)
Lemma civil_doe_facts (doe : Z) :
  0 ≤ doe < 146097 →
  ∃ y m d, civil_doe doe = (y, m, d) ∧ doe_of y m d = doe
           ∧ 0 ≤ y ≤ 400 ∧ 1 ≤ m ≤ 12 ∧ 1 ≤ d ≤ 31
           ∧ (y = 400 → m ≤ 2) ∧ (y = 0 → 3 ≤ m).
Proof.
  intros Hdoe. unfold civil_doe. cbv zeta.
  assert (Hyoe : 0 ≤ (doe - doe / 1460 + doe / 36524 - doe / 146096) / 365 ≤ 399
                 ∧ 0 ≤ doe - (365 * ((doe - doe / 1460 + doe / 36524
                                      - doe / 146096) / 365)
                              + (doe - doe / 1460 + doe / 36524
                                 - doe / 146096) / 365 / 4
                              - (doe - doe / 1460 + doe / 36524
                                 - doe / 146096) / 365 / 100) ≤ 365)
    by (Z.div_mod_to_equations; lia).
  set (yoe := (doe - doe / 1460 + doe / 36524 - doe / 146096) / 365) in *.
  assert (Hdoy : doe = 365 * yoe + yoe / 4 - yoe / 100
                       + (doe - (365 * yoe + yoe / 4 - yoe / 100))) by lia.
  set (doy := doe - (365 * yoe + yoe / 4 - yoe / 100)) in *.
  clearbody doy. clearbody yoe.
  assert (Hmp : 0 ≤ (5 * doy + 2) / 153 ≤ 11
                ∧ 1 ≤ doy - (153 * ((5 * doy + 2) / 153) + 2) / 5 + 1 ≤ 31)
    by (Z.div_mod_to_equations; lia).
  set (mp := (5 * doy + 2) / 153) in *. clearbody mp.
  eexists _, _, _. split; [reflexivity |]. unfold doe_of. cbv zeta.
  destruct (Z.ltb_spec mp 10).
  - destruct (Z.leb_spec (mp + 3) 2); [lia |].
    replace (mp + 3 - 3) with mp by lia. rewrite Z.add_0_r, Z.sub_0_r.
    repeat split; lia.
  - destruct (Z.leb_spec (mp - 9) 2); [| lia].
    replace (mp - 9 + 9) with mp by lia.
    replace (yoe + 1 - 1) with yoe by lia.
    repeat split; lia.
Qed.

Lemma civil_range (d : Z) :
  ∃ y m dd, time.civil d = (y, m, dd) ∧ 1 ≤ m ≤ 12 ∧ 1 ≤ dd ≤ 31.
Proof.
  rewrite civil_cycle.
  destruct (civil_doe_facts ((d + 306) mod 146097)
              ltac:(apply Z.mod_pos_bound; lia)) as (y & m & dd & -> & _ & _ & ? & ? & _).
  eauto 10.
Qed.

Lemma civil_inj (d d' : Z) : time.civil d = time.civil d' → d = d'.
Proof.
  rewrite !civil_cycle.
  destruct (civil_doe_facts ((d + 306) mod 146097)
              ltac:(apply Z.mod_pos_bound; lia))
    as (y & m & dd & -> & Hdoe & Hy & _ & _ & H400 & H0).
  destruct (civil_doe_facts ((d' + 306) mod 146097)
              ltac:(apply Z.mod_pos_bound; lia))
    as (y' & m' & dd' & -> & Hdoe' & Hy' & _ & _ & H400' & H0').
  intros [= Hyear -> ->].
  assert (y = y' ∧ (d + 306) / 146097 = (d' + 306) / 146097) as [-> Hera] by lia.
  rewrite Hdoe' in Hdoe.
  pose proof (Z.div_mod (d + 306) 146097 ltac:(lia)).
  pose proof (Z.div_mod (d' + 306) 146097 ltac:(lia)). lia.
Qed.

(** The first nineteen bytes of the text of a time: the date and the time
    of day [s], in seconds. *)
Definition date_time (y m d s : Z) : list Z :=
  [48 + y / 1000; 48 + y / 100 mod 10; 48 + y mod 100 / 10; 48 + y mod 100 mod 10;
   45; 48 + m / 10; 48 + m mod 10; 45; 48 + d / 10; 48 + d mod 10; 84;
   48 + s / 3600 / 10; 48 + s / 3600 mod 10; 58;
   48 + s / 60 mod 60 / 10; 48 + s / 60 mod 60 mod 10; 58;
   48 + s mod 60 / 10; 48 + s mod 60 mod 10].

Lemma date_time_inj (y m d s y' m' d' s' : Z) (x x' : list Z) :
  0 ≤ y ≤ 9999 → 1 ≤ m ≤ 12 → 1 ≤ d ≤ 31 → 0 ≤ s < 86400 →
  0 ≤ y' ≤ 9999 → 1 ≤ m' ≤ 12 → 1 ≤ d' ≤ 31 → 0 ≤ s' < 86400 →
  date_time y m d s ++ x = date_time y' m' d' s' ++ x' →
  y = y' ∧ m = m' ∧ d = d' ∧ s = s' ∧ x = x'.
Proof.
  intros Hy Hm Hd Hs Hy' Hm' Hd' Hs'. unfold date_time. cbn [app].
  intros [= Y1 Y2 Y3 Y4 M1 M2 D1 D2 H1 H2 I1 I2 S1 S2 ->].
  split; [clear -Y1 Y2 Y3 Y4 Hy Hy'; Z.div_mod_to_equations; lia |].
  split; [clear -M1 M2 Hm Hm'; Z.div_mod_to_equations; lia |].
  split; [clear -D1 D2 Hd Hd'; Z.div_mod_to_equations; lia |].
  split; [| done].
  clear -H1 H2 I1 I2 S1 S2 Hs Hs'. Z.div_mod_to_equations. lia.
Qed.

Lemma bytes_of_appendStrictRFC3339 (t : time.Time) (s : string) :
  time.appendStrictRFC3339 t = Some s →
  ∃ y m d,
    time.civil ((time.sec t + time.offset t) / 86400) = (y, m, d)
    ∧ 0 ≤ y ≤ 9999 ∧ 1 ≤ m ≤ 12 ∧ 1 ≤ d ≤ 31
    ∧ Z.abs (Z.quot (time.offset t) 60) / 60 < 24
    ∧ bytes_of s
      = date_time y m d ((time.sec t + time.offset t) mod 86400)
          ++ bytes_of (time.nano (time.nsec t))
          ++ bytes_of (time.zone (time.offset t)).
Proof.
  unfold time.appendStrictRFC3339. cbv zeta.
  destruct (civil_range ((time.sec t + time.offset t) / 86400))
    as (y & m & d & Hc & Hm & Hd). rewrite Hc.
  pose proof (Z.mod_pos_bound (time.sec t + time.offset t) 86400 ltac:(lia)) as Hs.
  set (sd := (time.sec t + time.offset t) mod 86400) in *. clearbody sd.
  destruct (Z.ltb_spec y 0); [done |]. destruct (Z.ltb_spec 9999 y); [done |].
  cbn [orb].
  assert (Hzone : ∀ o, (negb (o =? 0) && (24 <=? Z.abs (Z.quot o 60) / 60)) = false →
                       Z.abs (Z.quot o 60) / 60 < 24).
  { intros o Ho. destruct (Z.eqb_spec o 0) as [Ho0 | _].
    - rewrite Ho0. by vm_compute.
    - cbn in Ho. by apply Z.leb_gt in Ho. }
  destruct (negb _ && _) eqn:Hz; [done |]. apply Hzone in Hz.
  intros [= <-]. exists y, m, d. split; [done |]. split; [lia |].
  split; [done |]. split; [done |]. split; [done |].
  rewrite !bytes_of_app.
  rewrite bytes_of_dec4 by lia.
  rewrite !bytes_of_dec2 by (Z.div_mod_to_equations; lia).
  unfold date_time. cbn [app bytes_of]. done.
Qed.

(** A time as [json.Marshal] wants it: a year from 0 to 9999 and a zone
    below twenty-four hours, for which alone it returns a text; the
    nanoseconds within the second, as in every [time.Time]; and a zone offset
    of whole minutes, the seconds of an offset being left out of the
    text. *)
Definition time_ok (t : time.Time) : Prop :=
  is_Some (time.MarshalJSON t)
  ∧ 0 ≤ time.nsec t < 1000000000
  ∧ time.offset t mod 60 = 0.

Lemma MarshalJSON_Some (t : time.Time) (c : string) :
  time.MarshalJSON t = Some c →
  ∃ s, time.appendStrictRFC3339 t = Some s ∧ bytes_of c = 34 :: bytes_of s ++ [34].
Proof.
  unfold time.MarshalJSON. destruct (time.appendStrictRFC3339 t) as [s |]; [| done].
  intros [= <-]. exists s. split; [done |]. by rewrite !bytes_of_app.
Qed.

(** The text of a time tells the time. *)
Lemma MarshalJSON_inj (t1 t2 : time.Time) (c : string) :
  time_ok t1 → time_ok t2 →
  time.MarshalJSON t1 = Some c → time.MarshalJSON t2 = Some c → t1 = t2.
Proof.
  intros (_ & Hn1 & Ho1) (_ & Hn2 & Ho2) H1 H2.
  apply MarshalJSON_Some in H1 as (s1 & H1 & Hc1), H2 as (s2 & H2 & Hc2).
  rewrite Hc1 in Hc2. injection Hc2 as Hs. apply app_inv_tail in Hs.
  apply bytes_of_appendStrictRFC3339 in H1
    as (y1 & m1 & d1 & Hc1' & Hy1 & Hm1 & Hd1 & Hz1 & Hb1).
  apply bytes_of_appendStrictRFC3339 in H2
    as (y2 & m2 & d2 & Hc2' & Hy2 & Hm2 & Hd2 & Hz2 & Hb2).
  rewrite Hb1, Hb2 in Hs.
  apply date_time_inj in Hs as (-> & -> & -> & Hsd & Hs);
    [| done | done | done | by apply Z.mod_pos_bound | done | done | done
     | by apply Z.mod_pos_bound].
  apply nano_zone_inj in Hs as [Hn Ho]; [| done | done | done | done | done | done].
  rewrite <- Hc2' in Hc1'. apply civil_inj in Hc1'.
  pose proof (Z.div_mod (time.sec t1 + time.offset t1) 86400 ltac:(lia)).
  pose proof (Z.div_mod (time.sec t2 + time.offset t2) 86400 ltac:(lia)).
  destruct t1, t2. cbn in *. f_equal; lia.
Qed.

(* ===================================================================== *)
(** * The text that is hashed *)
(* ===================================================================== *)

(** The fields [ComputeChecksum] reads are well formed: the strings are
    valid UTF-8 and the creation time is a time [json.Marshal] accepts. *)
Definition qualifying_ok (k : Key.t) : Prop :=
  utf8_ValidString (Key.Name k) = true
  ∧ utf8_ValidString (Key.Type_ k) = true
  ∧ utf8_ValidString (Key.Fingerprint k) = true
  ∧ utf8_ValidString (Key.Path k) = true
  ∧ utf8_ValidString (Key.Comment k) = true
  ∧ (∀ tags, Key.Tags k = Some tags →
             Forall (λ tag, utf8_ValidString tag = true) tags)
  ∧ time_ok (Key.CreatedAt k).

(** Two keys agree on the fields [ComputeChecksum] reads; for [Tags] the
    nil slice and the empty slice are two values. *)
Definition same_qualifying (a b : Key.t) : Prop :=
  Key.Name a = Key.Name b
  ∧ Key.Type_ a = Key.Type_ b
  ∧ Key.Fingerprint a = Key.Fingerprint b
  ∧ Key.Path a = Key.Path b
  ∧ Key.Comment a = Key.Comment b
  ∧ Key.Tags a = Key.Tags b
  ∧ Key.CreatedAt a = Key.CreatedAt b.

Lemma checksum_json_same (a b : Key.t) :
  same_qualifying a b → checksum_json a = checksum_json b.
Proof.
  intros (Hn & Ht & Hf & Hp & Hc & Hg & Hd). unfold checksum_json.
  by rewrite Hn, Ht, Hf, Hp, Hc, Hg, Hd.
Qed.

Ltac literal_bytes s :=
  let v := eval vm_compute in (bytes_of s) in
  change (bytes_of s) with v in *.

(** The text hashed for a key tells the fields it was made from. *)
Lemma checksum_json_inj (a b : Key.t) (text : string) :
  qualifying_ok a → qualifying_ok b →
  checksum_json a = Some text → checksum_json b = Some text →
  same_qualifying a b.
Proof.
  intros (Hn1 & Ht1 & Hf1 & Hp1 & Hc1 & Hg1 & Hd1)
         (Hn2 & Ht2 & Hf2 & Hp2 & Hc2 & Hg2 & Hd2) Ha Hb.
  unfold checksum_json in Ha, Hb.
  destruct (time.MarshalJSON (Key.CreatedAt a)) as [ca |] eqn:Hca; [| done].
  destruct (time.MarshalJSON (Key.CreatedAt b)) as [cb |] eqn:Hcb; [| done].
  cbn [mbind option_bind] in Ha, Hb. injection Ha as Ha. injection Hb as Hb.
  rewrite <- Hb in Ha. clear Hb text.
  apply (f_equal bytes_of) in Ha. unfold json.field in Ha.
  rewrite !bytes_of_app in Ha. rewrite <- !app_assoc in Ha.
  literal_bytes "{"%string. literal_bytes ","%string. literal_bytes ":"%string.
  literal_bytes "}"%string. literal_bytes dquote.
  literal_bytes "Name"%string. literal_bytes "Type"%string.
  literal_bytes "Fingerprint"%string. literal_bytes "Path"%string.
  literal_bytes "Comment"%string. literal_bytes "Tags"%string.
  literal_bytes "CreatedAt"%string.
  repeat apply app_inv_head in Ha.
  apply appendString_inj in Ha as [Hname Ha]; [| done | done].
  repeat apply app_inv_head in Ha.
  apply appendString_inj in Ha as [Htype Ha]; [| done | done].
  repeat apply app_inv_head in Ha.
  apply appendString_inj in Ha as [Hfp Ha]; [| done | done].
  repeat apply app_inv_head in Ha.
  apply appendString_inj in Ha as [Hpath Ha]; [| done | done].
  repeat apply app_inv_head in Ha.
  apply appendString_inj in Ha as [Hcomment Ha]; [| done | done].
  repeat apply app_inv_head in Ha.
  apply stringSlice_inj in Ha as [Htags Ha]; [| done | done].
  repeat apply app_inv_head in Ha.
  apply app_inv_tail, bytes_of_inj in Ha. subst cb.
  repeat (split; [done |]).
  by apply (MarshalJSON_inj _ _ ca).
Qed.

(* ===================================================================== *)
(** * Hexadecimal text *)
(* ===================================================================== *)

Lemma byte_of_hexdigit (n : Z) :
  0 ≤ n < 16 → byte_of (hexdigit n) = if n <? 10 then 48 + n else 87 + n.
Proof.
  intros Hn. unfold hexdigit.
  destruct (n <? 10); apply byte_of_ascii_of; unfold is_byte; lia.
Qed.

Lemma hex_EncodeToString_inj (bs1 bs2 : list Z) :
  Forall is_byte bs1 → Forall is_byte bs2 →
  hex_EncodeToString bs1 = hex_EncodeToString bs2 → bs1 = bs2.
Proof.
  intros H1. revert bs2. induction H1 as [| b1 bs1 Hb1 _ IH]; intros bs2 H2 Heq.
  - by destruct bs2.
  - destruct H2 as [| b2 bs2 Hb2 H2]; [done |].
    cbn [hex_EncodeToString] in Heq. injection Heq as Hhi Hlo Heq.
    apply (f_equal byte_of) in Hhi, Hlo. unfold is_byte in Hb1, Hb2.
    rewrite !Z.shiftr_div_pow2 in Hhi by lia.
    change 15 with (Z.ones 4) in Hlo. rewrite !Z.land_ones in Hlo by lia.
    change (2 ^ 4) with 16 in *.
    rewrite !byte_of_hexdigit in Hhi, Hlo by (Z.div_mod_to_equations; lia).
    f_equal; [| by apply IH].
    destruct (Z.ltb_spec (b1 / 16) 10), (Z.ltb_spec (b2 / 16) 10),
             (Z.ltb_spec (b1 mod 16) 10), (Z.ltb_spec (b2 mod 16) 10);
      Z.div_mod_to_equations; lia.
Qed.

(* ===================================================================== *)
(** * The checksum *)
(* ===================================================================== *)

(** Two names that are no valid UTF-8: the single bytes 0xff and 0xfe. *)
Definition name_ff : string := String (ascii_of 255) EmptyString.
Definition name_fe : string := String (ascii_of 254) EmptyString.

Definition key_ff : Key.t := Key.named name_ff.
Definition key_fe : Key.t := Key.named name_fe.

(** A creation time in year 10000, which [time.Time.MarshalJSON] refuses. *)
Definition year_10000 : time.Time := time.mkTime 315537897600 0 0.

(** C4, as the code has it: [ComputeChecksum] is the SHA-256 digest, in
    hexadecimal, of a JSON text made from [Name], [Type], [Fingerprint],
    [Path], [Comment], [Tags] and [CreatedAt] and from no other field.  Two
    keys that agree on these seven, a nil [Tags] and an empty [Tags] being
    two values, have one checksum, whatever [Installed], [UpdatedAt],
    [PubPath], [RSABits], [HasPassphrase] and the rotation fields hold.  For
    keys whose seven fields are well formed, the text is hashed for both,
    the two texts are the same exactly when the keys agree on the seven
    fields, so a change to any of them changes the text hashed, and the
    two checksums are the same exactly when the digests of the two texts
    are. *)
Theorem ComputeChecksum_qualifying_fields (a b : Key.t) :
  (same_qualifying a b → ComputeChecksum a = ComputeChecksum b)
  ∧ (qualifying_ok a → qualifying_ok b →
     ∃ ta tb : string,
       checksum_json a = Some ta ∧ checksum_json b = Some tb
       ∧ ComputeChecksum a = hex_EncodeToString (sha256.Sum256 (bytes_of ta))
       ∧ ComputeChecksum b = hex_EncodeToString (sha256.Sum256 (bytes_of tb))
       ∧ (ta = tb ↔ same_qualifying a b)
       ∧ (ComputeChecksum a = ComputeChecksum b
          ↔ sha256.Sum256 (bytes_of ta) = sha256.Sum256 (bytes_of tb))).
Proof.
  split.
  - intros Hsame. unfold ComputeChecksum. by rewrite (checksum_json_same a b).
  - intros Ha Hb.
    assert (Hsome : ∀ k, qualifying_ok k → ∃ t, checksum_json k = Some t).
    { intros k (_ & _ & _ & _ & _ & _ & [c Hc] & _). unfold checksum_json.
      rewrite Hc. cbn [mbind option_bind]. eauto. }
    destruct (Hsome a Ha) as [ta Hta], (Hsome b Hb) as [tb Htb].
    exists ta, tb. split; [done |]. split; [done |].
    unfold ComputeChecksum. rewrite Hta, Htb. cbn [default].
    split; [done |]. split; [done |]. split.
    + split.
      * intros <-. by apply (checksum_json_inj a b ta).
      * intros Hsame. apply checksum_json_same in Hsame. congruence.
    + split.
      * apply hex_EncodeToString_inj; apply Sum256_shape.
      * intros Hd. by f_equal.
Qed.

(** A key without tags as the keystore makes it, with the empty slice, and
    the same key with the nil slice, as it is read back from the
    configuration file. *)
Definition key_empty_tags : Key.t :=
  Key.mk "work" "" "" "" (Some []) "" time.zero time.zero "" false 0 false
    None None "".
Definition key_nil_tags : Key.t :=
  Key.mk "work" "" "" "" None "" time.zero time.zero "" false 0 false
    None None "".

(** Two keys made one second apart, in zones whose offsets differ by one
    second. *)
Definition key_zone_3600 : Key.t :=
  Key.mk "work" "" "" "" None "" (time.mkTime 63000000001 0 3600) time.zero ""
    false 0 false None None "".
Definition key_zone_3601 : Key.t :=
  Key.mk "work" "" "" "" None "" (time.mkTime 63000000000 0 3601) time.zero ""
    false 0 false None None "".

(** C4, as the claim states it, fails in both parts.  Keys that agree on
    the qualifying fields need not have one checksum: a key whose [Tags] is
    the empty slice and the same key with the nil slice hold the same tags,
    none, and their checksums differ.  And a change to a qualifying field
    need not change the checksum: the names 0xff and 0xfe differ, both are
    replaced by U+FFFD in the JSON text, and the two keys have one checksum;
    so have two keys whose creation times are a second apart in zones whose
    offsets differ by a second. *)
Lemma ComputeChecksum_counterexamples :
  (Key.Tags key_empty_tags = Some [] ∧ Key.Tags key_nil_tags = None
   ∧ ComputeChecksum key_empty_tags ≠ ComputeChecksum key_nil_tags)
  ∧ (Key.Name key_ff ≠ Key.Name key_fe
     ∧ checksum_json key_ff = checksum_json key_fe
     ∧ ComputeChecksum key_ff = ComputeChecksum key_fe)
  ∧ (Key.CreatedAt key_zone_3600 ≠ Key.CreatedAt key_zone_3601
     ∧ checksum_json key_zone_3600 = checksum_json key_zone_3601
     ∧ ComputeChecksum key_zone_3600 = ComputeChecksum key_zone_3601).
Proof.
  split; [| split].
  - split; [done |]. split; [done |]. intros H. vm_compute in H. discriminate.
  - split; [discriminate |].
    assert (H : checksum_json key_ff = checksum_json key_fe)
      by (vm_compute; reflexivity).
    split; [exact H |]. unfold ComputeChecksum. by rewrite H.
  - split; [discriminate |].
    assert (H : checksum_json key_zone_3600 = checksum_json key_zone_3601)
      by (vm_compute; reflexivity).
    split; [exact H |]. unfold ComputeChecksum. by rewrite H.
Qed.

Lemma ComputeChecksum_qualifying_fields_witness :
  ComputeChecksum tie_local
  = ComputeChecksum
      (Key.mk "work" "ed25519" "" "/home/u/.ssh/work.pub" None "from here"
         time.zero (time.mkTime 63000000999 5 3600) "" true 4096 true
         (Some tie_at) None "old")
  ∧ ∃ ta tb : string,
      checksum_json tie_local = Some ta ∧ checksum_json key_empty_tags = Some tb
      ∧ (ta = tb ↔ same_qualifying tie_local key_empty_tags).
Proof.
  split.
  - apply (proj1 (ComputeChecksum_qualifying_fields _ _)).
    repeat split; reflexivity.
  - destruct (proj2 (ComputeChecksum_qualifying_fields tie_local key_empty_tags))
      as (ta & tb & Ha & Hb & _ & _ & Hiff & _).
    + repeat split; try (vm_compute; reflexivity); try (cbn; lia).
      * intros tags Htags. vm_compute in Htags. by simplify_eq.
      * eexists. vm_compute. reflexivity.
    + repeat split; try (vm_compute; reflexivity); try (cbn; lia).
      * intros tags Htags. vm_compute in Htags. simplify_eq. constructor.
      * eexists. vm_compute. reflexivity.
    + eauto.
Defined.

(** When [CreatedAt] does not marshal, the error is dropped and the checksum
    is the digest of no data, whatever the other fields hold. *)
Lemma ComputeChecksum_unmarshalable (k : Key.t) :
  time.MarshalJSON (Key.CreatedAt k) = None →
  ComputeChecksum k
  = "e3b0c44298fc1c149afbf4c8996fb92427ae41e4649b934ca495991b7852b855"%string.
Proof.
  intros H. unfold ComputeChecksum, checksum_json. rewrite H. cbn [mbind option_bind default].
  vm_compute. reflexivity.
Qed.

Example sha256_abc :
  hex_EncodeToString (sha256.Sum256 (bytes_of "abc"))
  = "ba7816bf8f01cfea414140de5dae2223b00361a396177a9cb410ff61f20015ad"%string.
Proof. vm_compute. reflexivity. Qed.

Example sha256_two_blocks :
  hex_EncodeToString (sha256.Sum256 (replicate 56 97))
  = "b35439a4ac6f0948b6d6f9e3c6af0f5f590ce20f1bde7090ef7970686ec6738a"%string.
Proof. vm_compute. reflexivity. Qed.

Example year_10000_unmarshalable : time.MarshalJSON year_10000 = None.
Proof. vm_compute. reflexivity. Qed.

Example checksum_work :
  ComputeChecksum (Key.named "work")
  = "007305d8fe7ba19e4a30ddbb38bfcf935dd4fff1b3d980089351bdc8e9f578ed"%string.
Proof. vm_compute. reflexivity. Qed.

(* ===================================================================== *)
(** * The record a slice holds under a name *)
(* ===================================================================== *)

(** The record of [keys] under [name], read off the slice: the last record
    that bears the name, if there is one. *)
Definition record_named (keys : list Key.t) (name : string) : option Key.t :=
  last (filter (λ k, Key.Name k = name) keys).

(** The same, with the zero [Key] when no record bears the name. *)
Definition record_of (keys : list Key.t) (name : string) : Key.t :=
  default Key.zero (record_named keys name).

Lemma record_named_snoc (keys : list Key.t) (k : Key.t) (name : string) :
  record_named (keys ++ [k]) name
  = if decide (Key.Name k = name) then Some k else record_named keys name.
Proof.
  unfold record_named. rewrite filter_app, filter_cons, filter_nil.
  destruct (decide (Key.Name k = name)).
  - apply last_snoc.
  - by rewrite app_nil_r.
Qed.

Lemma record_named_cons (keys : list Key.t) (k : Key.t) (name : string) :
  record_named (k :: keys) name
  = match record_named keys name with
    | Some k' => Some k'
    | None => if decide (Key.Name k = name) then Some k else None
    end.
Proof.
  unfold record_named. rewrite filter_cons.
  destruct (decide (Key.Name k = name)).
  - by rewrite last_cons.
  - by destruct (last _).
Qed.

Lemma record_named_None (keys : list Key.t) (name : string) :
  record_named keys name = None ↔ ∀ k, k ∈ keys → Key.Name k ≠ name.
Proof.
  induction keys as [| k keys IH]; [by split; [intros _ k Hk; apply elem_of_nil in Hk |] |].
  rewrite record_named_cons. split.
  - intros H k' Hk'. destruct (record_named keys name); [done |].
    destruct (decide (Key.Name k = name)); [done |].
    apply elem_of_cons in Hk' as [-> | Hk']; [done |]. by apply IH.
  - intros H. rewrite (proj2 IH) by (intros k' Hk'; apply H; by right).
    rewrite decide_False; [done |]. apply H. by left.
Qed.

(** The record under a name is the one after which the slice holds no
    record of that name. *)
Lemma record_named_Some (keys : list Key.t) (name : string) (k : Key.t) :
  record_named keys name = Some k
  ↔ Key.Name k = name
    ∧ ∃ before after, keys = before ++ k :: after
                      ∧ ∀ k', k' ∈ after → Key.Name k' ≠ name.
Proof.
  revert k. induction keys as [| k0 keys IH]; intros k.
  - split; [done |]. intros (_ & before & after & H & _). by destruct before.
  - rewrite record_named_cons. split.
    + destruct (record_named keys name) as [k' |] eqn:Hrec.
      * intros [= ->].
        destruct (proj1 (IH k) eq_refl) as (Hn & before & after & -> & Hafter).
        split; [done |]. by exists (k0 :: before), after.
      * destruct (decide (Key.Name k0 = name)) as [Hn |]; [| done].
        intros [= ->]. split; [done |]. exists [], keys. split; [done |].
        by apply record_named_None.
    + intros (Hn & before & after & Heq & Hafter). destruct before as [| b before].
      * injection Heq as -> ->.
        rewrite (proj2 (record_named_None after name)) by done.
        by rewrite decide_True.
      * injection Heq as -> ->.
        by rewrite (proj2 (IH k) (conj Hn
                     (ex_intro _ before (ex_intro _ after (conj eq_refl Hafter))))).
Qed.

Lemma record_named_is_Some (keys : list Key.t) (name : string) :
  is_Some (record_named keys name) ↔ ∃ k, k ∈ keys ∧ Key.Name k = name.
Proof.
  rewrite <- not_eq_None_Some, record_named_None. split.
  - intros Hnot. destruct (decide (Exists (λ k, Key.Name k = name) keys)) as [He | He].
    + apply Exists_exists in He. exact He.
    + exfalso. apply Hnot. intros k Hk Hn. apply He, Exists_exists. eauto.
  - intros (k & Hk & Hn) Hall. by apply (Hall k).
Qed.

Lemma record_named_elem_of (keys : list Key.t) (name : string) (k : Key.t) :
  record_named keys name = Some k → k ∈ keys ∧ Key.Name k = name.
Proof.
  intros (Hn & before & after & -> & _)%record_named_Some. split; [| done].
  set_solver.
Qed.

(** In a slice that repeats no name, the record under a name is the one
    record that bears it. *)
Lemma record_named_NoDup (keys : list Key.t) (name : string) (k : Key.t) :
  NoDup (Key.Name <$> keys) →
  record_named keys name = Some k ↔ k ∈ keys ∧ Key.Name k = name.
Proof.
  intros Hnd. split; [apply record_named_elem_of |]. intros [Hk Hn].
  apply record_named_Some. split; [done |].
  apply list_elem_of_split in Hk as (before & after & ->).
  exists before, after. split; [done |]. intros k' Hk' Hn'.
  rewrite fmap_app, fmap_cons in Hnd. apply NoDup_app in Hnd as (_ & _ & Hnd).
  apply NoDup_cons in Hnd as [Hnotin _]. apply Hnotin.
  rewrite Hn, <- Hn'. by apply list_elem_of_fmap_2.
Qed.

(** The map the code builds from a slice holds, under each name, the
    record the slice holds under it. *)
Lemma keyMap_lookup (keys : list Key.t) (name : string) :
  keyMap keys !! name = record_named keys name.
Proof.
  induction keys as [| k keys IH] using rev_ind; [done |].
  rewrite record_named_snoc. unfold keyMap in *. rewrite fold_left_app.
  cbn [fold_left]. destruct (decide (Key.Name k = name)) as [<- | Hne].
  - apply lookup_insert_eq.
  - by rewrite lookup_insert_ne.
Qed.

Lemma index_keyMap (keys : list Key.t) (name : string) :
  index (keyMap keys) name = record_of keys name.
Proof. unfold index, record_of. by rewrite keyMap_lookup. Qed.

(* ===================================================================== *)
(** * Loops that append what they select *)
(* ===================================================================== *)

Section Select.

Context {V B : Type}.

(** The names of the entries of [L] that satisfy [P], in the order of [L]. *)
Definition selected (P : string * V → bool) (L : list (string * V))
    : list string :=
  (filter (λ e, P e = true) L).*1.

Lemma fold_left_selected (g : list B → string * V → list B)
    (P : string * V → bool) (h : string → B) (L : list (string * V)) :
  (∀ acc e, e ∈ L → g acc e = if P e then acc ++ [h e.1] else acc) →
  ∀ acc, fold_left g L acc = acc ++ (h <$> selected P L).
Proof.
  unfold selected. induction L as [| e L IH]; intros Hg acc; cbn [fold_left].
  - by rewrite app_nil_r.
  - rewrite IH by (intros acc' e' He'; apply Hg; by right).
    rewrite Hg by (by left). rewrite filter_cons. destruct (P e) eqn:HP.
    + rewrite decide_True by done. cbn. by rewrite <- app_assoc.
    + rewrite decide_False by congruence. done.
Qed.

Lemma selected_NoDup (P : string * V → bool) (L : list (string * V)) :
  NoDup L.*1 → NoDup (selected P L).
Proof.
  intros Hnd. unfold selected. eapply sublist_NoDup; [exact Hnd |].
  apply fmap_sublist. apply sublist_filter.
Qed.

Lemma selected_range (r : MapRange) (m : gmap string V)
    (P : string * V → bool) :
  NoDup (selected P (range r m))
  ∧ ∀ n, n ∈ selected P (range r m) ↔ ∃ v, m !! n = Some v ∧ P (n, v) = true.
Proof.
  split.
  - apply selected_NoDup. rewrite (range_perm r). apply NoDup_fst_map_to_list.
  - intros n. unfold selected. rewrite list_elem_of_fmap. split.
    + intros ([n' v] & -> & Hin). apply list_elem_of_filter in Hin as [HP Hin].
      rewrite (range_perm r) in Hin. apply elem_of_map_to_list in Hin. eauto.
    + intros (v & Hm & HP). exists (n, v). split; [done |].
      apply list_elem_of_filter. split; [done |].
      rewrite (range_perm r). by apply elem_of_map_to_list.
Qed.

Lemma selected_empty (r : MapRange) (P : string * V → bool) :
  selected P (range r (∅ : gmap string V)) = [].
Proof.
  assert (H : range r (∅ : gmap string V) = []).
  { apply Permutation_nil_r. rewrite (range_perm r). by rewrite map_to_list_empty. }
  by rewrite H.
Qed.

End Select.

(* ===================================================================== *)
(** * Change detection *)
(* ===================================================================== *)

Section Detect.

Variable sm : SyncManager.t.
Variable now : time.Time.
Variable localKeys : list Key.t.

Let loc := SyncState.KeyChecksums (SyncManager.localState sm).
Let rem := SyncState.KeyChecksums (SyncManager.remoteState sm).

(** The event the specification asks for a name of the local mapping:
    [Create] when the remote mapping lacks the name, [Update] otherwise, with
    the local record and the local checksum. *)
Definition expected_change (name : string) : KeyChange.t :=
  KeyChange.mk
    (match rem !! name with None => ChangeTypeCreate | Some _ => ChangeTypeUpdate end)
    (index (keyMap localKeys) name) now (SyncManager.deviceID sm)
    (default EmptyString (loc !! name)).

(** The event the specification asks for a name only the remote mapping
    has: [Delete], the name its only payload. *)
Definition expected_delete (name : string) : KeyChange.t :=
  KeyChange.mk ChangeTypeDelete (Key.named name) now (SyncManager.deviceID sm)
    EmptyString.

(** The local entries that differ from the remote mapping. *)
Definition differs (e : string * string) : bool :=
  bool_decide (rem !! e.1 ≠ Some e.2).

(** The remote entries the local mapping lacks. *)
Definition gone (e : string * string) : bool :=
  bool_decide (loc !! e.1 = None).

Lemma detect_local_selects (r1 : MapRange) (acc : list KeyChange.t) :
  fold_left (detect_local sm now (keyMap localKeys)) (range r1 loc) acc
  = acc ++ (expected_change <$> selected differs (range r1 loc)).
Proof.
  apply fold_left_selected. intros acc' [n c] Hin.
  rewrite (range_perm r1) in Hin. apply elem_of_map_to_list in Hin.
  unfold detect_local, differs, expected_change. fold loc rem. cbn [fst snd].
  rewrite Hin. cbn [default]. destruct (rem !! n) as [c' |] eqn:Hr.
  - destruct (decide (c = c')) as [-> | Hne].
    + rewrite bool_decide_eq_false_2 by (by intros H).
      by rewrite bool_decide_eq_false_2 by (by intros H).
    + rewrite bool_decide_eq_true_2 by done.
      by rewrite bool_decide_eq_true_2 by congruence.
  - by rewrite bool_decide_eq_true_2.
Qed.

Lemma detect_deleted_selects (r2 : MapRange) (acc : list KeyChange.t) :
  fold_left (detect_deleted sm now) (range r2 rem) acc
  = acc ++ (expected_delete <$> selected gone (range r2 rem)).
Proof.
  apply fold_left_selected. intros acc' [n c] _. unfold detect_deleted, gone.
  fold loc. cbn [fst snd]. destruct (loc !! n) eqn:Hl.
  - by rewrite bool_decide_eq_false_2.
  - by rewrite bool_decide_eq_true_2.
Qed.

End Detect.

(** C2: whatever the order in which the two loops visit the mappings, the
    list [DetectChanges] returns is made of one event per name of a list
    [changed] followed by one event per name of a list [deleted]; neither
    list repeats a name; [changed] holds exactly the names of the local
    mapping whose checksum the remote mapping does not match, and their
    events are [Create] (name absent from the remote mapping) or [Update]
    (checksums differ), carrying the local checksum and the record that
    [localKeys] holds under the name: the record of that name when there is
    one, the last one when there are several, and the zero [Key] when
    [localKeys] has none; [deleted] holds exactly the names only the remote
    mapping has, and their events are [Delete] with the name as only
    payload.  Deletes thus follow every create and update, names with equal
    checksums yield nothing, and two empty mappings yield the empty list. *)
Theorem DetectChanges_spec (r1 r2 : MapRange) (sm : SyncManager.t)
    (now : time.Time) (localKeys : list Key.t) :
  let loc := SyncState.KeyChecksums (SyncManager.localState sm) in
  let rem := SyncState.KeyChecksums (SyncManager.remoteState sm) in
  let change := λ n : string,
    KeyChange.mk
      (match rem !! n with None => ChangeTypeCreate | Some _ => ChangeTypeUpdate end)
      (record_of localKeys n) now (SyncManager.deviceID sm)
      (default EmptyString (loc !! n)) in
  let delete := λ n : string,
    KeyChange.mk ChangeTypeDelete (Key.named n) now (SyncManager.deviceID sm)
      EmptyString in
  (∃ changed deleted : list string,
     DetectChanges r1 r2 sm now localKeys
     = (change <$> changed) ++ (delete <$> deleted)
     ∧ NoDup changed ∧ NoDup deleted
     ∧ (∀ n, n ∈ changed ↔ ∃ c, loc !! n = Some c ∧ rem !! n ≠ Some c)
     ∧ (∀ n, n ∈ deleted ↔ is_Some (rem !! n) ∧ loc !! n = None))
  ∧ (∀ n c, loc !! n = Some c →
       KeyChange.Checksum (change n) = c
       ∧ (rem !! n = None → KeyChange.Type_ (change n) = ChangeTypeCreate)
       ∧ (is_Some (rem !! n) → KeyChange.Type_ (change n) = ChangeTypeUpdate))
  ∧ (∀ k, k ∈ localKeys →
       (∀ k', k' ∈ localKeys → Key.Name k' = Key.Name k → k' = k) →
       KeyChange.Key (change (Key.Name k)) = k)
  ∧ (∀ before k after, localKeys = before ++ k :: after →
       (∀ k', k' ∈ after → Key.Name k' ≠ Key.Name k) →
       KeyChange.Key (change (Key.Name k)) = k)
  ∧ (∀ n, (∀ k, k ∈ localKeys → Key.Name k ≠ n) →
       KeyChange.Key (change n) = Key.zero)
  ∧ (loc = ∅ → rem = ∅ → DetectChanges r1 r2 sm now localKeys = []).
Proof.
  intros loc rem change delete.
  assert (Hlast : ∀ before k after, localKeys = before ++ k :: after →
            (∀ k', k' ∈ after → Key.Name k' ≠ Key.Name k) →
            record_of localKeys (Key.Name k) = k).
  { intros before k after Heq Hafter. unfold record_of.
    rewrite (proj2 (record_named_Some localKeys (Key.Name k) k)); [done |].
    split; [done |]. by exists before, after. }
  assert (Heq : DetectChanges r1 r2 sm now localKeys
    = (change <$> selected (differs sm) (range r1 loc))
      ++ (delete <$> selected (gone sm) (range r2 rem))).
  { unfold DetectChanges. cbv zeta. fold loc rem.
    rewrite detect_local_selects, detect_deleted_selects, app_nil_l. f_equal.
    apply list_fmap_ext. intros _ n _. unfold expected_change, change.
    by rewrite index_keyMap. }
  split; [| split; [| split; [| split; [| split]]]].
  - exists (selected (differs sm) (range r1 loc)),
           (selected (gone sm) (range r2 rem)).
    destruct (selected_range r1 loc (differs sm)) as [Hnd1 Hin1].
    destruct (selected_range r2 rem (gone sm)) as [Hnd2 Hin2].
    split; [exact Heq |]. split; [exact Hnd1 |]. split; [exact Hnd2 |]. split.
    + intros n. rewrite Hin1. unfold differs. cbn [fst snd]. fold rem.
      by setoid_rewrite bool_decide_eq_true.
    + intros n. rewrite Hin2. unfold gone. cbn [fst snd]. fold loc.
      split.
      * intros (v & Hv & Hg). apply bool_decide_eq_true in Hg. eauto.
      * intros ([v Hv] & Hg). exists v. split; [done |].
        by apply bool_decide_eq_true.
  - intros n c Hn. unfold change. cbn [KeyChange.Checksum KeyChange.Type_].
    rewrite Hn. split; [done |]. split.
    + by intros ->.
    + by intros [c' ->].
  - intros k Hk Hone. unfold change, record_of. cbn [KeyChange.Key].
    destruct (record_named localKeys (Key.Name k)) as [k' |] eqn:Hrec.
    + apply record_named_elem_of in Hrec as [Hk' Hn]. cbn. by apply Hone.
    + exfalso. by apply (proj1 (record_named_None localKeys (Key.Name k)) Hrec k).
  - intros before k after Heq' Hafter. unfold change. cbn [KeyChange.Key].
    by apply (Hlast before k after).
  - intros n Hnone. unfold change, record_of. cbn [KeyChange.Key].
    by rewrite (proj2 (record_named_None localKeys n)).
  - intros Hl Hr. rewrite Heq, Hl, Hr. by rewrite !selected_empty.
Qed.

(* ===================================================================== *)
(** * Record sets as maps *)
(* ===================================================================== *)

Definition named_pair (k : Key.t) : string * Key.t := (Key.Name k, k).

Lemma fold_insert_foldr (keys : list Key.t) (m : gmap string Key.t) :
  fold_left (λ m key, <[Key.Name key := key]> m) keys m
  = foldr (λ p, <[p.1 := p.2]>) m (reverse (named_pair <$> keys)).
Proof.
  revert m. induction keys as [| k keys IH]; intros m; [done |].
  cbn [fold_left fmap list_fmap]. rewrite IH, reverse_cons, foldr_app. done.
Qed.

Lemma keyMap_list_to_map (keys : list Key.t) :
  keyMap keys = list_to_map (reverse (named_pair <$> keys)).
Proof. unfold keyMap. by rewrite fold_insert_foldr. Qed.

(** The names of the map are the names of the records. *)
Lemma keyMap_names (keys : list Key.t) (n : string) :
  is_Some (keyMap keys !! n) ↔ ∃ k, k ∈ keys ∧ Key.Name k = n.
Proof.
  rewrite keyMap_list_to_map, <- not_eq_None_Some, <- not_elem_of_list_to_map.
  rewrite fmap_reverse, elem_of_reverse, <- list_fmap_compose. split.
  - intros Hin. destruct (decide (n ∈ fst ∘ named_pair <$> keys)) as [Hd | Hd];
      [| done].
    apply list_elem_of_fmap in Hd as (k & -> & Hk). by exists k.
  - intros (k & Hk & <-) Hnot. apply Hnot.
    apply list_elem_of_fmap. by exists k.
Qed.

(** In a record set that repeats no name, the record under a name is the
    one record of that name. *)
Lemma keyMap_lookup_NoDup (keys : list Key.t) (n : string) (k : Key.t) :
  NoDup (Key.Name <$> keys) →
  keyMap keys !! n = Some k ↔ k ∈ keys ∧ Key.Name k = n.
Proof.
  intros Hnd. rewrite keyMap_list_to_map, <- elem_of_list_to_map.
  - rewrite elem_of_reverse, list_elem_of_fmap. unfold named_pair. split.
    + intros (k' & [= -> ->] & Hk'). done.
    + intros [Hk <-]. by exists k.
  - by rewrite fmap_reverse, reverse_Permutation, <- list_fmap_compose.
Qed.

(* ===================================================================== *)
(** * Conflict detection *)
(* ===================================================================== *)

(** The conflict the specification asks for a name both record sets hold:
    both records, the configured strategy, nothing resolved yet. *)
Definition expected_conflict (sm : SyncManager.t)
    (localKeys remoteKeys : list Key.t) (name : string) : ConflictResolution.t :=
  ConflictResolution.mk name (index (keyMap localKeys) name)
    (index (keyMap remoteKeys) name) (SyncManager.strategy sm) Key.zero.

(** The local records whose remote counterpart has another checksum. *)
Definition conflicting (remoteMap : gmap string Key.t) (e : string * Key.t)
    : bool :=
  match remoteMap !! e.1 with
  | Some remoteKey => bool_decide (ComputeChecksum e.2 ≠ ComputeChecksum remoteKey)
  | None => false
  end.

Lemma detect_conflict_selects (r : MapRange) (sm : SyncManager.t)
    (localKeys remoteKeys : list Key.t) :
  DetectConflicts r sm localKeys remoteKeys
  = expected_conflict sm localKeys remoteKeys
      <$> selected (conflicting (keyMap remoteKeys)) (range r (keyMap localKeys)).
Proof.
  unfold DetectConflicts. cbv zeta.
  rewrite (fold_left_selected _ (conflicting (keyMap remoteKeys))
             (expected_conflict sm localKeys remoteKeys)); [done |].
  intros acc [n k] Hin. rewrite (range_perm r) in Hin.
  apply elem_of_map_to_list in Hin.
  unfold detect_conflict, conflicting, expected_conflict, index. cbn [fst snd].
  rewrite Hin. cbn [default]. destruct (keyMap remoteKeys !! n) as [k' |]; [| done].
  done.
Qed.

(** C8: whatever the order in which the loop visits the local records,
    [DetectConflicts] returns one [ConflictResolution] per name of a list
    that repeats no name and holds exactly the names that a record of
    [localKeys] and a record of [remoteKeys] bear and for which
    [ComputeChecksum] of the two records differs; each carries the name, the
    record of either slice under the name (the last one, should a slice
    repeat the name) and the manager's strategy, with nothing resolved.  For
    slices that repeat no name: a record of [localKeys] and a record of
    [remoteKeys] of one name are reported as a conflict exactly when their
    checksums differ.  A name that one side lacks yields nothing, and the
    cached checksum mappings are not consulted: of the manager only the
    strategy matters. *)
Theorem DetectConflicts_spec (r : MapRange) (sm : SyncManager.t)
    (localKeys remoteKeys : list Key.t) :
  let conflict := λ n : string,
    ConflictResolution.mk n (record_of localKeys n) (record_of remoteKeys n)
      (SyncManager.strategy sm) Key.zero in
  (∃ names : list string,
     DetectConflicts r sm localKeys remoteKeys = conflict <$> names
     ∧ NoDup names
     ∧ (∀ n, n ∈ names ↔
          (∃ l, l ∈ localKeys ∧ Key.Name l = n)
          ∧ (∃ k, k ∈ remoteKeys ∧ Key.Name k = n)
          ∧ ComputeChecksum (record_of localKeys n)
            ≠ ComputeChecksum (record_of remoteKeys n)))
  ∧ (∀ keys before k after, keys = before ++ k :: after →
       (∀ k', k' ∈ after → Key.Name k' ≠ Key.Name k) →
       record_of keys (Key.Name k) = k)
  ∧ (∀ l k, NoDup (Key.Name <$> localKeys) → NoDup (Key.Name <$> remoteKeys) →
       l ∈ localKeys → k ∈ remoteKeys → Key.Name l = Key.Name k →
       (ConflictResolution.mk (Key.Name l) l k (SyncManager.strategy sm) Key.zero
          ∈ DetectConflicts r sm localKeys remoteKeys
        ↔ ComputeChecksum l ≠ ComputeChecksum k))
  ∧ (∀ c n, c ∈ DetectConflicts r sm localKeys remoteKeys →
       (∀ l, l ∈ localKeys → Key.Name l ≠ n)
       ∨ (∀ k, k ∈ remoteKeys → Key.Name k ≠ n) →
       ConflictResolution.KeyName c ≠ n)
  ∧ (∀ sm' : SyncManager.t,
       SyncManager.strategy sm' = SyncManager.strategy sm →
       DetectConflicts r sm' localKeys remoteKeys
       = DetectConflicts r sm localKeys remoteKeys).
Proof.
  intros conflict.
  destruct (selected_range r (keyMap localKeys) (conflicting (keyMap remoteKeys)))
    as [Hnd Hin].
  assert (Hmem : ∀ n,
    n ∈ selected (conflicting (keyMap remoteKeys)) (range r (keyMap localKeys)) ↔
    ∃ l k, record_named localKeys n = Some l ∧ record_named remoteKeys n = Some k
           ∧ ComputeChecksum l ≠ ComputeChecksum k).
  { intros n. rewrite Hin. unfold conflicting. cbn [fst snd].
    rewrite !keyMap_lookup. split.
    - intros (l & Hl & Hc). destruct (record_named remoteKeys n) as [k |]; [| done].
      apply bool_decide_eq_true in Hc. eauto.
    - intros (l & k & Hl & Hk & Hc). exists l. split; [done |]. rewrite Hk.
      by apply bool_decide_eq_true. }
  assert (Heq : DetectConflicts r sm localKeys remoteKeys
    = conflict <$> selected (conflicting (keyMap remoteKeys))
                     (range r (keyMap localKeys))).
  { rewrite detect_conflict_selects. apply list_fmap_ext. intros _ n _.
    unfold expected_conflict, conflict. by rewrite !index_keyMap. }
  assert (Helem : ∀ c, c ∈ DetectConflicts r sm localKeys remoteKeys ↔
    ∃ n l k, record_named localKeys n = Some l ∧ record_named remoteKeys n = Some k
             ∧ ComputeChecksum l ≠ ComputeChecksum k
             ∧ c = ConflictResolution.mk n l k (SyncManager.strategy sm) Key.zero).
  { intros c. rewrite Heq, list_elem_of_fmap. split.
    - intros (n & -> & Hn). apply Hmem in Hn as (l & k & Hl & Hk & Hne).
      exists n, l, k. unfold conflict, record_of. by rewrite Hl, Hk.
    - intros (n & l & k & Hl & Hk & Hne & ->). exists n. split.
      + unfold conflict, record_of. by rewrite Hl, Hk.
      + apply Hmem. eauto. }
  split; [| split; [| split; [| split]]].
  - eexists. split; [exact Heq |]. split; [exact Hnd |]. intros n.
    rewrite Hmem, <- !record_named_is_Some. unfold record_of. split.
    + intros (l & k & Hl & Hk & Hne). rewrite Hl, Hk. eauto.
    + intros ([l Hl] & [k Hk] & Hne). rewrite Hl, Hk in Hne. eauto.
  - intros keys before k after Hkeys Hafter. unfold record_of.
    rewrite (proj2 (record_named_Some keys (Key.Name k) k)); [done |].
    split; [done |]. by exists before, after.
  - intros l k Hndl Hndr Hl Hk Hname. rewrite Helem. split.
    + intros (n & l' & k' & Hl' & Hk' & Hne & Hc). by simplify_eq.
    + intros Hne. exists (Key.Name l), l, k.
      split; [by apply record_named_NoDup |].
      split; [by apply record_named_NoDup |]. done.
  - intros c n Hc Hmiss Hname. apply Helem in Hc as (n' & l & k & Hl & Hk & _ & ->).
    cbn in Hname. subst n'.
    apply record_named_elem_of in Hl as [Hl Hln], Hk as [Hk Hkn].
    destruct Hmiss as [Hmiss | Hmiss]; [by apply (Hmiss l) | by apply (Hmiss k)].
  - intros sm' Hs. rewrite !detect_conflict_selects.
    unfold expected_conflict. by rewrite Hs.
Qed.

(** A conflict as [DetectConflicts] builds it has nothing resolved yet. *)
Lemma DetectConflicts_unresolved (r : MapRange) (sm : SyncManager.t)
    (localKeys remoteKeys : list Key.t) (c : ConflictResolution.t) :
  c ∈ DetectConflicts r sm localKeys remoteKeys →
  ConflictResolution.ResolvedKey c = Key.zero
  ∧ ConflictResolution.Strategy c = SyncManager.strategy sm.
Proof.
  rewrite detect_conflict_selects. intros Hc.
  by apply list_elem_of_fmap in Hc as (n & -> & _).
Qed.

(** C10: a strategy outside the four enumerated values makes
    [ResolveConflict] do nothing: the conflict is left as it was and its
    [ResolvedKey] is returned, without any error.  For a conflict whose
    [ResolvedKey] is still the zero value, as [DetectConflicts] builds them
    all, the value returned is the zero [Key], which is neither the local
    nor the remote record unless that record is itself the zero [Key]. *)
Theorem ResolveConflict_unknown_strategy (sm : SyncManager.t)
    (c : ConflictResolution.t) :
  ConflictResolution.Strategy c ≠ StrategyLocalWins →
  ConflictResolution.Strategy c ≠ StrategyRemoteWins →
  ConflictResolution.Strategy c ≠ StrategyNewerWins →
  ConflictResolution.Strategy c ≠ StrategyManual →
  ResolveConflict sm c = (c, ConflictResolution.ResolvedKey c)
  ∧ (ConflictResolution.ResolvedKey c = Key.zero →
     (ResolveConflict sm c).2 = Key.zero
     ∧ ConflictResolution.ResolvedKey (ResolveConflict sm c).1 = Key.zero
     ∧ (ConflictResolution.LocalKey c ≠ Key.zero →
        (ResolveConflict sm c).2 ≠ ConflictResolution.LocalKey c)
     ∧ (ConflictResolution.RemoteKey c ≠ Key.zero →
        (ResolveConflict sm c).2 ≠ ConflictResolution.RemoteKey c))
  ∧ (∀ (r : MapRange) (sm' : SyncManager.t) (localKeys remoteKeys : list Key.t),
       c ∈ DetectConflicts r sm' localKeys remoteKeys →
       ResolveConflict sm c = (c, Key.zero)).
Proof.
  intros H1 H2 H3 H4.
  assert (Heq : ResolveConflict sm c = (c, ConflictResolution.ResolvedKey c)).
  { unfold ResolveConflict.
    apply String.eqb_neq in H1, H2, H3, H4. by rewrite H1, H2, H3, H4. }
  split; [exact Heq |]. rewrite Heq. cbn [fst snd]. split.
  - intros Hz. rewrite Hz. repeat split; congruence.
  - intros r sm' localKeys remoteKeys Hc.
    by destruct (DetectConflicts_unresolved r sm' localKeys remoteKeys c Hc) as [-> _].
Qed.

(** A manager configured with a strategy that does not exist, and two
    record sets that disagree on the key [work]. *)
Definition merge_manager : SyncManager.t := NewSyncManager "laptop" "merge".

Lemma ResolveConflict_unknown_strategy_witness :
  let c := ConflictResolution.mk "work" tie_local tie_remote "merge" Key.zero in
  DetectConflicts range_listed merge_manager [tie_local] [tie_remote] = [c]
  ∧ ResolveConflict merge_manager c = (c, Key.zero).
Proof.
  cbv zeta. split; [vm_compute; reflexivity |].
  refine (proj1 (ResolveConflict_unknown_strategy merge_manager
    (ConflictResolution.mk "work" tie_local tie_remote "merge" Key.zero)
    _ _ _ _)); discriminate.
Defined.

(* ===================================================================== *)
(** * Applying changes *)
(* ===================================================================== *)

(** Every record of the map sits under its own name. *)
Definition keyed (m : gmap string Key.t) : Prop :=
  ∀ n k, m !! n = Some k → Key.Name k = n.

Lemma keyed_insert (m : gmap string Key.t) (k : Key.t) :
  keyed m → keyed (<[Key.Name k := k]> m).
Proof.
  intros Hm n k' Hlk. destruct (decide (Key.Name k = n)) as [<- | Hne].
  - rewrite lookup_insert_eq in Hlk. congruence.
  - rewrite lookup_insert_ne in Hlk by done. eauto.
Qed.

Lemma keyed_fold_insert (keys : list Key.t) (m : gmap string Key.t) :
  keyed m → keyed (fold_left (λ m key, <[Key.Name key := key]> m) keys m).
Proof.
  revert m. induction keys as [| k keys IH]; intros m Hm; [done |].
  cbn [fold_left]. by apply IH, keyed_insert.
Qed.

Lemma keyed_keyMap (keys : list Key.t) : keyed (keyMap keys).
Proof. apply keyed_fold_insert. intros n k Hlk. by rewrite lookup_empty in Hlk. Qed.

Lemma keyed_apply_change (m : gmap string Key.t) (c : KeyChange.t) :
  keyed m → keyed (apply_change m c).
Proof.
  intros Hm. unfold apply_change.
  destruct (_ || _); [by apply keyed_insert |].
  destruct (String.eqb _ _); [| done].
  intros n k Hlk. apply lookup_delete_Some in Hlk as [_ Hlk]. eauto.
Qed.

Lemma keyed_applied (localKeys : list Key.t) (changes : list KeyChange.t) :
  keyed (applied localKeys changes).
Proof.
  unfold applied. generalize (keyed_keyMap localKeys).
  generalize (keyMap localKeys). induction changes as [| c cs IH]; intros m Hm.
  - done.
  - cbn [fold_left]. by apply IH, keyed_apply_change.
Qed.

(** Reading a keyed map back from any enumeration of its records. *)
Lemma keyMap_range (r : MapRange) (m : gmap string Key.t) :
  keyed m → keyMap (range r m).*2 = m.
Proof.
  intros Hm. rewrite keyMap_list_to_map.
  assert (Hpairs : named_pair <$> (range r m).*2 = range r m).
  { rewrite <- list_fmap_compose. rewrite <- (list_fmap_id (range r m)) at 2.
    apply Forall_fmap_ext_1.
    apply Forall_forall. intros [n k] Hin. rewrite (range_perm r) in Hin.
    apply elem_of_map_to_list in Hin. unfold named_pair. cbn.
    by rewrite (Hm n k Hin). }
  rewrite Hpairs. rewrite <- (list_to_map_to_list m) at 2.
  apply list_to_map_proper.
  - rewrite fmap_reverse, reverse_Permutation, (range_perm r).
    apply NoDup_fst_map_to_list.
  - rewrite reverse_Permutation. apply (range_perm r).
Qed.

(** What one change does to the name [n]: nothing, or the new content. *)
Definition effect (c : KeyChange.t) (n : string) : option (option Key.t) :=
  let ty := KeyChange.Type_ c in
  if String.eqb ty ChangeTypeCreate || String.eqb ty ChangeTypeUpdate then
    if bool_decide (Key.Name (KeyChange.Key c) = n)
    then Some (Some (KeyChange.Key c)) else None
  else if String.eqb ty ChangeTypeDelete then
    if bool_decide (Key.Name (KeyChange.Key c) = n) then Some None else None
  else None.

(** What a list of changes leaves under [n], from the content [o]. *)
Fixpoint final (cs : list KeyChange.t) (n : string) (o : option Key.t)
    : option Key.t :=
  match cs with
  | [] => o
  | c :: cs' => final cs' n (default o (effect c n))
  end.

Lemma apply_change_lookup (m : gmap string Key.t) (c : KeyChange.t) (n : string) :
  apply_change m c !! n = default (m !! n) (effect c n).
Proof.
  unfold apply_change, effect. cbv zeta. destruct (_ || _).
  - case_bool_decide as Hn.
    + subst n. by rewrite lookup_insert_eq.
    + by rewrite lookup_insert_ne.
  - destruct (String.eqb _ _); [| done]. case_bool_decide as Hn.
    + subst n. by rewrite lookup_delete_eq.
    + by rewrite lookup_delete_ne.
Qed.

Lemma fold_apply_lookup (cs : list KeyChange.t) (m : gmap string Key.t)
    (n : string) :
  fold_left apply_change cs m !! n = final cs n (m !! n).
Proof.
  revert m. induction cs as [| c cs IH]; intros m; [done |].
  cbn [fold_left final]. by rewrite IH, apply_change_lookup.
Qed.

Lemma final_shape (cs : list KeyChange.t) (n : string) :
  (∀ o, final cs n o = o) ∨ (∃ v, ∀ o, final cs n o = v).
Proof.
  induction cs as [| c cs IH]; [by left |]. cbn [final].
  destruct (effect c n) as [v |]; cbn [default].
  - right. by exists (final cs n v).
  - exact IH.
Qed.

Lemma final_idempotent (cs : list KeyChange.t) (n : string) (o : option Key.t) :
  final cs n (final cs n o) = final cs n o.
Proof.
  destruct (final_shape cs n) as [Hid | [v Hv]].
  - by rewrite !Hid.
  - by rewrite !Hv.
Qed.

Lemma fold_apply_idempotent (cs : list KeyChange.t) (m : gmap string Key.t) :
  fold_left apply_change cs (fold_left apply_change cs m)
  = fold_left apply_change cs m.
Proof.
  apply map_eq. intros n. rewrite !fold_apply_lookup. apply final_idempotent.
Qed.

(** C3: applying a change list to the result of applying it gives the same
    records, as a map from names and as a list up to order, whatever the
    orders in which the two calls enumerate their maps; and a [Delete] of a
    name the working set does not hold leaves the working set as it is. *)
Theorem ApplyChanges_idempotent (r1 r2 : MapRange) (S : list Key.t)
    (C : list KeyChange.t) :
  keyMap (ApplyChanges r2 (ApplyChanges r1 S C) C) = keyMap (ApplyChanges r1 S C)
  ∧ ApplyChanges r2 (ApplyChanges r1 S C) C ≡ₚ ApplyChanges r1 S C
  ∧ (∀ (m : gmap string Key.t) (c : KeyChange.t),
       KeyChange.Type_ c = ChangeTypeDelete →
       m !! Key.Name (KeyChange.Key c) = None →
       apply_change m c = m)
  ∧ (∀ c : KeyChange.t,
       KeyChange.Type_ c = ChangeTypeDelete →
       applied S C !! Key.Name (KeyChange.Key c) = None →
       ApplyChanges r1 S (C ++ [c]) = ApplyChanges r1 S C).
Proof.
  assert (Hmap : applied (ApplyChanges r1 S C) C = applied S C).
  { unfold ApplyChanges. unfold applied at 1.
    rewrite keyMap_range by apply keyed_applied.
    unfold applied. apply fold_apply_idempotent. }
  assert (Hdel : ∀ (m : gmap string Key.t) (c : KeyChange.t),
    KeyChange.Type_ c = ChangeTypeDelete →
    m !! Key.Name (KeyChange.Key c) = None → apply_change m c = m).
  { intros m c Hty Hlk. unfold apply_change. rewrite Hty. cbn.
    by apply delete_id. }
  split; [| split; [| split]].
  - unfold ApplyChanges at 1 3. rewrite !keyMap_range by apply keyed_applied.
    exact Hmap.
  - unfold ApplyChanges at 1 3. rewrite Hmap.
    by rewrite (range_perm r2), (range_perm r1).
  - exact Hdel.
  - intros c Hty Hlk. unfold ApplyChanges. f_equal. f_equal.
    unfold applied. rewrite fold_left_app. cbn [fold_left].
    by apply Hdel.
Qed.

(* ===================================================================== *)
(** * The history ledger *)
(* ===================================================================== *)

Lemma len_nonneg {A} (l : list A) : 0 ≤ len l.
Proof. unfold len. lia. Qed.

Lemma len_app {A} (l k : list A) : len (l ++ k) = len l + len k.
Proof. unfold len. rewrite length_app. lia. Qed.

Lemma len_sort (srt : SliceSorter) {A} (less : A → A → bool) (l : list A) :
  len (sort_Slice srt less l) = len l.
Proof. unfold len. by rewrite (sort_Slice_perm srt). Qed.

(** The entries [Save] keeps in memory once the directory exists. *)
Definition kept (srt : SliceSorter) (sh : SyncHistory.t)
    : list SyncHistoryEntry.t :=
  let sorted := sort_Slice srt newer (SyncHistory.entries sh) in
  if SyncHistory.maxEntries sh <? len sorted
  then take (Z.to_nat (SyncHistory.maxEntries sh)) sorted
  else sorted.

Lemma kept_take (srt : SliceSorter) (sh : SyncHistory.t) :
  0 ≤ SyncHistory.maxEntries sh →
  kept srt sh
  = take (Z.to_nat (SyncHistory.maxEntries sh))
      (sort_Slice srt newer (SyncHistory.entries sh)).
Proof.
  intros Hmax. unfold kept. cbv zeta. destruct (Z.ltb_spec
    (SyncHistory.maxEntries sh) (len (sort_Slice srt newer (SyncHistory.entries sh))))
    as [Hlt | Hge]; [done |].
  rewrite take_ge; [done |]. unfold len in Hge. lia.
Qed.

(** The ways a call of [Save] can go. *)
Lemma Save_cases (srt : SliceSorter) (os : OS) (sh : SyncHistory.t) (file : File) :
  let sorted := sort_Slice srt newer (SyncHistory.entries sh) in
  (mkdirAll_ok os = false
   ∧ Save srt os sh file = (sh, file, Returns (Some ErrCreateDir)))
  ∨ (mkdirAll_ok os = true ∧ SyncHistory.maxEntries sh < 0
     ∧ Save srt os sh file = (set_entries sh sorted, file, Panics))
  ∨ (mkdirAll_ok os = true
     ∧ (0 ≤ SyncHistory.maxEntries sh ∨ len sorted ≤ SyncHistory.maxEntries sh)
     ∧ (Save srt os sh file
          = (set_entries sh (kept srt sh), file, Returns (Some ErrMarshal))
        ∨ (writeFile_ok os = false
           ∧ Save srt os sh file
             = (set_entries sh (kept srt sh), failed_write os file (kept srt sh),
                Returns (Some ErrWrite)))
        ∨ (writeFile_ok os = true
           ∧ Save srt os sh file
             = (set_entries sh (kept srt sh), Some (Entries (kept srt sh)),
                Returns None)))).
Proof.
  cbv zeta. unfold Save, kept, slice_to. cbv zeta.
  destruct (mkdirAll_ok os); cbn [negb]; [| by left]. right.
  pose proof (len_nonneg (sort_Slice srt newer (SyncHistory.entries sh))) as Hlen.
  destruct (Z.ltb_spec (SyncHistory.maxEntries sh)
              (len (sort_Slice srt newer (SyncHistory.entries sh)))) as [Hlt | Hge];
    cbn [andb].
  - destruct (Z.ltb_spec (SyncHistory.maxEntries sh) 0) as [Hneg | Hpos].
    + by left.
    + right. split; [done |]. split; [by left |].
      destruct (forallb _ _); cbn [negb]; [| by left].
      destruct (writeFile_ok os); cbn [negb]; [by right; right | by right; left].
  - right. split; [done |]. split; [by right |].
    destruct (forallb _ _); cbn [negb]; [| by left].
    destruct (writeFile_ok os); cbn [negb]; [by right; right | by right; left].
Qed.

(** [GetRecent] for a bound that is not negative: the first [n] entries of
    the sorted ledger, all of them when [n] exceeds their number, none when
    [n] is zero. *)
Lemma GetRecent_nonnegative (srt : SliceSorter) (sh : SyncHistory.t) (n : Z) :
  0 ≤ n →
  let sorted := sort_Slice srt newer (SyncHistory.entries sh) in
  GetRecent srt sh n = (set_entries sh sorted, Returns (take (Z.to_nat n) sorted))
  ∧ sorted ≡ₚ SyncHistory.entries sh
  ∧ ordered_by newer sorted
  ∧ (n = 0 → take (Z.to_nat n) sorted = [])
  ∧ (len (SyncHistory.entries sh) ≤ n → take (Z.to_nat n) sorted = sorted).
Proof.
  intros Hn. cbv zeta. split; [| split; [| split; [| split]]].
  - unfold GetRecent, slice_to. cbv zeta.
    pose proof (len_nonneg (SyncHistory.entries sh)) as Hlen.
    destruct (Z.ltb_spec (len (SyncHistory.entries sh)) n) as [Hlt | Hge].
    + destruct (Z.ltb_spec (len (SyncHistory.entries sh)) 0); [lia |].
      f_equal. f_equal. rewrite !take_ge; [done | |];
        rewrite (sort_Slice_perm srt); unfold len in *; lia.
    + destruct (Z.ltb_spec n 0); [lia | done].
  - apply sort_Slice_perm.
  - apply sort_Slice_ordered, newer_StrictWeakOrder.
  - by intros ->.
  - intros Hge. apply take_ge. rewrite (sort_Slice_perm srt). unfold len in Hge. lia.
Qed.

(** A ledger of two entries. *)
Definition entry_at (id : string) (s : Z) : SyncHistoryEntry.t :=
  SyncHistoryEntry.mk id (time.mkTime s 0 0) "laptop" "push" 1 0 true "" [] 0.

Definition ledger_of_two : SyncHistory.t :=
  SyncHistory.mk "/cfg/sync-history.json"
    [entry_at "a" 63000000010; entry_at "b" 63000000020] 100.

(** C5, where the code departs from it: for a negative [n] the call does
    not return the empty list; the ledger is sorted and the slice expression
    [entries[:n]] panics. *)
Theorem GetRecent_negative_panics (srt : SliceSorter) (sh : SyncHistory.t) (n : Z) :
  n < 0 →
  GetRecent srt sh n
  = (set_entries sh (sort_Slice srt newer (SyncHistory.entries sh)), Panics).
Proof.
  intros Hn. unfold GetRecent, slice_to. cbv zeta.
  pose proof (len_nonneg (SyncHistory.entries sh)) as Hlen.
  destruct (Z.ltb_spec (len (SyncHistory.entries sh)) n) as [Hlt | Hge]; [lia |].
  destruct (Z.ltb_spec n 0); [done | lia].
Qed.

Lemma GetRecent_negative_panics_witness :
  (GetRecent sorter_stable ledger_of_two (-1)).2 = Panics.
Proof.
  by rewrite (GetRecent_negative_panics sorter_stable ledger_of_two (-1) ltac:(lia)).
Defined.

(** Strictly newest first: every entry is newer than all that follow. *)
Definition descending (l : list SyncHistoryEntry.t) : Prop :=
  StronglySorted (λ x y, newer x y = true) l.

Lemma newer_asym (x y : SyncHistoryEntry.t) :
  newer x y = true → newer y x = false.
Proof. apply After_asym. Qed.

Lemma descending_ordered (l : list SyncHistoryEntry.t) :
  descending l → ordered_by newer l.
Proof.
  unfold descending, ordered_by. induction 1 as [| x l Hl IH Hx]; constructor.
  - exact IH.
  - eapply Forall_impl; [exact Hx |]. intros y. apply newer_asym.
Qed.

Lemma descending_comparable (l : list SyncHistoryEntry.t) :
  descending l →
  ∀ x y, x ∈ l → y ∈ l → x = y ∨ newer x y = true ∨ newer y x = true.
Proof.
  unfold descending. induction 1 as [| z l Hl IH Hz]; intros x y Hx Hy.
  - by apply elem_of_nil in Hx.
  - rewrite Forall_forall in Hz.
    apply elem_of_cons in Hx as [-> | Hx]; apply elem_of_cons in Hy as [-> | Hy];
      auto.
Qed.

(** Sorting any rearrangement of a strictly descending list gives back
    that list: no two of its entries are equals for the sort. *)
Lemma sort_descending (srt : SliceSorter) (l l' : list SyncHistoryEntry.t) :
  descending l → l' ≡ₚ l → sort_Slice srt newer l' = l.
Proof.
  intros Hdesc Hperm.
  apply (StronglySorted_unique_strong (λ x y, newer y x = false)).
  - intros x y Hx Hy Hyx Hxy. rewrite (sort_Slice_perm srt), Hperm in Hx.
    destruct (descending_comparable l Hdesc x y Hx Hy) as [? | [? | ?]];
      [done | congruence | congruence].
  - apply sort_Slice_ordered, newer_StrictWeakOrder.
  - by apply descending_ordered.
  - by rewrite (sort_Slice_perm srt).
Qed.

(** In an ordered rearrangement of [old ++ [e]] the entry [e] comes first
    when it is newer than all of [old]. *)
Lemma newest_first (l old : list SyncHistoryEntry.t) (e : SyncHistoryEntry.t) :
  ordered_by newer l → l ≡ₚ old ++ [e] →
  (∀ x, x ∈ old → newer e x = true) →
  ∃ rest, l = e :: rest.
Proof.
  intros Hord Hperm Hnew. destruct l as [| x rest].
  - apply Permutation_nil_l in Hperm. by destruct old.
  - exists rest. f_equal. apply StronglySorted_inv in Hord as [_ Hx].
    rewrite Forall_forall in Hx.
    assert (Hxin : x ∈ old ++ [e]) by (rewrite <- Hperm; by left).
    apply elem_of_app in Hxin as [Hxold | Hxe].
    + assert (Hein : e ∈ x :: rest) by (rewrite Hperm; set_solver).
      apply elem_of_cons in Hein as [-> | Hein]; [done |].
      specialize (Hx e Hein). specialize (Hnew x Hxold). cbn in Hx. congruence.
    + by apply list_elem_of_singleton in Hxe.
Qed.

Definition os_ok : OS :=
  {| readFile_ok := true; mkdirAll_ok := true; writeFile_ok := true;
     writeFile_failure := Unopened |}.

(** The directory can be made, the file cannot be opened for writing. *)
Definition os_read_only : OS :=
  {| readFile_ok := true; mkdirAll_ok := true; writeFile_ok := false;
     writeFile_failure := Unopened |}.




(** C7, as the code has it: [Save] sorts the ledger and cuts it to
    [maxEntries] before it marshals and writes.  When [Add] returns an error
    because the directory could not be made, nothing but the append has
    happened.  After any other error the list left in memory is the very
    list that an [Add] without error leaves there, whatever the file and
    the operating system: the ledger with the entry, newest first, cut to
    [maxEntries].  So the entry is still in memory unless the bound of the
    ledger drops it, which it does after an [Add] without error as well; the
    entry is kept when the ledger had room for it, and when the ledger
    keeps at least one entry and the entry is newer than every entry the
    ledger held. *)
Theorem Add_error_keeps_entry (srt : SliceSorter) (os : OS)
    (sh : SyncHistory.t) (file : File) (entry : SyncHistoryEntry.t) (err : error) :
  (Add srt os sh file entry).2 = Returns (Some err) →
  let after := SyncHistory.entries (Add srt os sh file entry).1.1 in
  (err = ErrCreateDir → after = SyncHistory.entries sh ++ [entry])
  ∧ (err ≠ ErrCreateDir →
     (∀ (os' : OS) (file' : File),
        (Add srt os' sh file' entry).2 = Returns None →
        SyncHistory.entries (Add srt os' sh file' entry).1.1 = after)
     ∧ len after
       = Z.min (len (SyncHistory.entries sh) + 1) (SyncHistory.maxEntries sh)
     ∧ ∃ dropped,
         after ++ dropped ≡ₚ SyncHistory.entries sh ++ [entry]
         ∧ ordered_by newer (after ++ dropped))
  ∧ (len (SyncHistory.entries sh) < SyncHistory.maxEntries sh → entry ∈ after)
  ∧ (1 ≤ SyncHistory.maxEntries sh →
     (∀ x, x ∈ SyncHistory.entries sh → newer entry x = true) →
     entry ∈ after).
Proof.
  cbv zeta. unfold Add.
  set (sh1 := set_entries sh (SyncHistory.entries sh ++ [entry])).
  assert (Hroom : len (SyncHistory.entries sh) < SyncHistory.maxEntries sh →
                  entry ∈ kept srt sh1).
  { intros Hlt. unfold kept. cbv zeta. rewrite len_sort. cbn.
    rewrite len_app. change (len [entry]) with 1.
    destruct (Z.ltb_spec (SyncHistory.maxEntries sh)
                (len (SyncHistory.entries sh) + 1)); [lia |].
    rewrite (sort_Slice_perm srt). set_solver. }
  assert (Hnewest : 1 ≤ SyncHistory.maxEntries sh →
            (∀ x, x ∈ SyncHistory.entries sh → newer entry x = true) →
            entry ∈ kept srt sh1).
  { intros Hmax Hnew. rewrite kept_take by (cbn; lia). cbn.
    destruct (newest_first
                (sort_Slice srt newer (SyncHistory.entries sh ++ [entry]))
                (SyncHistory.entries sh) entry) as [rest ->].
    - apply sort_Slice_ordered, newer_StrictWeakOrder.
    - apply sort_Slice_perm.
    - exact Hnew.
    - destruct (Z.to_nat (SyncHistory.maxEntries sh)) as [| k] eqn:Hk; [lia |].
      cbn. by left. }
  assert (Happ : entry ∈ SyncHistory.entries sh ++ [entry]) by set_solver.
  assert (Hsame : ∀ (os' : OS) (file' : File),
            (Save srt os' sh1 file').2 = Returns None →
            SyncHistory.entries (Save srt os' sh1 file').1.1 = kept srt sh1).
  { intros os' file'.
    destruct (Save_cases srt os' sh1 file')
      as [[_ ->] | [(_ & _ & ->) | (_ & _ & [-> | [[_ ->] | [_ ->]]])]];
      cbn [fst snd]; done. }
  assert (Hkept : (0 ≤ SyncHistory.maxEntries sh1
                   ∨ len (sort_Slice srt newer (SyncHistory.entries sh1))
                     ≤ SyncHistory.maxEntries sh1) →
            len (kept srt sh1)
            = Z.min (len (SyncHistory.entries sh) + 1) (SyncHistory.maxEntries sh)
            ∧ ∃ dropped,
                kept srt sh1 ++ dropped ≡ₚ SyncHistory.entries sh ++ [entry]
                ∧ ordered_by newer (kept srt sh1 ++ dropped)).
  { intros Hmax.
    pose proof (len_nonneg (sort_Slice srt newer (SyncHistory.entries sh1))) as Hpos.
    rewrite kept_take by lia. split.
    - unfold len in *. rewrite length_take, (sort_Slice_perm srt). cbn.
      rewrite length_app. cbn. cbn in Hmax. rewrite (sort_Slice_perm srt) in Hmax.
      rewrite length_app in Hmax. cbn in Hmax. lia.
    - exists (drop (Z.to_nat (SyncHistory.maxEntries sh1))
                (sort_Slice srt newer (SyncHistory.entries sh1))).
      rewrite take_drop. split.
      + apply sort_Slice_perm.
      + apply sort_Slice_ordered, newer_StrictWeakOrder. }
  destruct (Save_cases srt os sh1 file)
    as [[Hmk ->] | [(_ & _ & ->) | (Hmk & Hmax & [-> | [[_ ->] | [_ ->]]])]];
    cbn [fst snd]; intros Hres; try discriminate;
    inversion Hres; subst err; cbn [set_entries SyncHistory.entries].
  - split; [done |]. split; [done |]. by split.
  - split; [done |]. split; [| by split]. intros _.
    split; [exact Hsame |]. by apply Hkept.
  - split; [done |]. split; [| by split]. intros _.
    split; [exact Hsame |]. by apply Hkept.
Qed.

(** A full ledger of one entry, and an older entry to add. *)
Definition ledger_full : SyncHistory.t :=
  SyncHistory.mk "/cfg/sync-history.json" [entry_at "b" 63000000020] 1.

Lemma Add_error_keeps_entry_witness :
  entry_at "c" 63000000030
  ∈ SyncHistory.entries
      (Add sorter_stable os_read_only ledger_full None (entry_at "c" 63000000030)).1.1.
Proof.
  refine (proj2 (proj2 (proj2 (Add_error_keeps_entry sorter_stable os_read_only
    ledger_full None (entry_at "c" 63000000030) ErrWrite _))) _ _).
  - vm_compute. reflexivity.
  - vm_compute. discriminate.
  - intros x Hx. cbn in Hx. apply list_elem_of_singleton in Hx. by subst x.
Defined.

(** C7, as the claim states it, fails: the ledger keeps one entry and
    holds one; an older entry is added and the file cannot be opened for
    writing.  [Add] returns the write error, and the entry is not in the
    list left in memory: the bound of the ledger has dropped it before the
    write, as it does when the write succeeds. *)
Lemma Add_error_drops_entry :
  let e := entry_at "a" 63000000010 in
  Add sorter_stable os_read_only ledger_full None e
  = (ledger_full, None, Returns (Some ErrWrite))
  ∧ (e ∉ SyncHistory.entries
           (Add sorter_stable os_read_only ledger_full None e).1.1)
  ∧ Add sorter_stable os_ok ledger_full None e
    = (ledger_full, Some (Entries (SyncHistory.entries ledger_full)),
       Returns None).
Proof.
  cbv zeta.
  assert (H : Add sorter_stable os_read_only ledger_full None
                (entry_at "a" 63000000010)
              = (ledger_full, None, Returns (Some ErrWrite)))
    by (vm_compute; reflexivity).
  split; [exact H |]. split; [| vm_compute; reflexivity].
  rewrite H. cbn. intros Hin.
  apply list_elem_of_singleton in Hin. discriminate.
Qed.

(** The list [Save] leaves in memory once the directory exists and the
    bound is not negative. *)
Lemma Save_memory (srt : SliceSorter) (os : OS) (sh : SyncHistory.t) (file : File) :
  mkdirAll_ok os = true → 0 ≤ SyncHistory.maxEntries sh →
  (Save srt os sh file).1.1 = set_entries sh (kept srt sh)
  ∧ (∃ err, (Save srt os sh file).2 = Returns err)
  ∧ ((Save srt os sh file).2 = Returns None →
     (Save srt os sh file).1.2 = Some (Entries (kept srt sh))).
Proof.
  intros Hmk Hmax.
  destruct (Save_cases srt os sh file)
    as [[Hno _] | [(_ & Hneg & _) | (_ & _ & [-> | [[_ ->] | [_ ->]]])]];
    [congruence | lia | ..]; cbn [fst snd]; (split; [done |]); split; eauto; done.
Qed.

Lemma Add_memory (srt : SliceSorter) (os : OS) (sh : SyncHistory.t) (file : File)
    (entry : SyncHistoryEntry.t) (l : list SyncHistoryEntry.t) :
  mkdirAll_ok os = true → 0 ≤ SyncHistory.maxEntries sh →
  descending l → l ≡ₚ SyncHistory.entries sh ++ [entry] →
  (Add srt os sh file entry).1.1
  = set_entries sh (take (Z.to_nat (SyncHistory.maxEntries sh)) l).
Proof.
  intros Hmk Hmax Hdesc Hperm. unfold Add.
  destruct (Save_memory srt os
              (set_entries sh (SyncHistory.entries sh ++ [entry])) file Hmk Hmax)
    as [-> _].
  rewrite kept_take by done. cbn.
  by rewrite (sort_descending srt l) by done.
Qed.

(** C9: a ledger that keeps two entries, opened on no file, is given three
    entries of strictly increasing timestamps; [GetRecent(10)] then returns
    the last two, the newest first.  In general a [Save] that gets as far as
    the directory, on a ledger whose bound is not negative, returns and
    leaves in memory the first [maxEntries] entries of the ledger sorted
    newest first: the list kept, followed by the entries dropped, is an
    ordered rearrangement of the ledger, so no entry dropped is newer than
    one kept; and a [Save] without error has written the list kept. *)
Theorem history_truncation (srt : SliceSorter) :
  (∀ (os0 os1 os2 os3 : OS) (configDir : string) (e1 e2 e3 : SyncHistoryEntry.t),
     mkdirAll_ok os1 = true → mkdirAll_ok os2 = true → mkdirAll_ok os3 = true →
     newer e2 e1 = true → newer e3 e2 = true →
     let sh0 := NewSyncHistory os0 configDir 2 None in
     let '(sh1, file1, _) := Add srt os1 sh0 None e1 in
     let '(sh2, file2, _) := Add srt os2 sh1 file1 e2 in
     let '(sh3, file3, _) := Add srt os3 sh2 file2 e3 in
     (GetRecent srt sh3 10).2 = Returns [e3; e2])
  ∧ (∀ (os : OS) (sh : SyncHistory.t) (file : File),
       mkdirAll_ok os = true → 0 ≤ SyncHistory.maxEntries sh →
       let sh' := (Save srt os sh file).1.1 in
       (∃ err, (Save srt os sh file).2 = Returns err)
       ∧ ((Save srt os sh file).2 = Returns None →
          (Save srt os sh file).1.2 = Some (Entries (SyncHistory.entries sh')))
       ∧ len (SyncHistory.entries sh')
         = Z.min (len (SyncHistory.entries sh)) (SyncHistory.maxEntries sh)
       ∧ ∃ dropped,
           SyncHistory.entries sh' ++ dropped ≡ₚ SyncHistory.entries sh
           ∧ ordered_by newer (SyncHistory.entries sh' ++ dropped)).
Proof.
  split.
  - intros os0 os1 os2 os3 configDir e1 e2 e3 Hmk1 Hmk2 Hmk3 H21 H32.
    assert (H31 : newer e3 e1 = true) by (eapply After_trans; eassumption).
    cbv zeta.
    change (NewSyncHistory os0 configDir 2 None)
      with (SyncHistory.mk (filepath_Join configDir "sync-history.json") [] 2).
    generalize (filepath_Join configDir "sync-history.json"). intros f.
    assert (Hadd1 : (Add srt os1 (SyncHistory.mk f [] 2) None e1).1.1
                    = SyncHistory.mk f [e1] 2).
    { rewrite (Add_memory srt os1 _ None e1 [e1] Hmk1);
        [done | cbn; lia | repeat constructor | done]. }
    destruct (Add srt os1 (SyncHistory.mk f [] 2) None e1) as [[sh1 file1] res1].
    cbv beta iota. cbn in Hadd1. subst sh1.
    assert (Hadd2 : (Add srt os2 (SyncHistory.mk f [e1] 2) file1 e2).1.1
                    = SyncHistory.mk f [e2; e1] 2).
    { rewrite (Add_memory srt os2 _ file1 e2 [e2; e1] Hmk2);
        [done | cbn; lia | repeat constructor; done | apply Permutation_swap]. }
    destruct (Add srt os2 (SyncHistory.mk f [e1] 2) file1 e2) as [[sh2 file2] res2].
    cbv beta iota. cbn in Hadd2. subst sh2.
    assert (Hadd3 : (Add srt os3 (SyncHistory.mk f [e2; e1] 2) file2 e3).1.1
                    = SyncHistory.mk f [e3; e2] 2).
    { rewrite (Add_memory srt os3 _ file2 e3 [e3; e2; e1] Hmk3);
        [done | cbn; lia | repeat constructor; done |].
      change [e2; e1; e3] with ([e2; e1] ++ [e3]).
      by rewrite Permutation_app_comm. }
    destruct (Add srt os3 (SyncHistory.mk f [e2; e1] 2) file2 e3)
      as [[sh3 file3] res3].
    cbv beta iota. cbn in Hadd3. subst sh3.
    destruct (GetRecent_nonnegative srt (SyncHistory.mk f [e3; e2] 2) 10 ltac:(lia))
      as (-> & _).
    cbn [snd]. f_equal. cbn [SyncHistory.entries].
    rewrite (sort_descending srt [e3; e2]); [done | | done].
    repeat constructor; done.
  - intros os sh file Hmk Hmax. cbv zeta.
    destruct (Save_memory srt os sh file Hmk Hmax) as (-> & Hret & Hfile).
    split; [exact Hret |]. split; [exact Hfile |]. cbn.
    rewrite kept_take by done. split.
    + unfold len. rewrite length_take, (sort_Slice_perm srt). lia.
    + exists (drop (Z.to_nat (SyncHistory.maxEntries sh))
                (sort_Slice srt newer (SyncHistory.entries sh))).
      rewrite take_drop. split.
      * apply sort_Slice_perm.
      * apply sort_Slice_ordered, newer_StrictWeakOrder.
Qed.

Lemma history_truncation_witness :
  (GetRecent sorter_stable
     (Add sorter_stable os_ok
        (Add sorter_stable os_ok
           (Add sorter_stable os_ok (NewSyncHistory os_ok "/cfg" 2 None) None
              (entry_at "a" 63000000010)).1.1
           (Some (Entries [entry_at "a" 63000000010]))
           (entry_at "b" 63000000020)).1.1
        (Some (Entries [entry_at "b" 63000000020; entry_at "a" 63000000010]))
        (entry_at "c" 63000000030)).1.1 10).2
  = Returns [entry_at "c" 63000000030; entry_at "b" 63000000020]
  ∧ len (SyncHistory.entries (Save sorter_stable os_ok ledger_of_two None).1.1) = 2.
Proof.
  split.
  - pose proof (proj1 (history_truncation sorter_stable) os_ok os_ok os_ok os_ok
                  "/cfg" (entry_at "a" 63000000010) (entry_at "b" 63000000020)
                  (entry_at "c" 63000000030)
                  eq_refl eq_refl eq_refl eq_refl eq_refl) as H.
    vm_compute in H. vm_compute. exact H.
  - destruct (proj2 (history_truncation sorter_stable) os_ok ledger_of_two None
                eq_refl ltac:(vm_compute; discriminate)) as (_ & _ & Hlen & _).
    rewrite Hlen. reflexivity.
Defined.

(* ===================================================================== *)
(** * The other strategies, and the code on small inputs *)
(* ===================================================================== *)

Lemma ResolveConflict_local_wins (sm : SyncManager.t) (c : ConflictResolution.t) :
  ConflictResolution.Strategy c = StrategyLocalWins →
  ResolveConflict sm c
  = (set_ResolvedKey c (ConflictResolution.LocalKey c), ConflictResolution.LocalKey c).
Proof. intros Hs. unfold ResolveConflict. by rewrite Hs. Qed.

Lemma ResolveConflict_remote_wins (sm : SyncManager.t) (c : ConflictResolution.t) :
  ConflictResolution.Strategy c = StrategyRemoteWins →
  ResolveConflict sm c
  = (set_ResolvedKey c (ConflictResolution.RemoteKey c), ConflictResolution.RemoteKey c).
Proof. intros Hs. unfold ResolveConflict. by rewrite Hs. Qed.

Lemma ResolveConflict_manual (sm : SyncManager.t) (c : ConflictResolution.t) :
  ConflictResolution.Strategy c = StrategyManual →
  ResolveConflict sm c
  = (set_ResolvedKey c (ConflictResolution.LocalKey c), ConflictResolution.LocalKey c).
Proof. intros Hs. unfold ResolveConflict. by rewrite Hs. Qed.

Lemma fold_insert_fmap (f : Key.t → string) (keys : list Key.t)
    (m : gmap string Key.t) :
  fold_left (λ m key, <[Key.Name key := f key]> m) keys (f <$> m)
  = f <$> fold_left (λ m key, <[Key.Name key := key]> m) keys m.
Proof.
  revert m. induction keys as [| k keys IH]; intros m; [done |].
  cbn [fold_left]. rewrite <- fmap_insert. apply IH.
Qed.

(** [UpdateLocalState] rebuilds the local mapping: one checksum per name of
    the record set, that of the record under the name. *)
Lemma UpdateLocalState_checksums (sm : SyncManager.t) (now : time.Time)
    (keys : list Key.t) :
  SyncState.KeyChecksums (SyncManager.localState (UpdateLocalState sm now keys))
  = ComputeChecksum <$> keyMap keys.
Proof.
  unfold UpdateLocalState, keyMap. cbv zeta.
  cbn [SyncManager.localState SyncState.KeyChecksums].
  pose proof (fold_insert_fmap ComputeChecksum keys ∅) as H.
  rewrite fmap_empty in H. exact H.
Qed.

(** When the two cached mappings are equal there is nothing to report. *)
Lemma DetectChanges_in_sync (r1 r2 : MapRange) (sm : SyncManager.t)
    (now : time.Time) (localKeys : list Key.t) :
  SyncState.KeyChecksums (SyncManager.localState sm)
  = SyncState.KeyChecksums (SyncManager.remoteState sm) →
  DetectChanges r1 r2 sm now localKeys = [].
Proof.
  intros Hsync. unfold DetectChanges. cbv zeta.
  rewrite detect_local_selects, detect_deleted_selects.
  destruct (selected_range r1 (SyncState.KeyChecksums (SyncManager.localState sm))
              (differs sm)) as [_ Hin1].
  destruct (selected_range r2 (SyncState.KeyChecksums (SyncManager.remoteState sm))
              (gone sm)) as [_ Hin2].
  rewrite (elem_of_nil_inv (selected (differs sm) _)),
          (elem_of_nil_inv (selected (gone sm) _)); [done | |].
  - intros n Hn. apply Hin2 in Hn as (c & Hc & Hg). unfold gone in Hg.
    apply bool_decide_eq_true in Hg. cbn in Hg. congruence.
  - intros n Hn. apply Hin1 in Hn as (c & Hc & Hd). unfold differs in Hd.
    apply bool_decide_eq_true in Hd. cbn in Hd. congruence.
Qed.

(** A manager whose cached mappings are [loc] and [rem]. *)
Definition manager_with (loc rem : gmap string string) : SyncManager.t :=
  SyncManager.mk "laptop" (SyncState.mk time.zero "laptop" loc [])
    (SyncState.mk time.zero "" rem []) StrategyNewerWins.

Definition work_key : Key.t := Key.named "work".

Example detect_create :
  DetectChanges range_listed range_reversed
    (manager_with {[ "work"%string := "abc"%string ]} ∅) tie_at [work_key]
  = [KeyChange.mk ChangeTypeCreate work_key tie_at "laptop" "abc"].
Proof. vm_compute. reflexivity. Qed.

Example detect_update :
  DetectChanges range_listed range_reversed
    (manager_with {[ "work"%string := "abc"%string ]}
       {[ "work"%string := "xyz"%string ]}) tie_at [work_key]
  = [KeyChange.mk ChangeTypeUpdate work_key tie_at "laptop" "abc"].
Proof. vm_compute. reflexivity. Qed.

Example detect_delete :
  DetectChanges range_listed range_reversed
    (manager_with ∅ {[ "old"%string := "zzz"%string ]}) tie_at []
  = [KeyChange.mk ChangeTypeDelete (Key.named "old") tie_at "laptop" ""].
Proof. vm_compute. reflexivity. Qed.

Example detect_nothing :
  DetectChanges range_listed range_reversed
    (manager_with {[ "work"%string := "abc"%string ]}
       {[ "work"%string := "abc"%string ]}) tie_at [work_key]
  = [].
Proof. vm_compute. reflexivity. Qed.

(** A name of the local mapping for which [localKeys] has no record: the
    event carries the zero [Key]. *)
Example detect_create_without_record :
  DetectChanges range_listed range_reversed
    (manager_with {[ "work"%string := "abc"%string ]} ∅) tie_at []
  = [KeyChange.mk ChangeTypeCreate Key.zero tie_at "laptop" "abc"].
Proof. vm_compute. reflexivity. Qed.

(** The same mappings visited in two orders: the creates and updates come
    out in the order of the visit, the deletes after them. *)
Definition mixed_manager : SyncManager.t :=
  manager_with
    {[ "a"%string := "1"%string; "b"%string := "2"%string; "c"%string := "3"%string ]}
    {[ "b"%string := "2"%string; "c"%string := "4"%string; "d"%string := "5"%string ]}.

Example detect_mixed :
  DetectChanges range_reversed range_listed mixed_manager tie_at
    [Key.named "a"; Key.named "b"; Key.named "c"]
  = [KeyChange.mk ChangeTypeCreate (Key.named "a") tie_at "laptop" "1";
     KeyChange.mk ChangeTypeUpdate (Key.named "c") tie_at "laptop" "3";
     KeyChange.mk ChangeTypeDelete (Key.named "d") tie_at "laptop" ""].
Proof. vm_compute. reflexivity. Qed.

Example detect_mixed_other_order :
  DetectChanges range_listed range_listed mixed_manager tie_at
    [Key.named "a"; Key.named "b"; Key.named "c"]
  = [KeyChange.mk ChangeTypeUpdate (Key.named "c") tie_at "laptop" "3";
     KeyChange.mk ChangeTypeCreate (Key.named "a") tie_at "laptop" "1";
     KeyChange.mk ChangeTypeDelete (Key.named "d") tie_at "laptop" ""].
Proof. vm_compute. reflexivity. Qed.

Example apply_mixed :
  ApplyChanges range_listed [Key.named "a"; Key.named "b"]
    [KeyChange.mk ChangeTypeCreate (Key.named "c") tie_at "laptop" "3";
     KeyChange.mk ChangeTypeDelete (Key.named "a") tie_at "laptop" "";
     KeyChange.mk ChangeTypeDelete (Key.named "ghost") tie_at "laptop" "";
     KeyChange.mk "rename" (Key.named "b") tie_at "laptop" ""]
  ≡ₚ [Key.named "b"; Key.named "c"].
Proof.
  assert (H : ∃ l, ApplyChanges range_listed [Key.named "a"; Key.named "b"]
    [KeyChange.mk ChangeTypeCreate (Key.named "c") tie_at "laptop" "3";
     KeyChange.mk ChangeTypeDelete (Key.named "a") tie_at "laptop" "";
     KeyChange.mk ChangeTypeDelete (Key.named "ghost") tie_at "laptop" "";
     KeyChange.mk "rename" (Key.named "b") tie_at "laptop" ""] = l
    ∧ (l = [Key.named "b"; Key.named "c"] ∨ l = [Key.named "c"; Key.named "b"])).
  { eexists. split; [vm_compute; reflexivity |]. auto. }
  destruct H as (l & -> & [-> | ->]); [done | apply Permutation_swap].
Qed.

Example recent_of_two :
  (GetRecent sorter_stable ledger_of_two 1).2
  = Returns [entry_at "b" 63000000020].
Proof. vm_compute. reflexivity. Qed.

Example recent_of_two_all :
  (GetRecent sorter_reversing ledger_of_two 10).2
  = Returns [entry_at "b" 63000000020; entry_at "a" 63000000010].
Proof. vm_compute. reflexivity. Qed.

(* ===================================================================== *)
(** * The rest of the code: definitions *)
(* ===================================================================== *)

(** Arithmetic on Go's [int] and [int64] wraps around in sixty-four bits. *)
Definition wrap64 (x : Z) : Z := (x + 2 ^ 63) mod 2 ^ 64 - 2 ^ 63.

(** ** internal/sync/incremental.go: GetChangelog *)

(** The three prefixes, byte for byte as the source file has them. *)
Definition created_prefix : string :=
  string_of [226; 128; 154; 195; 186; 194; 174; 32] +:+ "Created: ".
Definition updated_prefix : string :=
  string_of [239; 163; 191; 195; 188; 195; 172; 195; 185; 32] +:+ "Updated: ".
Definition deleted_prefix : string :=
  string_of [239; 163; 191; 195; 188; 195; 179; 195; 171; 195; 148; 226; 136;
             143; 195; 168; 32; 32] +:+ "Deleted: ".

(** Body of the loop of [GetChangelog]. *)
Definition changelog_step (changelog : list string) (change : KeyChange.t)
    : list string :=
  let ty := KeyChange.Type_ change in
  let name := Key.Name (KeyChange.Key change) in
  if String.eqb ty ChangeTypeCreate then changelog ++ [created_prefix +:+ name]
  else if String.eqb ty ChangeTypeUpdate then changelog ++ [updated_prefix +:+ name]
  else if String.eqb ty ChangeTypeDelete then changelog ++ [deleted_prefix +:+ name]
  else changelog.

Definition GetChangelog (changes : list KeyChange.t) : list string :=
  fold_left changelog_step changes [].

(** ** internal/sync/history.go: GetByID, GetByDateRange, GetStats *)

(** The loop of [GetByID] from index [i] on: the index of the first entry
    with the id, [None] for the nil pointer. *)
Fixpoint GetByID_from (i : nat) (es : list SyncHistoryEntry.t) (id : string)
    : option nat :=
  match es with
  | [] => None
  | e :: es' =>
      if String.eqb (SyncHistoryEntry.ID e) id then Some i
      else GetByID_from (S i) es' id
  end.

(** [GetByID]: the pointer returned is [&sh.entries[i]]. *)
Definition GetByID (sh : SyncHistory.t) (id : string) : option nat :=
  GetByID_from 0 (SyncHistory.entries sh) id.

(** The test of the loop of [GetByDateRange]. *)
Definition in_range (start end_ : time.Time) (entry : SyncHistoryEntry.t) : bool :=
  time.After (SyncHistoryEntry.Timestamp entry) start
  && time.Before (SyncHistoryEntry.Timestamp entry) end_.

(** [GetByDateRange]: the entries are copied out, the copy is sorted. *)
Definition GetByDateRange (srt : SliceSorter) (sh : SyncHistory.t)
    (start end_ : time.Time) : list SyncHistoryEntry.t :=
  let result :=
    fold_left (λ result entry,
                 if in_range start end_ entry then result ++ [entry] else result)
      (SyncHistory.entries sh) [] in
  sort_Slice srt newer result.

Module SyncStats.
Record t := mk {
  TotalSyncs : Z;
  SuccessfulSyncs : Z;
  FailedSyncs : Z;
  TotalChanges : Z;
  TotalConflicts : Z;
  PushCount : Z;
  PullCount : Z;
  LastSyncTime : time.Time
}.
End SyncStats.

(** Body of the first loop of [GetStats].  The four counters go up by one
    per entry at most and stay below the length of the slice; the two sums
    wrap around. *)
Definition stats_step (stats : SyncStats.t) (entry : SyncHistoryEntry.t)
    : SyncStats.t :=
  let ok := SyncHistoryEntry.Success entry in
  let dir := SyncHistoryEntry.Direction entry in
  SyncStats.mk (SyncStats.TotalSyncs stats)
    (if ok then SyncStats.SuccessfulSyncs stats + 1
     else SyncStats.SuccessfulSyncs stats)
    (if ok then SyncStats.FailedSyncs stats else SyncStats.FailedSyncs stats + 1)
    (wrap64 (SyncStats.TotalChanges stats + SyncHistoryEntry.ChangesApplied entry))
    (wrap64 (SyncStats.TotalConflicts stats + SyncHistoryEntry.ConflictsFound entry))
    (if String.eqb dir "push" then SyncStats.PushCount stats + 1
     else SyncStats.PushCount stats)
    (if String.eqb dir "push" then SyncStats.PullCount stats
     else if String.eqb dir "pull" then SyncStats.PullCount stats + 1
     else SyncStats.PullCount stats)
    (SyncStats.LastSyncTime stats).

(** Body of the second loop of [GetStats]. *)
Definition later_of (last : time.Time) (entry : SyncHistoryEntry.t) : time.Time :=
  if time.After (SyncHistoryEntry.Timestamp entry) last
  then SyncHistoryEntry.Timestamp entry else last.

Definition set_LastSyncTime (stats : SyncStats.t) (t : time.Time) : SyncStats.t :=
  SyncStats.mk (SyncStats.TotalSyncs stats) (SyncStats.SuccessfulSyncs stats)
    (SyncStats.FailedSyncs stats) (SyncStats.TotalChanges stats)
    (SyncStats.TotalConflicts stats) (SyncStats.PushCount stats)
    (SyncStats.PullCount stats) t.

Definition GetStats (sh : SyncHistory.t) : SyncStats.t :=
  let entries := SyncHistory.entries sh in
  let stats :=
    fold_left stats_step entries
      (SyncStats.mk (len entries) 0 0 0 0 0 0 time.zero) in
  match entries with
  | [] => stats
  | first :: _ =>
      set_LastSyncTime stats
        (fold_left later_of entries (SyncHistoryEntry.Timestamp first))
  end.

(** ** internal/models/key.go: the rotation policy *)

Definition RotationStatusOK : string := "ok".
Definition RotationStatusWarning : string := "warning".
Definition RotationStatusExpired : string := "expired".

Module KeyRotationPolicy.
Record t := mk {
  Enabled : bool;
  MaxKeyAgeMonths : Z;
  WarnBeforeMonths : Z;
  AutoRotate : bool;
  NotifyOnRotation : bool
}.
End KeyRotationPolicy.

Definition DefaultKeyRotationPolicy : KeyRotationPolicy.t :=
  KeyRotationPolicy.mk true 24 3 false true.

(** [time.Duration(months) * 30 * 24 * time.Hour] *)
Definition months (n : Z) : Z := wrap64 (n * 30 * 24 * time.Hour).

(** The time the age of a key is counted from. *)
Definition baseTime (k : Key.t) : time.Time :=
  match Key.LastRotatedAt k with
  | Some t => t
  | None => Key.CreatedAt k
  end.

(** [GetRotationStatus]; [now] is what [time.Now()] returns inside
    [time.Since]. *)
Definition GetRotationStatus (k : Key.t) (now : time.Time)
    (policy : KeyRotationPolicy.t) : string :=
  if negb (KeyRotationPolicy.Enabled policy) then RotationStatusOK
  else
    let age := time.Sub now (baseTime k) in
    let maxAge := months (KeyRotationPolicy.MaxKeyAgeMonths policy) in
    let warnAge :=
      wrap64 (maxAge - months (KeyRotationPolicy.WarnBeforeMonths policy)) in
    if maxAge <=? age then RotationStatusExpired
    else if warnAge <=? age then RotationStatusWarning
    else RotationStatusOK.

(** ** internal/rotation/rotation.go: ShouldNotify *)

(** [RotationChecker.ShouldNotify], the checker given by its policy. *)
Definition ShouldNotify (policy : KeyRotationPolicy.t) (now : time.Time)
    (key : Key.t) : bool :=
  if negb (KeyRotationPolicy.NotifyOnRotation policy) then false
  else
    let status := GetRotationStatus key now policy in
    String.eqb status RotationStatusExpired
    || String.eqb status RotationStatusWarning.

(* ===================================================================== *)
(** * The snapshot and the changes it yields *)
(* ===================================================================== *)

(** X1: [UpdateLocalState] rebuilds the local mapping from nothing: it has
    a checksum for exactly the names of the keys passed, the checksum of
    the last key of each name, whatever the mapping held before; the time
    of the snapshot is the current time, and the remote state, the device
    and the strategy are left alone. *)
Theorem UpdateLocalState_snapshot (sm : SyncManager.t) (now : time.Time)
    (keys : list Key.t) :
  let sm' := UpdateLocalState sm now keys in
  let loc' := SyncState.KeyChecksums (SyncManager.localState sm') in
  (∀ n, loc' !! n = ComputeChecksum <$> keyMap keys !! n)
  ∧ (∀ n, is_Some (loc' !! n) ↔ ∃ k, k ∈ keys ∧ Key.Name k = n)
  ∧ (∀ k, k ∈ keys → NoDup (Key.Name <$> keys) →
          loc' !! Key.Name k = Some (ComputeChecksum k))
  ∧ SyncState.LastSyncTime (SyncManager.localState sm') = now
  ∧ SyncManager.remoteState sm' = SyncManager.remoteState sm
  ∧ SyncManager.deviceID sm' = SyncManager.deviceID sm
  ∧ SyncManager.strategy sm' = SyncManager.strategy sm.
Proof.
  cbv zeta. rewrite UpdateLocalState_checksums.
  split; [by intros n; rewrite lookup_fmap |].
  split; [| split; [| done]].
  - intros n. rewrite lookup_fmap, fmap_is_Some. apply keyMap_names.
  - intros k Hk Hnd. rewrite lookup_fmap.
    by rewrite (proj2 (keyMap_lookup_NoDup keys (Key.Name k) k Hnd) (conj Hk eq_refl)).
Qed.

(** The event [DetectChanges] builds for a key no remote mapping knows. *)
Definition create_of (keys : list Key.t) (now : time.Time) (dev : string)
    (n : string) : KeyChange.t :=
  KeyChange.mk ChangeTypeCreate (index (keyMap keys) n) now dev
    (ComputeChecksum (index (keyMap keys) n)).

(** X2: a manager fresh from [NewSyncManager] whose local state is then
    set from the keys, as the [sync status] command builds it, reports one
    [Create] per name of the keys, with the last key of that name and its
    checksum, and nothing else: no [Update], no [Delete], and no change at
    all only when there is no key. *)
Theorem status_reports_every_key (r1 r2 : MapRange) (dev strategy : string)
    (now now' : time.Time) (keys : list Key.t) :
  let sm := UpdateLocalState (NewSyncManager dev strategy) now keys in
  (∃ names : list string,
     DetectChanges r1 r2 sm now' keys = create_of keys now' dev <$> names
     ∧ NoDup names
     ∧ (∀ n, n ∈ names ↔ ∃ k, k ∈ keys ∧ Key.Name k = n))
  ∧ (DetectChanges r1 r2 sm now' keys = [] ↔ keys = []).
Proof.
  cbv zeta.
  set (sm := UpdateLocalState (NewSyncManager dev strategy) now keys).
  assert (Hloc : SyncState.KeyChecksums (SyncManager.localState sm)
                 = ComputeChecksum <$> keyMap keys)
    by apply UpdateLocalState_checksums.
  assert (Hrem : SyncState.KeyChecksums (SyncManager.remoteState sm) = ∅) by done.
  destruct (selected_range r1 (SyncState.KeyChecksums (SyncManager.localState sm))
              (differs sm)) as [Hnd Hin].
  assert (Hnames : ∀ n,
    n ∈ selected (differs sm)
          (range r1 (SyncState.KeyChecksums (SyncManager.localState sm)))
    ↔ ∃ k, k ∈ keys ∧ Key.Name k = n).
  { intros n. rewrite Hin, <- keyMap_names, Hloc. split.
    - intros (c & Hc & _). rewrite lookup_fmap in Hc.
      apply fmap_Some in Hc as (k & Hk & _). by exists k.
    - intros [k Hk]. exists (ComputeChecksum k). rewrite lookup_fmap, Hk.
      split; [done |]. unfold differs. apply bool_decide_eq_true.
      cbn [fst snd]. by rewrite Hrem, lookup_empty. }
  assert (Heq : DetectChanges r1 r2 sm now' keys
    = create_of keys now' dev
        <$> selected (differs sm)
              (range r1 (SyncState.KeyChecksums (SyncManager.localState sm)))).
  { unfold DetectChanges. cbv zeta.
    rewrite detect_local_selects, detect_deleted_selects.
    rewrite Hrem, selected_empty, app_nil_l, app_nil_r.
    apply Forall_fmap_ext_1, Forall_forall. intros n Hn.
    apply Hnames in Hn as Hk. apply keyMap_names in Hk as [k Hk].
    unfold expected_change, create_of. rewrite Hrem, lookup_empty, Hloc.
    rewrite lookup_fmap, Hk. unfold index. by rewrite Hk. }
  split.
  - eexists. split; [exact Heq |]. by split.
  - rewrite Heq. split.
    + intros Hnil. apply fmap_nil_inv in Hnil.
      destruct keys as [| k keys']; [done |]. exfalso.
      assert (Hk : Key.Name k ∈ selected (differs sm)
                 (range r1 (SyncState.KeyChecksums (SyncManager.localState sm)))).
      { apply Hnames. exists k. split; [by left | done]. }
      rewrite Hnil in Hk. by apply elem_of_nil in Hk.
    + intros ->. rewrite (elem_of_nil_inv (selected _ _)); [done |].
      intros n Hn. apply Hnames in Hn as (k & Hk & _). by apply elem_of_nil in Hk.
Qed.

(** X3: [DetectChanges] returns the empty list exactly when the local and
    the remote mapping are the same mapping, whatever keys are passed. *)
Theorem DetectChanges_nil_iff (r1 r2 : MapRange) (sm : SyncManager.t)
    (now : time.Time) (localKeys : list Key.t) :
  DetectChanges r1 r2 sm now localKeys = []
  ↔ SyncState.KeyChecksums (SyncManager.localState sm)
    = SyncState.KeyChecksums (SyncManager.remoteState sm).
Proof.
  split; [| apply DetectChanges_in_sync].
  unfold DetectChanges. cbv zeta.
  rewrite detect_local_selects, detect_deleted_selects.
  set (loc := SyncState.KeyChecksums (SyncManager.localState sm)).
  set (rem := SyncState.KeyChecksums (SyncManager.remoteState sm)).
  destruct (selected_range r1 loc (differs sm)) as [_ Hin1].
  destruct (selected_range r2 rem (gone sm)) as [_ Hin2].
  intros Hnil. rewrite app_nil_l in Hnil. apply app_eq_nil in Hnil as [H1 H2].
  apply fmap_nil_inv in H1, H2. rewrite H1 in Hin1. rewrite H2 in Hin2.
  apply map_eq. intros n. destruct (loc !! n) as [c |] eqn:Hl.
  - destruct (decide (rem !! n = Some c)) as [-> | Hne]; [done |].
    exfalso. apply (not_elem_of_nil n), Hin1. exists c. split; [done |].
    unfold differs. by apply bool_decide_eq_true.
  - destruct (rem !! n) as [c |] eqn:Hr; [| done].
    exfalso. apply (not_elem_of_nil n), Hin2. exists c. split; [done |].
    unfold gone. by apply bool_decide_eq_true.
Qed.

(** Applying one create or update per name of a list. *)
Lemma fold_apply_upserts (g : string → KeyChange.t) (names : list string)
    (m : gmap string Key.t) (x : string) :
  (∀ n, n ∈ names →
     (KeyChange.Type_ (g n) = ChangeTypeCreate
      ∨ KeyChange.Type_ (g n) = ChangeTypeUpdate)
     ∧ Key.Name (KeyChange.Key (g n)) = n) →
  fold_left apply_change (g <$> names) m !! x
  = if decide (x ∈ names) then Some (KeyChange.Key (g x)) else m !! x.
Proof.
  revert m. induction names as [| n names IH]; intros m Hg.
  - cbn. by rewrite decide_False by apply not_elem_of_nil.
  - cbn [fmap list_fmap fold_left].
    rewrite IH by (intros n' Hn'; apply Hg; by right).
    destruct (Hg n ltac:(by left)) as [Hty Hname].
    assert (Hins : apply_change m (g n)
                   = <[n := KeyChange.Key (g n)]> m).
    { unfold apply_change. rewrite Hname.
      by destruct Hty as [-> | ->]. }
    destruct (decide (x ∈ names)) as [Hin | Hnin].
    + by rewrite decide_True by (by right).
    + rewrite Hins. destruct (decide (x = n)) as [-> | Hne].
      * rewrite decide_True by (by left). by rewrite lookup_insert_eq.
      * rewrite decide_False by (by intros [? | ?]%elem_of_cons).
        by rewrite lookup_insert_ne.
Qed.

(** Applying one delete per name of a list. *)
Lemma fold_apply_deletes (g : string → KeyChange.t) (names : list string)
    (m : gmap string Key.t) (x : string) :
  (∀ n, n ∈ names →
     KeyChange.Type_ (g n) = ChangeTypeDelete
     ∧ Key.Name (KeyChange.Key (g n)) = n) →
  fold_left apply_change (g <$> names) m !! x
  = if decide (x ∈ names) then None else m !! x.
Proof.
  revert m. induction names as [| n names IH]; intros m Hg.
  - cbn. by rewrite decide_False by apply not_elem_of_nil.
  - cbn [fmap list_fmap fold_left].
    rewrite IH by (intros n' Hn'; apply Hg; by right).
    destruct (Hg n ltac:(by left)) as [Hty Hname].
    assert (Hdel : apply_change m (g n) = delete n m).
    { unfold apply_change. by rewrite Hname, Hty. }
    destruct (decide (x ∈ names)) as [Hin | Hnin].
    + by rewrite decide_True by (by right).
    + rewrite Hdel. destruct (decide (x = n)) as [-> | Hne].
      * rewrite decide_True by (by left). by rewrite lookup_delete_eq.
      * rewrite decide_False by (by intros [? | ?]%elem_of_cons).
        by rewrite lookup_delete_ne.
Qed.

(** The checksums of the remote records once the detected changes are
    applied to them are the checksums of the local records. *)
Lemma applied_changes_checksums (r1 r2 : MapRange) (sm : SyncManager.t)
    (now : time.Time) (localKeys remoteKeys : list Key.t) :
  SyncState.KeyChecksums (SyncManager.localState sm)
  = ComputeChecksum <$> keyMap localKeys →
  SyncState.KeyChecksums (SyncManager.remoteState sm)
  = ComputeChecksum <$> keyMap remoteKeys →
  ComputeChecksum <$> applied remoteKeys (DetectChanges r1 r2 sm now localKeys)
  = ComputeChecksum <$> keyMap localKeys.
Proof.
  intros Hloc Hrem. unfold DetectChanges. cbv zeta.
  rewrite detect_local_selects, detect_deleted_selects, app_nil_l.
  set (loc := SyncState.KeyChecksums (SyncManager.localState sm)) in *.
  set (rem := SyncState.KeyChecksums (SyncManager.remoteState sm)) in *.
  destruct (selected_range r1 loc (differs sm)) as [_ Hin1].
  destruct (selected_range r2 rem (gone sm)) as [_ Hin2].
  set (changed := selected (differs sm) (range r1 loc)) in *.
  set (deleted := selected (gone sm) (range r2 rem)) in *.
  assert (Hchanged : ∀ n, n ∈ changed ↔ ∃ c, loc !! n = Some c ∧ rem !! n ≠ Some c).
  { intros n. rewrite Hin1. unfold differs. cbn [fst snd]. fold rem.
    by setoid_rewrite bool_decide_eq_true. }
  assert (Hdeleted : ∀ n, n ∈ deleted ↔ is_Some (rem !! n) ∧ loc !! n = None).
  { intros n. rewrite Hin2. unfold gone. cbn [fst snd]. fold loc. split.
    - intros (v & Hv & Hg). apply bool_decide_eq_true in Hg. eauto.
    - intros ([v Hv] & Hg). exists v. split; [done |].
      by apply bool_decide_eq_true. }
  apply map_eq. intros x. rewrite !lookup_fmap. unfold applied.
  rewrite fold_left_app.
  rewrite (fold_apply_deletes (expected_delete sm now)) by done.
  destruct (decide (x ∈ deleted)) as [Hd | Hd].
  { apply Hdeleted in Hd as [_ Hl]. rewrite Hloc, lookup_fmap in Hl.
    by rewrite Hl. }
  rewrite (fold_apply_upserts (expected_change sm now localKeys)).
  2: { intros n Hn. apply Hchanged in Hn as (c & Hc & _).
       rewrite Hloc, lookup_fmap in Hc. apply fmap_Some in Hc as (k & Hk & _).
       unfold expected_change, index. cbn. rewrite Hk. cbn. split.
       - match goal with
         | |- context [match ?o with Some _ => _ | None => _ end] => destruct o
         end; auto.
       - by apply (keyed_keyMap localKeys). }
  destruct (decide (x ∈ changed)) as [Hc | Hc].
  { apply Hchanged in Hc as (c & Hc & _).
    rewrite Hloc, lookup_fmap in Hc. apply fmap_Some in Hc as (k & Hk & _).
    unfold expected_change, index. cbn [KeyChange.Key KeyChange.Type_].
    rewrite Hk. cbn [default fmap option_fmap option_map]. reflexivity. }
  rewrite <- !lookup_fmap. rewrite <- Hloc, <- Hrem.
  destruct (loc !! x) as [c |] eqn:Hl.
  - destruct (decide (rem !! x = Some c)) as [Hr | Hr]; [done |].
    exfalso. apply Hc, Hchanged. eauto.
  - destruct (rem !! x) as [c |] eqn:Hr; [| done].
    exfalso. apply Hd, Hdeleted. eauto.
Qed.

(** A conflict is detected for a name exactly when both sides hold a
    record of the name and the checksums of the two differ. *)
Lemma elem_of_DetectConflicts (r : MapRange) (sm : SyncManager.t)
    (localKeys remoteKeys : list Key.t) (c : ConflictResolution.t) :
  c ∈ DetectConflicts r sm localKeys remoteKeys
  ↔ ∃ n l k, keyMap localKeys !! n = Some l ∧ keyMap remoteKeys !! n = Some k
             ∧ ComputeChecksum l ≠ ComputeChecksum k
             ∧ c = ConflictResolution.mk n l k (SyncManager.strategy sm) Key.zero.
Proof.
  rewrite detect_conflict_selects, list_elem_of_fmap.
  destruct (selected_range r (keyMap localKeys) (conflicting (keyMap remoteKeys)))
    as [_ Hin].
  split.
  - intros (n & -> & Hn). apply Hin in Hn as (l & Hl & Hc).
    unfold conflicting in Hc. cbn [fst snd] in Hc.
    destruct (keyMap remoteKeys !! n) as [k |] eqn:Hk; [| done].
    apply bool_decide_eq_true in Hc. exists n, l, k.
    unfold expected_conflict, index. by rewrite Hl, Hk.
  - intros (n & l & k & Hl & Hk & Hc & ->). exists n. split.
    + unfold expected_conflict, index. by rewrite Hl, Hk.
    + apply Hin. exists l. split; [done |]. unfold conflicting. cbn [fst snd].
      rewrite Hk. by apply bool_decide_eq_true.
Qed.

(** X8: [DetectConflicts] returns the empty list exactly when, for every
    name that a record of [localKeys] and a record of [remoteKeys] bear, the
    records the two slices hold under the name have one checksum; for
    slices that repeat no name, exactly when every record of [localKeys]
    has the checksum of each record of [remoteKeys] of its name.  In
    particular a record set has no conflict with itself. *)
Theorem DetectConflicts_nil_iff (r : MapRange) (sm : SyncManager.t)
    (localKeys remoteKeys : list Key.t) :
  (DetectConflicts r sm localKeys remoteKeys = []
   ↔ ∀ n, (∃ l, l ∈ localKeys ∧ Key.Name l = n) →
          (∃ k, k ∈ remoteKeys ∧ Key.Name k = n) →
          ComputeChecksum (record_of localKeys n)
          = ComputeChecksum (record_of remoteKeys n))
  ∧ (NoDup (Key.Name <$> localKeys) → NoDup (Key.Name <$> remoteKeys) →
     (DetectConflicts r sm localKeys remoteKeys = []
      ↔ ∀ l k, l ∈ localKeys → k ∈ remoteKeys → Key.Name l = Key.Name k →
               ComputeChecksum l = ComputeChecksum k))
  ∧ DetectConflicts r sm localKeys localKeys = [].
Proof.
  assert (Hiff : ∀ L R, DetectConflicts r sm L R = []
    ↔ ∀ n l k, record_named L n = Some l → record_named R n = Some k →
               ComputeChecksum l = ComputeChecksum k).
  { intros L R. setoid_rewrite <- keyMap_lookup. split.
    - intros Hnil n l k Hl Hk.
      destruct (decide (ComputeChecksum l = ComputeChecksum k)) as [| Hne]; [done |].
      exfalso.
      apply (not_elem_of_nil
               (ConflictResolution.mk n l k (SyncManager.strategy sm) Key.zero)).
      rewrite <- Hnil. apply elem_of_DetectConflicts. by exists n, l, k.
    - intros Hall. apply elem_of_nil_inv. intros c Hc.
      apply elem_of_DetectConflicts in Hc as (n & l & k & Hl & Hk & Hne & _).
      by apply Hne, (Hall n). }
  split; [| split].
  - rewrite Hiff. split.
    + intros Hall n Hl Hk. apply record_named_is_Some in Hl as [l Hl], Hk as [k Hk].
      unfold record_of. rewrite Hl, Hk. by apply (Hall n).
    + intros Hall n l k Hl Hk. specialize (Hall n).
      unfold record_of in Hall. rewrite Hl, Hk in Hall.
      apply Hall; apply record_named_is_Some; eauto.
  - intros Hndl Hndr. rewrite Hiff. split.
    + intros Hall l k Hl Hk Hname. apply (Hall (Key.Name l)).
      * by apply record_named_NoDup.
      * by apply record_named_NoDup.
    + intros Hall n l k Hl Hk.
      apply record_named_elem_of in Hl as [Hl Hln], Hk as [Hk Hkn].
      apply Hall; congruence.
  - apply Hiff. intros n l k Hl Hk. congruence.
Qed.

(** X4: when the two cached mappings are the checksums of the local and of
    the remote records, applying to the remote records the changes that
    [DetectChanges] returns gives records with the names and the checksums
    of the local ones; a detection against that result then returns no
    change, and the two record sets have no conflict. *)
Theorem push_reaches_fixed_point (r1 r2 r3 : MapRange) (sm : SyncManager.t)
    (now : time.Time) (localKeys remoteKeys : list Key.t) :
  SyncState.KeyChecksums (SyncManager.localState sm)
  = ComputeChecksum <$> keyMap localKeys →
  SyncState.KeyChecksums (SyncManager.remoteState sm)
  = ComputeChecksum <$> keyMap remoteKeys →
  let remote' :=
    ApplyChanges r3 remoteKeys (DetectChanges r1 r2 sm now localKeys) in
  ComputeChecksum <$> keyMap remote' = ComputeChecksum <$> keyMap localKeys
  ∧ (∀ n, is_Some (keyMap remote' !! n) ↔ is_Some (keyMap localKeys !! n))
  ∧ (∀ (r4 r5 r6 : MapRange) (sm' : SyncManager.t) (now' : time.Time),
       SyncState.KeyChecksums (SyncManager.localState sm')
       = ComputeChecksum <$> keyMap localKeys →
       SyncState.KeyChecksums (SyncManager.remoteState sm')
       = ComputeChecksum <$> keyMap remote' →
       DetectChanges r4 r5 sm' now' localKeys = []
       ∧ DetectConflicts r6 sm' localKeys remote' = []).
Proof.
  intros Hloc Hrem. cbv zeta.
  assert (Hsum : ComputeChecksum
                   <$> keyMap (ApplyChanges r3 remoteKeys
                                 (DetectChanges r1 r2 sm now localKeys))
                 = ComputeChecksum <$> keyMap localKeys).
  { unfold ApplyChanges. rewrite keyMap_range by apply keyed_applied.
    by apply applied_changes_checksums. }
  split; [exact Hsum |]. split.
  - intros n. rewrite <- (fmap_is_Some ComputeChecksum (keyMap localKeys !! n)).
    rewrite <- (fmap_is_Some ComputeChecksum (keyMap _ !! n)).
    by rewrite <- !lookup_fmap, Hsum.
  - intros r4 r5 r6 sm' now' Hloc' Hrem'. split.
    + apply DetectChanges_in_sync. by rewrite Hloc', Hrem', Hsum.
    + destruct (selected_range r6 (keyMap localKeys)
                  (conflicting (keyMap (ApplyChanges r3 remoteKeys
                     (DetectChanges r1 r2 sm now localKeys))))) as [_ Hin].
      apply elem_of_nil_inv. intros c Hc.
      apply elem_of_DetectConflicts in Hc as (n & l & k & Hl & Hk & Hne & _).
      apply Hne. apply (f_equal (λ m, m !! n)) in Hsum.
      rewrite !lookup_fmap, Hl, Hk in Hsum.
      cbn [fmap option_fmap option_map] in Hsum. injection Hsum as Hsum.
      symmetry. exact Hsum.
Qed.

(** Two devices that hold the key [work]; only the laptop holds [home], only
    the server holds [old]. *)
Definition laptop_keys : list Key.t := [tie_local; Key.named "home"].
Definition server_keys : list Key.t := [tie_remote; Key.named "old"].
Definition laptop_manager : SyncManager.t :=
  UpdateRemoteState
    (UpdateLocalState (NewSyncManager "laptop" StrategyNewerWins) tie_at laptop_keys)
    (SyncManager.localState
       (UpdateLocalState (NewSyncManager "server" StrategyNewerWins) tie_at
          server_keys)).

Lemma push_reaches_fixed_point_witness :
  ComputeChecksum
    <$> keyMap (ApplyChanges range_reversed server_keys
                  (DetectChanges range_listed range_reversed laptop_manager tie_at
                     laptop_keys))
  = ComputeChecksum <$> keyMap laptop_keys.
Proof.
  refine (proj1 (push_reaches_fixed_point range_listed range_reversed
                   range_reversed laptop_manager tie_at laptop_keys server_keys
                   _ _)).
  - apply UpdateLocalState_checksums.
  - apply (UpdateLocalState_checksums (NewSyncManager "server" StrategyNewerWins)).
Defined.

(* ===================================================================== *)
(** * Resolution of a conflict, whatever the strategy *)
(* ===================================================================== *)

(** X5: [ResolveConflict] touches nothing of the conflict but
    [ResolvedKey]; the key it returns is the one it leaves there, and is the
    local record, the remote record or what [ResolvedKey] held before;
    resolving the conflict again changes nothing and returns the same key;
    and the strategy of the manager plays no part, only the strategy the
    conflict carries. *)
Theorem ResolveConflict_settles (sm : SyncManager.t) (c : ConflictResolution.t) :
  let c' := (ResolveConflict sm c).1 in
  ConflictResolution.KeyName c' = ConflictResolution.KeyName c
  ∧ ConflictResolution.LocalKey c' = ConflictResolution.LocalKey c
  ∧ ConflictResolution.RemoteKey c' = ConflictResolution.RemoteKey c
  ∧ ConflictResolution.Strategy c' = ConflictResolution.Strategy c
  ∧ (ResolveConflict sm c).2 = ConflictResolution.ResolvedKey c'
  ∧ (ConflictResolution.ResolvedKey c' = ConflictResolution.LocalKey c
     ∨ ConflictResolution.ResolvedKey c' = ConflictResolution.RemoteKey c
     ∨ ConflictResolution.ResolvedKey c' = ConflictResolution.ResolvedKey c)
  ∧ ResolveConflict sm c' = ResolveConflict sm c
  ∧ (∀ sm' : SyncManager.t, ResolveConflict sm' c = ResolveConflict sm c).
Proof.
  cbv zeta. destruct c as [n l k s v]. unfold ResolveConflict, set_ResolvedKey.
  cbn [ConflictResolution.Strategy ConflictResolution.LocalKey
       ConflictResolution.RemoteKey ConflictResolution.KeyName
       ConflictResolution.ResolvedKey].
  destruct (String.eqb s StrategyLocalWins) eqn:E1;
    [cbn; rewrite ?E1; cbn; by auto 10 |].
  destruct (String.eqb s StrategyRemoteWins) eqn:E2;
    [cbn; rewrite ?E1, ?E2; cbn; by auto 10 |].
  destruct (String.eqb s StrategyNewerWins) eqn:E3.
  { destruct (time.After _ _) eqn:E; cbn; rewrite ?E1, ?E2, ?E3, ?E; cbn;
      by auto 10. }
  destruct (String.eqb s StrategyManual) eqn:E4;
    cbn; rewrite ?E1, ?E2, ?E3, ?E4; cbn; by auto 10.
Qed.

(** X6: a conflict that [DetectConflicts] returns, resolved under any of
    the four strategies, yields one of the two records found for its name:
    the key returned is the local or the remote record, and it bears the
    name of the conflict. *)
Theorem detected_conflict_resolves_to_its_name (r : MapRange)
    (sm sm' : SyncManager.t) (localKeys remoteKeys : list Key.t)
    (c : ConflictResolution.t) :
  c ∈ DetectConflicts r sm localKeys remoteKeys →
  SyncManager.strategy sm = StrategyLocalWins
  ∨ SyncManager.strategy sm = StrategyRemoteWins
  ∨ SyncManager.strategy sm = StrategyNewerWins
  ∨ SyncManager.strategy sm = StrategyManual →
  let resolved := (ResolveConflict sm' c).2 in
  (resolved = ConflictResolution.LocalKey c
   ∨ resolved = ConflictResolution.RemoteKey c)
  ∧ Key.Name resolved = ConflictResolution.KeyName c
  ∧ keyMap localKeys !! ConflictResolution.KeyName c
    = Some (ConflictResolution.LocalKey c)
  ∧ keyMap remoteKeys !! ConflictResolution.KeyName c
    = Some (ConflictResolution.RemoteKey c).
Proof.
  intros Hc Hs. cbv zeta.
  apply elem_of_DetectConflicts in Hc as (n & l & k & Hl & Hk & _ & ->).
  pose proof (keyed_keyMap localKeys n l Hl) as Hnl.
  pose proof (keyed_keyMap remoteKeys n k Hk) as Hnk.
  unfold ResolveConflict. cbn.
  destruct Hs as [-> | [-> | [-> | ->]]]; cbn; [by auto | by auto | | by auto].
  destruct (time.After _ _); cbn; by auto.
Qed.

Lemma detected_conflict_resolves_to_its_name_witness :
  Key.Name
    (ResolveConflict laptop_manager
       (ConflictResolution.mk "work" tie_local tie_remote StrategyNewerWins
          Key.zero)).2
  = "work"%string.
Proof.
  refine (proj1 (proj2 (detected_conflict_resolves_to_its_name range_listed
    laptop_manager laptop_manager laptop_keys server_keys
    (ConflictResolution.mk "work" tie_local tie_remote StrategyNewerWins Key.zero)
    _ _))).
  - apply elem_of_DetectConflicts. exists "work"%string, tie_local, tie_remote.
    split; [vm_compute; reflexivity |]. split; [vm_compute; reflexivity |].
    split; [vm_compute; discriminate | reflexivity].
  - right. right. by left.
Defined.

(** X7: conflict detection does not depend on which side is called local:
    with the two record sets exchanged the same names are in conflict, each
    with its two records exchanged. *)
Theorem DetectConflicts_symmetric (r r' : MapRange) (sm : SyncManager.t)
    (localKeys remoteKeys : list Key.t) :
  (∀ n l k,
     ConflictResolution.mk n l k (SyncManager.strategy sm) Key.zero
     ∈ DetectConflicts r sm localKeys remoteKeys
     ↔ ConflictResolution.mk n k l (SyncManager.strategy sm) Key.zero
       ∈ DetectConflicts r' sm remoteKeys localKeys)
  ∧ ConflictResolution.KeyName <$> DetectConflicts r sm localKeys remoteKeys
    ≡ₚ ConflictResolution.KeyName <$> DetectConflicts r' sm remoteKeys localKeys.
Proof.
  split.
  - intros n l k. rewrite !elem_of_DetectConflicts. split.
    + intros (n' & l' & k' & Hl & Hk & Hne & [= <- <- <-]).
      exists n, k, l. by repeat split.
    + intros (n' & l' & k' & Hl & Hk & Hne & [= <- <- <-]).
      exists n, l, k. by repeat split.
  - rewrite !detect_conflict_selects, <- !list_fmap_compose.
    destruct (selected_range r (keyMap localKeys) (conflicting (keyMap remoteKeys)))
      as [Hnd Hin].
    destruct (selected_range r' (keyMap remoteKeys) (conflicting (keyMap localKeys)))
      as [Hnd' Hin'].
    assert (Hid : ∀ L R (l : list string),
      ConflictResolution.KeyName ∘ expected_conflict sm L R <$> l = l).
    { intros L R l. rewrite <- (list_fmap_id l) at 2. by apply list_fmap_ext. }
    rewrite !Hid. apply NoDup_Permutation; [done | done |].
    intros n. rewrite Hin, Hin'. unfold conflicting. cbn [fst snd]. split.
    + intros (l & Hl & Hc). destruct (keyMap remoteKeys !! n) as [k |]; [| done].
      exists k. split; [done |]. rewrite Hl. apply bool_decide_eq_true.
      apply bool_decide_eq_true in Hc. congruence.
    + intros (k & Hk & Hc). destruct (keyMap localKeys !! n) as [l |]; [| done].
      exists l. split; [done |]. rewrite Hk. apply bool_decide_eq_true.
      apply bool_decide_eq_true in Hc. congruence.
Qed.

(* ===================================================================== *)
(** * The records [ApplyChanges] returns *)
(* ===================================================================== *)

(** The records returned are those of the map built, each once. *)
Lemma elem_of_ApplyChanges (r : MapRange) (S : list Key.t)
    (C : list KeyChange.t) (k : Key.t) :
  k ∈ ApplyChanges r S C ↔ applied S C !! Key.Name k = Some k.
Proof.
  unfold ApplyChanges. rewrite list_elem_of_fmap. split.
  - intros ([n k'] & -> & Hin). rewrite (range_perm r) in Hin.
    apply elem_of_map_to_list in Hin. cbn.
    by rewrite (keyed_applied S C n k' Hin).
  - intros Hk. exists (Key.Name k, k). split; [done |].
    rewrite (range_perm r). by apply elem_of_map_to_list.
Qed.

Lemma ApplyChanges_names (r : MapRange) (S : list Key.t) (C : list KeyChange.t) :
  Key.Name <$> ApplyChanges r S C = (range r (applied S C)).*1.
Proof.
  unfold ApplyChanges. rewrite <- list_fmap_compose.
  apply Forall_fmap_ext_1, Forall_forall. intros [n k] Hin.
  rewrite (range_perm r) in Hin. apply elem_of_map_to_list in Hin. cbn.
  apply (keyed_applied S C n k Hin).
Qed.

(** X9: the slice [ApplyChanges] returns never holds two records of one
    name, whatever the input held, and holds a record exactly when the map
    the changes were applied to has it under its own name. *)
Theorem ApplyChanges_unique_names (r : MapRange) (S : list Key.t)
    (C : list KeyChange.t) :
  NoDup (Key.Name <$> ApplyChanges r S C)
  ∧ NoDup (ApplyChanges r S C)
  ∧ (∀ k k', k ∈ ApplyChanges r S C → k' ∈ ApplyChanges r S C →
             Key.Name k = Key.Name k' → k = k')
  ∧ (∀ k, k ∈ ApplyChanges r S C ↔ applied S C !! Key.Name k = Some k).
Proof.
  assert (Hnd : NoDup (Key.Name <$> ApplyChanges r S C)).
  { rewrite ApplyChanges_names, (range_perm r). apply NoDup_fst_map_to_list. }
  split; [exact Hnd |]. split; [by apply NoDup_fmap_1 in Hnd |]. split.
  - intros k k' Hk Hk' Hname. apply elem_of_ApplyChanges in Hk, Hk'.
    rewrite Hname in Hk. congruence.
  - intros k. apply elem_of_ApplyChanges.
Qed.

(** X10: with no change to apply, [ApplyChanges] returns one record per
    name of the records it was given and no two records of one name: of the
    records that bear a name it returns the last of the slice and drops
    the others.  It returns the records it was given, up to order, when no
    two of them share a name. *)
Theorem ApplyChanges_no_change (r : MapRange) (S : list Key.t) :
  NoDup (Key.Name <$> ApplyChanges r S [])
  ∧ (∀ k, k ∈ ApplyChanges r S []
          ↔ ∃ before after, S = before ++ k :: after
                            ∧ ∀ k', k' ∈ after → Key.Name k' ≠ Key.Name k)
  ∧ (∀ n, n ∈ Key.Name <$> ApplyChanges r S [] ↔ n ∈ Key.Name <$> S)
  ∧ (NoDup (Key.Name <$> S) → ApplyChanges r S [] ≡ₚ S).
Proof.
  assert (Hnames : NoDup (Key.Name <$> ApplyChanges r S [])).
  { rewrite ApplyChanges_names, (range_perm r). apply NoDup_fst_map_to_list. }
  assert (Helem : ∀ k, k ∈ ApplyChanges r S []
                       ↔ record_named S (Key.Name k) = Some k).
  { intros k. rewrite elem_of_ApplyChanges. cbn. by rewrite keyMap_lookup. }
  split; [exact Hnames |]. split; [| split].
  - intros k. rewrite Helem, record_named_Some. split.
    + by intros [_ H].
    + by intros H.
  - intros n. rewrite !list_elem_of_fmap. split.
    + intros (k & -> & Hk). apply Helem, record_named_elem_of in Hk as [Hk _].
      eauto.
    + intros (k & -> & Hk).
      destruct (proj2 (record_named_is_Some S (Key.Name k))) as [k' Hk']; [eauto |].
      exists k'. pose proof (record_named_elem_of _ _ _ Hk') as [_ Hn].
      split; [done |]. apply Helem. by rewrite Hn.
  - intros Hnd. apply NoDup_Permutation.
    + by apply NoDup_fmap_1 in Hnames.
    + by apply NoDup_fmap_1 in Hnd.
    + intros k. rewrite Helem, (record_named_NoDup S _ k Hnd).
      split; [by intros [? _] | by intros ?].
Qed.

Lemma ApplyChanges_no_change_witness :
  ApplyChanges range_reversed laptop_keys [] ≡ₚ laptop_keys.
Proof.
  apply (proj2 (proj2 (proj2 (ApplyChanges_no_change range_reversed laptop_keys)))).
  cbn. apply NoDup_cons. split; [| apply NoDup_singleton].
  intros Hin. by apply list_elem_of_singleton in Hin.
Defined.

(** X11: the last change of a list decides what [ApplyChanges] returns for
    the name it bears: after a create or an update, the key of the change
    and no other key of that name; after a delete, no key of that name; a
    change of any other type is ignored.  Keys of other names are returned
    as without the last change. *)
Theorem ApplyChanges_last_change (r : MapRange) (S : list Key.t)
    (C : list KeyChange.t) (c : KeyChange.t) :
  let name := Key.Name (KeyChange.Key c) in
  (KeyChange.Type_ c = ChangeTypeCreate ∨ KeyChange.Type_ c = ChangeTypeUpdate →
   ∀ k, Key.Name k = name → (k ∈ ApplyChanges r S (C ++ [c]) ↔ k = KeyChange.Key c))
  ∧ (KeyChange.Type_ c = ChangeTypeDelete →
     ∀ k, k ∈ ApplyChanges r S (C ++ [c]) → Key.Name k ≠ name)
  ∧ (KeyChange.Type_ c ≠ ChangeTypeCreate → KeyChange.Type_ c ≠ ChangeTypeUpdate →
     KeyChange.Type_ c ≠ ChangeTypeDelete →
     ApplyChanges r S (C ++ [c]) = ApplyChanges r S C)
  ∧ (∀ k, Key.Name k ≠ name →
          (k ∈ ApplyChanges r S (C ++ [c]) ↔ k ∈ ApplyChanges r S C)).
Proof.
  cbv zeta.
  assert (Hstep : applied S (C ++ [c]) = apply_change (applied S C) c).
  { unfold applied. by rewrite fold_left_app. }
  split; [| split; [| split]].
  - intros Hty k Hname. rewrite elem_of_ApplyChanges, Hstep, Hname.
    unfold apply_change. assert (Hb : String.eqb (KeyChange.Type_ c) ChangeTypeCreate
      || String.eqb (KeyChange.Type_ c) ChangeTypeUpdate = true)
      by (destruct Hty as [-> | ->]; done).
    rewrite Hb, lookup_insert_eq. split; [by intros [= ->] | by intros ->].
  - intros Hty k Hk Hname. apply elem_of_ApplyChanges in Hk.
    rewrite Hstep, Hname in Hk. unfold apply_change in Hk. rewrite Hty in Hk.
    cbn in Hk. by rewrite lookup_delete_eq in Hk.
  - intros H1 H2 H3. unfold ApplyChanges. rewrite Hstep. unfold apply_change.
    apply String.eqb_neq in H1, H2, H3. by rewrite H1, H2, H3.
  - intros k Hname. rewrite !elem_of_ApplyChanges, Hstep, apply_change_lookup.
    unfold effect. cbv zeta.
    destruct (_ || _); [by rewrite bool_decide_eq_false_2 |].
    destruct (String.eqb _ _); [by rewrite bool_decide_eq_false_2 | done].
Qed.

Lemma ApplyChanges_last_change_witness :
  tie_remote
  ∈ ApplyChanges range_listed laptop_keys
      ([KeyChange.mk ChangeTypeDelete (Key.named "work") tie_at "server" ""]
       ++ [KeyChange.mk ChangeTypeUpdate tie_remote tie_at "server" ""]).
Proof.
  apply (proj1 (ApplyChanges_last_change range_listed laptop_keys
    [KeyChange.mk ChangeTypeDelete (Key.named "work") tie_at "server" ""]
    (KeyChange.mk ChangeTypeUpdate tie_remote tie_at "server" "")));
    [by right | done | done].
Defined.

(* ===================================================================== *)
(** * The changelog *)
(* ===================================================================== *)

(** The line [GetChangelog] writes for a change, if any. *)
Definition changelog_line (change : KeyChange.t) : option string :=
  let ty := KeyChange.Type_ change in
  let name := Key.Name (KeyChange.Key change) in
  if String.eqb ty ChangeTypeCreate then Some (created_prefix +:+ name)
  else if String.eqb ty ChangeTypeUpdate then Some (updated_prefix +:+ name)
  else if String.eqb ty ChangeTypeDelete then Some (deleted_prefix +:+ name)
  else None.

Lemma GetChangelog_omap (changes : list KeyChange.t) :
  GetChangelog changes = omap changelog_line changes.
Proof.
  unfold GetChangelog. rewrite <- (app_nil_l (omap _ _)). generalize (@nil string).
  induction changes as [| c cs IH]; intros acc; cbn [fold_left omap list_omap].
  - by rewrite app_nil_r.
  - rewrite IH. unfold changelog_step, changelog_line. cbv zeta.
    repeat (destruct (String.eqb _ _); [by rewrite <- app_assoc |]). done.
Qed.

(** X12: [GetChangelog] writes its lines in the order of the changes, one
    per change of type create, update or delete and none for a change of
    another type, which it passes over in silence; for the changes that
    [DetectChanges] returns that is one line per change. *)
Theorem GetChangelog_lines (changes more : list KeyChange.t) :
  GetChangelog (changes ++ more) = GetChangelog changes ++ GetChangelog more
  ∧ (length (GetChangelog changes) ≤ length changes)%nat
  ∧ (length (GetChangelog changes) = length changes
     ↔ Forall (λ c, KeyChange.Type_ c = ChangeTypeCreate
                    ∨ KeyChange.Type_ c = ChangeTypeUpdate
                    ∨ KeyChange.Type_ c = ChangeTypeDelete) changes)
  ∧ (∀ (r1 r2 : MapRange) (sm : SyncManager.t) (now : time.Time)
       (localKeys : list Key.t),
       length (GetChangelog (DetectChanges r1 r2 sm now localKeys))
       = length (DetectChanges r1 r2 sm now localKeys)).
Proof.
  assert (Hknown : ∀ c, is_Some (changelog_line c)
    ↔ KeyChange.Type_ c = ChangeTypeCreate ∨ KeyChange.Type_ c = ChangeTypeUpdate
      ∨ KeyChange.Type_ c = ChangeTypeDelete).
  { intros c. unfold changelog_line. cbv zeta.
    destruct (String.eqb_spec (KeyChange.Type_ c) ChangeTypeCreate);
      [by split; eauto |].
    destruct (String.eqb_spec (KeyChange.Type_ c) ChangeTypeUpdate);
      [by split; eauto |].
    destruct (String.eqb_spec (KeyChange.Type_ c) ChangeTypeDelete);
      [by split; eauto |].
    split; [by intros [? ?] | by intros [? | [? | ?]]]. }
  assert (Hlen : ∀ cs, (length (GetChangelog cs) ≤ length cs)%nat
    ∧ (length (GetChangelog cs) = length cs
       ↔ Forall (λ c, is_Some (changelog_line c)) cs)).
  { intros cs. rewrite GetChangelog_omap.
    induction cs as [| c cs [IH1 IH2]]; cbn [omap list_omap length].
    - split; [lia |]. split; [constructor | done].
    - destruct (changelog_line c) as [line |] eqn:Hline; cbn [length].
      + split; [lia |]. rewrite Forall_cons. split.
        * intros [= Hl]. split; [eauto | by apply IH2].
        * intros [_ Hall]. f_equal. by apply IH2.
      + split; [lia |]. split; [lia |]. intros Hall.
        apply Forall_cons in Hall as [[? ?] _]. congruence. }
  split; [| split; [| split]].
  - rewrite !GetChangelog_omap. apply omap_app.
  - apply Hlen.
  - rewrite (proj2 (Hlen changes)). apply Forall_iff. intros c. apply Hknown.
  - intros r1 r2 sm now localKeys. apply Hlen.
    unfold DetectChanges. cbv zeta.
    rewrite detect_local_selects, detect_deleted_selects, app_nil_l.
    apply Forall_app. split; apply Forall_fmap, Forall_forall; intros n _;
      apply Hknown; unfold expected_change, expected_delete; cbn.
    + destruct (_ !! n); auto.
    + auto.
Qed.

(* ===================================================================== *)
(** * Statistics of the ledger *)
(* ===================================================================== *)

Lemma wrap64_small (x : Z) : - 2 ^ 63 ≤ x < 2 ^ 63 → wrap64 x = x.
Proof. intros Hx. unfold wrap64. rewrite Z.mod_small; lia. Qed.

Lemma wrap64_add (x y : Z) : wrap64 (wrap64 x + y) = wrap64 (x + y).
Proof.
  unfold wrap64. f_equal.
  replace ((x + 2 ^ 63) mod 2 ^ 64 - 2 ^ 63 + y + 2 ^ 63)
    with ((x + 2 ^ 63) mod 2 ^ 64 + y) by lia.
  rewrite Zplus_mod_idemp_l. f_equal. lia.
Qed.

(** The number of entries that satisfy [p]. *)
Definition count (p : SyncHistoryEntry.t → bool) (es : list SyncHistoryEntry.t) : Z :=
  len (List.filter p es).

Definition total (f : SyncHistoryEntry.t → Z) (es : list SyncHistoryEntry.t) : Z :=
  foldr (λ e acc, f e + acc) 0 es.

Definition pushes (e : SyncHistoryEntry.t) : bool :=
  String.eqb (SyncHistoryEntry.Direction e) "push".
Definition pulls (e : SyncHistoryEntry.t) : bool :=
  String.eqb (SyncHistoryEntry.Direction e) "pull".

Lemma count_cons (p : SyncHistoryEntry.t → bool) (e : SyncHistoryEntry.t)
    (es : list SyncHistoryEntry.t) :
  count p (e :: es) = (if p e then 1 else 0) + count p es.
Proof. unfold count, len. cbn. destruct (p e); cbn [length]; lia. Qed.

Lemma count_bounds (p : SyncHistoryEntry.t → bool) (es : list SyncHistoryEntry.t) :
  0 ≤ count p es ≤ len es.
Proof.
  induction es as [| e es IH]; [done |]. rewrite count_cons.
  unfold len in *. cbn [length]. destruct (p e); lia.
Qed.

Lemma total_cons (f : SyncHistoryEntry.t → Z) (e : SyncHistoryEntry.t)
    (es : list SyncHistoryEntry.t) :
  total f (e :: es) = f e + total f es.
Proof. reflexivity. Qed.

Lemma wrap64_range (x : Z) : - 2 ^ 63 ≤ wrap64 x < 2 ^ 63.
Proof.
  unfold wrap64. pose proof (Z.mod_pos_bound (x + 2 ^ 63) (2 ^ 64)). lia.
Qed.

Lemma stats_fold (es : list SyncHistoryEntry.t) (st : SyncStats.t) :
  - 2 ^ 63 ≤ SyncStats.TotalChanges st < 2 ^ 63 →
  - 2 ^ 63 ≤ SyncStats.TotalConflicts st < 2 ^ 63 →
  let st' := fold_left stats_step es st in
  SyncStats.TotalSyncs st' = SyncStats.TotalSyncs st
  ∧ SyncStats.SuccessfulSyncs st'
    = SyncStats.SuccessfulSyncs st + count SyncHistoryEntry.Success es
  ∧ SyncStats.FailedSyncs st'
    = SyncStats.FailedSyncs st + count (negb ∘ SyncHistoryEntry.Success) es
  ∧ SyncStats.TotalChanges st'
    = wrap64 (SyncStats.TotalChanges st + total SyncHistoryEntry.ChangesApplied es)
  ∧ SyncStats.TotalConflicts st'
    = wrap64 (SyncStats.TotalConflicts st + total SyncHistoryEntry.ConflictsFound es)
  ∧ SyncStats.PushCount st' = SyncStats.PushCount st + count pushes es
  ∧ SyncStats.PullCount st'
    = SyncStats.PullCount st + count (λ e, negb (pushes e) && pulls e) es
  ∧ SyncStats.LastSyncTime st' = SyncStats.LastSyncTime st.
Proof.
  cbv zeta. revert st. induction es as [| e es IH]; intros st Hc Hf.
  - cbn. unfold count, len. cbn. rewrite !Z.add_0_r.
    by rewrite !wrap64_small by done.
  - cbn [fold_left].
    destruct (IH (stats_step st e)) as (H1 & H2 & H3 & H4 & H5 & H6 & H7 & H8);
      [apply wrap64_range | apply wrap64_range |].
    rewrite H1, H2, H3, H4, H5, H6, H7, H8, !count_cons, !total_cons.
    unfold stats_step, pushes, pulls, compose.
    cbn [SyncStats.TotalSyncs SyncStats.SuccessfulSyncs SyncStats.FailedSyncs
         SyncStats.TotalChanges SyncStats.TotalConflicts SyncStats.PushCount
         SyncStats.PullCount SyncStats.LastSyncTime].
    rewrite !wrap64_add.
    split; [done |].
    split; [destruct (SyncHistoryEntry.Success e); lia |].
    split; [destruct (SyncHistoryEntry.Success e); cbn [negb]; lia |].
    split; [f_equal; lia |]. split; [f_equal; lia |].
    split; [destruct (String.eqb _ "push"); lia |].
    split; [| done].
    destruct (String.eqb _ "push"), (String.eqb _ "pull"); cbn [negb andb]; lia.
Qed.

(** X13: the counts [GetStats] returns.  [TotalSyncs] is the number of
    entries; every entry is counted as a success or as a failure; an entry
    is counted as a push or as a pull only when its direction is exactly
    that word; the two sums are the sums of the entries' counts in
    sixty-four-bit arithmetic, hence the true sums when these fit. *)
Theorem GetStats_counts (sh : SyncHistory.t) :
  let es := SyncHistory.entries sh in
  let st := GetStats sh in
  SyncStats.TotalSyncs st = len es
  ∧ SyncStats.SuccessfulSyncs st = count SyncHistoryEntry.Success es
  ∧ SyncStats.SuccessfulSyncs st + SyncStats.FailedSyncs st = len es
  ∧ SyncStats.PushCount st = count pushes es
  ∧ SyncStats.PullCount st = count pulls es
  ∧ SyncStats.PushCount st + SyncStats.PullCount st ≤ len es
  ∧ SyncStats.TotalChanges st = wrap64 (total SyncHistoryEntry.ChangesApplied es)
  ∧ SyncStats.TotalConflicts st = wrap64 (total SyncHistoryEntry.ConflictsFound es)
  ∧ (- 2 ^ 63 ≤ total SyncHistoryEntry.ChangesApplied es < 2 ^ 63 →
     SyncStats.TotalChanges st = total SyncHistoryEntry.ChangesApplied es).
Proof.
  cbv zeta.
  assert (Hfold := stats_fold (SyncHistory.entries sh)
            (SyncStats.mk (len (SyncHistory.entries sh)) 0 0 0 0 0 0 time.zero)
            ltac:(cbn; lia) ltac:(cbn; lia)).
  cbv zeta in Hfold. cbn [SyncStats.TotalSyncs SyncStats.SuccessfulSyncs
    SyncStats.FailedSyncs SyncStats.TotalChanges SyncStats.TotalConflicts
    SyncStats.PushCount SyncStats.PullCount SyncStats.LastSyncTime] in Hfold.
  rewrite !Z.add_0_l in Hfold.
  assert (Hsplit : ∀ es, count SyncHistoryEntry.Success es
                         + count (negb ∘ SyncHistoryEntry.Success) es = len es).
  { induction es as [| e es IH]; [done |]. rewrite !count_cons.
    unfold len in *. cbn [length]. unfold compose in *.
    destruct (SyncHistoryEntry.Success e); cbn [negb]; lia. }
  assert (Hpull : ∀ es, count (λ e, negb (pushes e) && pulls e) es = count pulls es).
  { induction es as [| e es IH]; [done |]. rewrite !count_cons, IH.
    unfold pushes, pulls.
    by destruct (String.eqb_spec (SyncHistoryEntry.Direction e) "push") as [-> |]. }
  assert (Hdir : ∀ es, count pushes es + count pulls es ≤ len es).
  { induction es as [| e es IH]; [done |]. rewrite !count_cons.
    unfold len in *. cbn [length]. unfold pushes, pulls in *.
    destruct (String.eqb_spec (SyncHistoryEntry.Direction e) "push") as [-> |];
      [change (String.eqb "push" "pull") with false; lia |].
    destruct (String.eqb _ "pull"); lia. }
  assert (Hstats : ∀ f : SyncStats.t → Z,
    (∀ st t, f (set_LastSyncTime st t) = f st) →
    f (GetStats sh)
    = f (fold_left stats_step (SyncHistory.entries sh)
           (SyncStats.mk (len (SyncHistory.entries sh)) 0 0 0 0 0 0 time.zero))).
  { intros f Hf. unfold GetStats. cbv zeta.
    destruct (SyncHistory.entries sh) as [| e es]; [done |]. apply Hf. }
  destruct Hfold as (H1 & H2 & H3 & H4 & H5 & H6 & H7 & _).
  rewrite !Hstats by done. rewrite H1, H2, H3, H4, H5, H6, H7, Hpull.
  split; [done |]. split; [done |]. split; [apply Hsplit |].
  split; [done |]. split; [done |]. split; [apply Hdir |].
  split; [done |]. split; [done |]. intros Hfit. by apply wrap64_small.
Qed.

(** The second loop of [GetStats] from [t] on: the result is [t] or the
    timestamp of an entry, and neither [t] nor any entry is after it. *)
Lemma later_of_fold (es : list SyncHistoryEntry.t) (t : time.Time) :
  let r := fold_left later_of es t in
  (r = t ∨ ∃ e, e ∈ es ∧ r = SyncHistoryEntry.Timestamp e)
  ∧ time.After t r = false
  ∧ ∀ e, e ∈ es → time.After (SyncHistoryEntry.Timestamp e) r = false.
Proof.
  cbv zeta. revert t. induction es as [| e es IH]; intros t; cbn [fold_left].
  - split; [by left |]. split; [apply After_irrefl |].
    intros e He. by apply elem_of_nil in He.
  - destruct (IH (later_of t e)) as (Hr & Ht & Hes).
    assert (Hstep : later_of t e
                    = if time.After (SyncHistoryEntry.Timestamp e) t
                      then SyncHistoryEntry.Timestamp e else t) by done.
    set (t' := later_of t e) in *. clearbody t'.
    set (r := fold_left later_of es t') in *. clearbody r.
    destruct (time.After (SyncHistoryEntry.Timestamp e) t) eqn:Hafter; subst t'.
    + split; [| split].
      * right. destruct Hr as [-> | (e' & He' & ->)].
        -- exists e. split; [by left | done].
        -- exists e'. split; [by right | done].
      * destruct (time.After t r) eqn:Htr; [| done].
        pose proof (After_trans _ _ _ Hafter Htr). congruence.
      * intros e' [-> | He']%elem_of_cons; auto.
    + split; [| split].
      * destruct Hr as [-> | (e' & He' & ->)]; [by left |].
        right. exists e'. split; [by right | done].
      * done.
      * intros e' [-> | He']%elem_of_cons; [| auto].
        by apply (After_negatively_transitive _ t).
Qed.

(** X14: the time of the last synchronisation [GetStats] reports is the
    zero time for an empty ledger; otherwise it is the timestamp of an entry
    of the ledger, and no entry of the ledger has a later one, wherever the
    newest entry stands in the list. *)
Theorem GetStats_LastSyncTime (sh : SyncHistory.t) :
  let last := SyncStats.LastSyncTime (GetStats sh) in
  (SyncHistory.entries sh = [] → last = time.zero)
  ∧ (SyncHistory.entries sh ≠ [] →
     ∃ e, e ∈ SyncHistory.entries sh ∧ last = SyncHistoryEntry.Timestamp e)
  ∧ (∀ e, e ∈ SyncHistory.entries sh →
     time.After (SyncHistoryEntry.Timestamp e) last = false).
Proof.
  cbv zeta. unfold GetStats. cbv zeta.
  destruct (SyncHistory.entries sh) as [| first rest] eqn:Hes.
  - split; [| split].
    + intros _.
      by destruct (stats_fold [] (SyncStats.mk (len (@nil SyncHistoryEntry.t))
                     0 0 0 0 0 0 time.zero) ltac:(cbn; lia) ltac:(cbn; lia))
        as (_ & _ & _ & _ & _ & _ & _ & ->).
    + done.
    + intros e He. by apply elem_of_nil in He.
  - cbn [set_LastSyncTime SyncStats.LastSyncTime].
    destruct (later_of_fold (first :: rest) (SyncHistoryEntry.Timestamp first))
      as (Hr & _ & Hall).
    split; [done |]. split; [| exact Hall].
    intros _. destruct Hr as [-> | Hr]; [| exact Hr].
    exists first. split; [by left | done].
Qed.

(* ===================================================================== *)
(** * Queries on the ledger *)
(* ===================================================================== *)

Lemma GetByID_from_spec (es : list SyncHistoryEntry.t) (id : string) (i : nat) :
  match GetByID_from i es id with
  | Some j =>
      ∃ k e, j = (i + k)%nat ∧ es !! k = Some e ∧ SyncHistoryEntry.ID e = id
             ∧ ∀ k' e', (k' < k)%nat → es !! k' = Some e' →
                        SyncHistoryEntry.ID e' ≠ id
  | None => ∀ e, e ∈ es → SyncHistoryEntry.ID e ≠ id
  end.
Proof.
  revert i. induction es as [| e es IH]; intros i; cbn [GetByID_from].
  - intros e He. by apply elem_of_nil in He.
  - destruct (String.eqb_spec (SyncHistoryEntry.ID e) id) as [Heq | Hne].
    + exists 0%nat, e. split; [lia |]. split; [done |]. split; [done |].
      intros k' e' Hk'. lia.
    + specialize (IH (S i)). destruct (GetByID_from (S i) es id) as [j |].
      * destruct IH as (k & e' & -> & Hk & Hid & Hfirst).
        exists (S k), e'. split; [lia |]. split; [done |]. split; [done |].
        intros [| k'] e'' Hk' Hlook; cbn in Hlook.
        -- by injection Hlook as <-.
        -- apply (Hfirst k' e''); [lia | done].
      * intros e' [-> | He']%elem_of_cons; auto.
Qed.

(** X15: [GetByID] returns the nil pointer exactly when no entry of the
    ledger has the id; otherwise it points at the first entry of the list
    that has it, entries before it having another id. *)
Theorem GetByID_first (sh : SyncHistory.t) (id : string) :
  (GetByID sh id = None
   ↔ ∀ e, e ∈ SyncHistory.entries sh → SyncHistoryEntry.ID e ≠ id)
  ∧ ∀ i, GetByID sh id = Some i
         ↔ (∃ e, SyncHistory.entries sh !! i = Some e ∧ SyncHistoryEntry.ID e = id)
           ∧ ∀ j e', (j < i)%nat → SyncHistory.entries sh !! j = Some e' →
                     SyncHistoryEntry.ID e' ≠ id.
Proof.
  unfold GetByID. pose proof (GetByID_from_spec (SyncHistory.entries sh) id 0) as H.
  destruct (GetByID_from 0 (SyncHistory.entries sh) id) as [j |].
  - destruct H as (k & e & -> & Hk & Hid & Hfirst). cbn [Nat.add]. split.
    + split; [done |]. intros Hnone. exfalso. apply (Hnone e); [| done].
      by apply list_elem_of_lookup_2 in Hk.
    + intros i. split.
      * intros [= <-]. split; [by exists e | exact Hfirst].
      * intros [(e' & Hi & Hid') Hbefore]. f_equal.
        destruct (Nat.lt_trichotomy k i) as [Hlt | [Heq | Hgt]]; [| done |].
        -- by destruct (Hbefore k e Hlt Hk).
        -- by destruct (Hfirst i e' Hgt Hi).
  - split; [done |]. intros i. split; [done |].
    intros [(e & Hi & Hid) _]. exfalso. apply (H e); [| done].
    by apply list_elem_of_lookup_2 in Hi.
Qed.

Lemma Before_After (t u : time.Time) : time.Before t u = time.After u t.
Proof. unfold time.Before, time.After. by rewrite (Z.eqb_sym (time.sec t)). Qed.

Lemma range_loop (p : SyncHistoryEntry.t → bool)
    (es acc : list SyncHistoryEntry.t) :
  fold_left (λ result entry, if p entry then result ++ [entry] else result) es acc
  = acc ++ List.filter p es.
Proof.
  revert acc. induction es as [| e es IH]; intros acc; cbn [fold_left List.filter].
  - by rewrite app_nil_r.
  - rewrite IH. destruct (p e); [by rewrite <- app_assoc | done].
Qed.

(** X16: [GetByDateRange] returns, newest first, the entries of the ledger
    whose timestamp is strictly after [start] and strictly before [end],
    each as often as the ledger holds it; entries at [start] or at [end]
    are left out, and nothing is returned unless [end] is after [start]. *)
Theorem GetByDateRange_spec (srt : SliceSorter) (sh : SyncHistory.t)
    (start end_ : time.Time) :
  let result := GetByDateRange srt sh start end_ in
  result ≡ₚ List.filter (in_range start end_) (SyncHistory.entries sh)
  ∧ (∀ e, e ∈ result
          ↔ e ∈ SyncHistory.entries sh
            ∧ time.After (SyncHistoryEntry.Timestamp e) start = true
            ∧ time.After end_ (SyncHistoryEntry.Timestamp e) = true)
  ∧ ordered_by newer result
  ∧ (time.After end_ start = false → result = []).
Proof.
  cbv zeta. unfold GetByDateRange. cbv zeta. rewrite range_loop, app_nil_l.
  assert (Hin : ∀ e, e ∈ List.filter (in_range start end_) (SyncHistory.entries sh)
                     ↔ e ∈ SyncHistory.entries sh
                       ∧ time.After (SyncHistoryEntry.Timestamp e) start = true
                       ∧ time.After end_ (SyncHistoryEntry.Timestamp e) = true).
  { intros e. rewrite !list_elem_of_In, filter_In. unfold in_range.
    by rewrite andb_true_iff, Before_After. }
  split; [apply sort_Slice_perm |]. split; [| split].
  - intros e. by rewrite (sort_Slice_perm srt).
  - apply sort_Slice_ordered, newer_StrictWeakOrder.
  - intros Hempty. apply Permutation_nil_r. rewrite (sort_Slice_perm srt).
    destruct (List.filter _ _) as [| e l] eqn:Hl; [done |]. exfalso.
    destruct (proj1 (Hin e) ltac:(by left)) as (_ & H1 & H2).
    pose proof (After_trans _ _ _ H2 H1). congruence.
Qed.

(** X17: for a bound that is not negative [GetRecent] returns the lesser of
    [n] and the size of the ledger many entries, the newest first; no entry
    it leaves out is newer than one it returns; and the ledger itself is
    left sorted, the entries returned at its head. *)
Theorem GetRecent_newest (srt : SliceSorter) (sh : SyncHistory.t) (n : Z) :
  0 ≤ n →
  ∃ recent rest,
    GetRecent srt sh n = (set_entries sh (recent ++ rest), Returns recent)
    ∧ recent ++ rest ≡ₚ SyncHistory.entries sh
    ∧ len recent = Z.min n (len (SyncHistory.entries sh))
    ∧ ordered_by newer (recent ++ rest)
    ∧ ∀ x y, x ∈ recent → y ∈ rest → newer y x = false.
Proof.
  intros Hn.
  destruct (GetRecent_nonnegative srt sh n Hn) as (Hget & Hperm & Hord & _).
  set (sorted := sort_Slice srt newer (SyncHistory.entries sh)) in *.
  exists (take (Z.to_nat n) sorted), (drop (Z.to_nat n) sorted).
  rewrite take_drop. split; [done |]. split; [done |]. split; [| split; [done |]].
  - unfold len. rewrite length_take, <- Hperm. lia.
  - intros x y Hx Hy. rewrite <- (take_drop (Z.to_nat n) sorted) in Hord.
    unfold ordered_by in Hord.
    by apply (StronglySorted_app_1_elem_of _ _ _ x y Hord Hx Hy).
Qed.

Lemma GetRecent_newest_witness :
  ∃ recent rest,
    GetRecent sorter_stable ledger_of_two 1
    = (set_entries ledger_of_two (recent ++ rest), Returns recent)
    ∧ recent ++ rest ≡ₚ SyncHistory.entries ledger_of_two
    ∧ len recent = Z.min 1 (len (SyncHistory.entries ledger_of_two))
    ∧ ordered_by newer (recent ++ rest)
    ∧ ∀ x y, x ∈ recent → y ∈ rest → newer y x = false.
Proof. apply (GetRecent_newest sorter_stable ledger_of_two 1). lia. Defined.

(* ===================================================================== *)
(** * Clearing the ledger, and a ledger opened on an unreadable file *)
(* ===================================================================== *)

Lemma sort_nil (srt : SliceSorter) {A} (less : A → A → bool) :
  sort_Slice srt less [] = [].
Proof. apply Permutation_nil_r, sort_Slice_perm. Qed.

Lemma sort_singleton (srt : SliceSorter) {A} (less : A → A → bool) (x : A) :
  sort_Slice srt less [x] = [x].
Proof. apply Permutation_singleton_r, sort_Slice_perm. Qed.

(** X18: [Clear] always empties the ledger in memory.  It returns nil
    exactly when the directory can be made, the bound of the ledger is not
    negative and the file can be written, and the file then holds the empty
    list.  When the directory cannot be made, and when the call panics,
    which it does exactly when the directory can be made and the bound is
    negative, the file is not touched: the old entries are still on disk.
    When the write fails the file is as it was only if it could not be
    opened; otherwise it holds the empty list or a cut-off text, and the old
    entries are gone from the disk although an error is returned.  [Clear]
    never fails to marshal. *)
Theorem Clear_spec (srt : SliceSorter) (os : OS) (sh : SyncHistory.t) (file : File) :
  let r := Clear srt os sh file in
  SyncHistory.entries r.1.1 = []
  ∧ (r.2 = Returns None
     ↔ mkdirAll_ok os = true ∧ 0 ≤ SyncHistory.maxEntries sh
       ∧ writeFile_ok os = true)
  ∧ (r.2 = Returns None → r.1.2 = Some (Entries []))
  ∧ (r.2 = Panics ↔ mkdirAll_ok os = true ∧ SyncHistory.maxEntries sh < 0)
  ∧ (r.2 = Returns (Some ErrCreateDir) ↔ mkdirAll_ok os = false)
  ∧ (r.2 = Panics ∨ r.2 = Returns (Some ErrCreateDir) → r.1.2 = file)
  ∧ (r.2 = Returns (Some ErrWrite)
     ↔ mkdirAll_ok os = true ∧ 0 ≤ SyncHistory.maxEntries sh
       ∧ writeFile_ok os = false)
  ∧ (r.2 = Returns (Some ErrWrite) →
     match writeFile_failure os with
     | Unopened => r.1.2 = file
     | Cut => r.1.2 = Some Garbled
     | Unclosed => r.1.2 = Some (Entries [])
     end)
  ∧ r.2 ≠ Returns (Some ErrMarshal).
Proof.
  cbv zeta. unfold Clear, Save, slice_to, failed_write. cbv zeta.
  cbn [set_entries SyncHistory.entries SyncHistory.maxEntries].
  rewrite sort_nil. change (len (@nil SyncHistoryEntry.t)) with 0.
  destruct (mkdirAll_ok os); cbn [negb fst snd SyncHistory.entries];
    [destruct (Z.ltb_spec (SyncHistory.maxEntries sh) 0) as [Hneg | Hpos];
       cbn [fst snd set_entries SyncHistory.entries forallb negb];
       [| destruct (writeFile_ok os); cbn [negb fst snd SyncHistory.entries]] |];
    repeat split; intros;
    repeat match goal with
           | H : _ ∧ _ |- _ => destruct H
           | H : _ ∨ _ |- _ => destruct H
           end;
    try (destruct (writeFile_failure os)); first [done | lia | congruence].
Qed.

Definition os_unreadable : OS :=
  {| readFile_ok := false; mkdirAll_ok := true; writeFile_ok := true;
     writeFile_failure := Unopened |}.

(** X19: when the history file exists and cannot be read, [NewSyncHistory]
    drops the error and hands out an empty ledger; the next [Add] that
    succeeds on it replaces the file by the one new entry, whatever the file
    held. *)
Theorem unreadable_history_is_overwritten (srt : SliceSorter) (os os' : OS)
    (configDir : string) (maxEntries : Z) (content : Content)
    (entry : SyncHistoryEntry.t) :
  readFile_ok os = false →
  mkdirAll_ok os' = true → writeFile_ok os' = true →
  1 ≤ maxEntries → entry_marshals entry = true →
  let sh := NewSyncHistory os configDir maxEntries (Some content) in
  SyncHistory.entries sh = []
  ∧ Add srt os' sh (Some content) entry
    = (set_entries sh [entry], Some (Entries [entry]), Returns None).
Proof.
  intros Hread Hmk Hwr Hmax Hm. cbv zeta.
  unfold NewSyncHistory, Load. rewrite Hread. cbn [negb fst]. split; [done |].
  unfold Add, Save, slice_to. cbv zeta. rewrite Hmk, Hwr.
  cbn [set_entries SyncHistory.entries SyncHistory.maxEntries SyncHistory.historyFile
       app negb].
  rewrite sort_singleton. change (len [entry]) with 1.
  destruct (Z.ltb_spec maxEntries 1) as [Hlt | _]; [lia |].
  cbn [forallb]. rewrite Hm. done.
Qed.

Lemma unreadable_history_is_overwritten_witness :
  let sh := NewSyncHistory os_unreadable "/home/u/.skm" 100
              (Some (Entries (SyncHistory.entries ledger_of_two))) in
  SyncHistory.entries sh = []
  ∧ Add sorter_stable os_ok sh
        (Some (Entries (SyncHistory.entries ledger_of_two))) (entry_at "c" 30)
    = (set_entries sh [entry_at "c" 30], Some (Entries [entry_at "c" 30]),
       Returns None).
Proof.
  apply (unreadable_history_is_overwritten sorter_stable os_unreadable os_ok
           "/home/u/.skm" 100 (Entries (SyncHistory.entries ledger_of_two))
           (entry_at "c" 30));
    first [reflexivity | lia | by vm_compute].
Defined.

(* ===================================================================== *)
(** * Key rotation *)
(* ===================================================================== *)

(** A month of the rotation policy: thirty days, in nanoseconds. *)
Definition month_ns : Z := 30 * 24 * time.Hour.

(** The nanoseconds from [base] to [now]. *)
Definition elapsed (now base : time.Time) : Z :=
  (time.sec now - time.sec base) * 1000000000 + (time.nsec now - time.nsec base).

(** The nanoseconds of a [time.Time] lie within the second. *)
Definition nsec_ok (t : time.Time) : Prop := 0 ≤ time.nsec t < 1000000000.

Lemma months_exact (n : Z) : - 3558 ≤ n ≤ 3558 → months n = n * month_ns.
Proof.
  intros Hn. unfold months. rewrite wrap64_small; unfold month_ns, time.Hour; lia.
Qed.

Lemma months_overflow (n : Z) : 3559 ≤ n ≤ 7116 → months n < 0.
Proof.
  intros Hn. unfold months, wrap64, time.Hour.
  replace (n * 30 * 24 * 3600000000000 + 2 ^ 63)
    with (n * 30 * 24 * 3600000000000 - 2 ^ 63 + 1 * 2 ^ 64) by lia.
  rewrite Z.mod_add by lia. rewrite Z.mod_small; lia.
Qed.

Lemma Sub_elapsed (now base : time.Time) :
  time.Sub now base
  = Z.max time.minDuration (Z.min time.maxDuration (elapsed now base)).
Proof.
  unfold time.Sub, elapsed, time.minDuration, time.maxDuration. cbv zeta.
  repeat match goal with |- context [Z.ltb ?a ?b] => destruct (Z.ltb_spec a b) end;
    lia.
Qed.

Lemma elapsed_mono (now later base : time.Time) :
  nsec_ok now → nsec_ok later → time.After now later = false →
  elapsed now base ≤ elapsed later base.
Proof.
  unfold nsec_ok, elapsed, time.After. intros Hn Hl Hafter. bool_to_Z.
  destruct Hafter as [H1 H2]. bool_to_Z. lia.
Qed.

(** The status as a function of the age and the two thresholds. *)
Definition status_at (maxAge warnAge age : Z) : string :=
  if maxAge <=? age then RotationStatusExpired
  else if warnAge <=? age then RotationStatusWarning
  else RotationStatusOK.

Lemma GetRotationStatus_exact (k : Key.t) (now : time.Time)
    (policy : KeyRotationPolicy.t) :
  KeyRotationPolicy.Enabled policy = true →
  0 ≤ KeyRotationPolicy.WarnBeforeMonths policy
    ≤ KeyRotationPolicy.MaxKeyAgeMonths policy →
  KeyRotationPolicy.MaxKeyAgeMonths policy ≤ 3558 →
  GetRotationStatus k now policy
  = status_at (KeyRotationPolicy.MaxKeyAgeMonths policy * month_ns)
      ((KeyRotationPolicy.MaxKeyAgeMonths policy
        - KeyRotationPolicy.WarnBeforeMonths policy) * month_ns)
      (elapsed now (baseTime k)).
Proof.
  intros Hen Hwarn Hmax. unfold GetRotationStatus, status_at. rewrite Hen.
  cbn [negb]. cbv zeta. rewrite !months_exact by lia.
  rewrite wrap64_small by (unfold month_ns, time.Hour; lia).
  rewrite Sub_elapsed. unfold time.minDuration, time.maxDuration.
  set (d := elapsed now (baseTime k)). clearbody d.
  set (mx := KeyRotationPolicy.MaxKeyAgeMonths policy) in *. clearbody mx.
  set (wn := KeyRotationPolicy.WarnBeforeMonths policy) in *. clearbody wn.
  unfold month_ns, time.Hour.
  repeat match goal with |- context [Z.leb ?a ?b] => destruct (Z.leb_spec a b) end;
    first [reflexivity | lia].
Qed.

(** X20: with rotation enabled and thresholds
    [0 <= WarnBeforeMonths <= MaxKeyAgeMonths <= 3558], a key is expired
    exactly from [MaxKeyAgeMonths] months of thirty days after its last
    rotation (its creation when it was never rotated), in the warning state
    exactly during the [WarnBeforeMonths] months before that, and fresh
    before; a base time in the future counts as fresh. *)
Theorem GetRotationStatus_thresholds (k : Key.t) (now : time.Time)
    (policy : KeyRotationPolicy.t) :
  KeyRotationPolicy.Enabled policy = true →
  0 ≤ KeyRotationPolicy.WarnBeforeMonths policy
    ≤ KeyRotationPolicy.MaxKeyAgeMonths policy →
  KeyRotationPolicy.MaxKeyAgeMonths policy ≤ 3558 →
  let age := elapsed now (baseTime k) in
  let maxAge := KeyRotationPolicy.MaxKeyAgeMonths policy * month_ns in
  let warnAge := (KeyRotationPolicy.MaxKeyAgeMonths policy
                  - KeyRotationPolicy.WarnBeforeMonths policy) * month_ns in
  (GetRotationStatus k now policy = RotationStatusExpired ↔ maxAge ≤ age)
  ∧ (GetRotationStatus k now policy = RotationStatusWarning
     ↔ warnAge ≤ age < maxAge)
  ∧ (GetRotationStatus k now policy = RotationStatusOK ↔ age < warnAge).
Proof.
  intros Hen Hwarn Hmax. cbv zeta.
  rewrite (GetRotationStatus_exact k now policy Hen Hwarn Hmax). unfold status_at.
  assert (Hle : (KeyRotationPolicy.MaxKeyAgeMonths policy
                 - KeyRotationPolicy.WarnBeforeMonths policy) * month_ns
                ≤ KeyRotationPolicy.MaxKeyAgeMonths policy * month_ns)
    by (unfold month_ns, time.Hour; lia).
  repeat match goal with |- context [Z.leb ?a ?b] => destruct (Z.leb_spec a b) end;
    repeat split; intros; first [done | lia].
Qed.

(** A key made at second [s] and never rotated. *)
Definition key_made (s : Z) : Key.t :=
  Key.mk "work" "ed25519" "" "" None "" (time.mkTime s 0 0) (time.mkTime s 0 0)
    "" false 0 false None None "".

(** Seconds in a day. *)
Definition day : Z := 86400.

Lemma GetRotationStatus_thresholds_witness :
  (GetRotationStatus (key_made 0) (time.mkTime (630 * day) 0 0)
     DefaultKeyRotationPolicy = RotationStatusWarning
   ↔ (24 - 3) * month_ns ≤ 630 * day * 1000000000 + 0 < 24 * month_ns).
Proof.
  exact (proj1 (proj2 (GetRotationStatus_thresholds (key_made 0)
                         (time.mkTime (630 * day) 0 0) DefaultKeyRotationPolicy
                         eq_refl ltac:(cbn; lia) ltac:(cbn; lia)))).
Defined.

Lemma status_at_mono (maxAge warnAge age age' : Z) :
  age ≤ age' →
  (status_at maxAge warnAge age = RotationStatusExpired →
   status_at maxAge warnAge age' = RotationStatusExpired)
  ∧ (status_at maxAge warnAge age = RotationStatusWarning →
     status_at maxAge warnAge age' ≠ RotationStatusOK).
Proof.
  intros Hle. unfold status_at.
  repeat match goal with |- context [Z.leb ?a ?b] => destruct (Z.leb_spec a b) end;
    split; intros; first [done | lia].
Qed.

(** X21: the status of a key never improves as time passes, whatever the
    policy, overflowing thresholds included: under one policy a key that is
    expired stays expired at every later time, and a key in the warning
    state never becomes fresh again. *)
Theorem rotation_status_never_improves (k : Key.t) (now later : time.Time)
    (policy : KeyRotationPolicy.t) :
  nsec_ok now → nsec_ok later → time.After now later = false →
  (GetRotationStatus k now policy = RotationStatusExpired →
   GetRotationStatus k later policy = RotationStatusExpired)
  ∧ (GetRotationStatus k now policy = RotationStatusWarning →
     GetRotationStatus k later policy ≠ RotationStatusOK).
Proof.
  intros Hn Hl Hafter. unfold GetRotationStatus.
  destruct (KeyRotationPolicy.Enabled policy); cbn [negb]; [| by split].
  cbv zeta. apply status_at_mono. rewrite !Sub_elapsed.
  pose proof (elapsed_mono now later (baseTime k) Hn Hl Hafter). lia.
Qed.

Lemma rotation_status_never_improves_witness :
  (GetRotationStatus (key_made 0) (time.mkTime (720 * day) 0 0)
     DefaultKeyRotationPolicy = RotationStatusExpired →
   GetRotationStatus (key_made 0) (time.mkTime (721 * day) 5 0)
     DefaultKeyRotationPolicy = RotationStatusExpired)
  ∧ (GetRotationStatus (key_made 0) (time.mkTime (720 * day) 0 0)
       DefaultKeyRotationPolicy = RotationStatusWarning →
     GetRotationStatus (key_made 0) (time.mkTime (721 * day) 5 0)
       DefaultKeyRotationPolicy ≠ RotationStatusOK).
Proof.
  apply (rotation_status_never_improves (key_made 0)
           (time.mkTime (720 * day) 0 0) (time.mkTime (721 * day) 5 0)
           DefaultKeyRotationPolicy);
    first [reflexivity | unfold nsec_ok; cbn; lia].
Defined.

(** X22: with thresholds [0 <= WarnBeforeMonths <= MaxKeyAgeMonths <= 3558]
    the user is notified about a key exactly when notification and rotation
    are both enabled and the key has reached the warning age, that is
    [MaxKeyAgeMonths - WarnBeforeMonths] months of thirty days. *)
Theorem ShouldNotify_iff (policy : KeyRotationPolicy.t) (now : time.Time)
    (key : Key.t) :
  0 ≤ KeyRotationPolicy.WarnBeforeMonths policy
    ≤ KeyRotationPolicy.MaxKeyAgeMonths policy →
  KeyRotationPolicy.MaxKeyAgeMonths policy ≤ 3558 →
  ShouldNotify policy now key = true
  ↔ KeyRotationPolicy.NotifyOnRotation policy = true
    ∧ KeyRotationPolicy.Enabled policy = true
    ∧ (KeyRotationPolicy.MaxKeyAgeMonths policy
       - KeyRotationPolicy.WarnBeforeMonths policy) * month_ns
      ≤ elapsed now (baseTime key).
Proof.
  intros Hwarn Hmax. unfold ShouldNotify.
  destruct (KeyRotationPolicy.NotifyOnRotation policy); cbn [negb];
    [| by split; [| intros []]].
  cbv zeta. destruct (KeyRotationPolicy.Enabled policy) eqn:Hen.
  - rewrite (GetRotationStatus_exact key now policy Hen Hwarn Hmax).
    unfold status_at.
    assert (Hle : (KeyRotationPolicy.MaxKeyAgeMonths policy
                   - KeyRotationPolicy.WarnBeforeMonths policy) * month_ns
                  ≤ KeyRotationPolicy.MaxKeyAgeMonths policy * month_ns)
      by (unfold month_ns, time.Hour; lia).
    repeat match goal with |- context [Z.leb ?a ?b] => destruct (Z.leb_spec a b) end;
      cbn; split; intros; first [done | lia | repeat split; first [done | lia]].
  - unfold GetRotationStatus. rewrite Hen. cbn. split; [done | by intros (_ & ? & _)].
Qed.

Lemma ShouldNotify_iff_witness :
  ShouldNotify DefaultKeyRotationPolicy (time.mkTime (630 * day) 0 0) (key_made 0)
  = true
  ↔ KeyRotationPolicy.NotifyOnRotation DefaultKeyRotationPolicy = true
    ∧ KeyRotationPolicy.Enabled DefaultKeyRotationPolicy = true
    ∧ (KeyRotationPolicy.MaxKeyAgeMonths DefaultKeyRotationPolicy
       - KeyRotationPolicy.WarnBeforeMonths DefaultKeyRotationPolicy) * month_ns
      ≤ elapsed (time.mkTime (630 * day) 0 0) (baseTime (key_made 0)).
Proof.
  apply (ShouldNotify_iff DefaultKeyRotationPolicy (time.mkTime (630 * day) 0 0)
           (key_made 0)); cbn; lia.
Defined.

(** X23: a policy that is enabled with a maximum age of zero months, of a
    negative number of months down to -3558, or of 3559 to 7116 months,
    for which the age in nanoseconds overflows to a negative number,
    reports every key as expired whose base time is not in the future. *)
Theorem GetRotationStatus_degenerate_max (k : Key.t) (now : time.Time)
    (policy : KeyRotationPolicy.t) :
  KeyRotationPolicy.Enabled policy = true →
  (- 3558 ≤ KeyRotationPolicy.MaxKeyAgeMonths policy ≤ 0
   ∨ 3559 ≤ KeyRotationPolicy.MaxKeyAgeMonths policy ≤ 7116) →
  nsec_ok now → nsec_ok (baseTime k) → time.After (baseTime k) now = false →
  GetRotationStatus k now policy = RotationStatusExpired.
Proof.
  intros Hen Hmax Hn Hb Hafter. unfold GetRotationStatus. rewrite Hen.
  cbn [negb]. cbv zeta.
  assert (Hm : months (KeyRotationPolicy.MaxKeyAgeMonths policy) ≤ 0).
  { destruct Hmax as [Hmax | Hmax].
    - rewrite months_exact by lia. unfold month_ns, time.Hour. lia.
    - pose proof (months_overflow _ Hmax). lia. }
  assert (Hage : 0 ≤ time.Sub now (baseTime k)).
  { rewrite Sub_elapsed. unfold time.minDuration, time.maxDuration.
    pose proof (elapsed_mono (baseTime k) now (baseTime k) Hb Hn Hafter) as Hle.
    unfold elapsed in Hle at 1. lia. }
  destruct (Z.leb_spec (months (KeyRotationPolicy.MaxKeyAgeMonths policy))
              (time.Sub now (baseTime k))); [done | lia].
Qed.

Lemma GetRotationStatus_degenerate_max_witness :
  GetRotationStatus (key_made (630 * day)) (time.mkTime (630 * day) 1 0)
    (KeyRotationPolicy.mk true 3559 3 false true)
  = RotationStatusExpired.
Proof.
  apply (GetRotationStatus_degenerate_max (key_made (630 * day))
           (time.mkTime (630 * day) 1 0)
           (KeyRotationPolicy.mk true 3559 3 false true));
    first [reflexivity | unfold nsec_ok; cbn; lia].
Defined.

(* ===================================================================== *)
(** * The shape of a checksum *)
(* ===================================================================== *)

Definition is_hex (c : ascii) : bool :=
  let b := byte_of c in
  ((48 <=? b) && (b <=? 57)) || ((97 <=? b) && (b <=? 102)).

Fixpoint all_chars (p : ascii → bool) (s : string) : bool :=
  match s with
  | EmptyString => true
  | String c s' => p c && all_chars p s'
  end.

Lemma hexdigit_is_hex (n : Z) : 0 ≤ n < 16 → is_hex (hexdigit n) = true.
Proof.
  intros Hn.
  assert (H : n ∈ [0; 1; 2; 3; 4; 5; 6; 7; 8; 9; 10; 11; 12; 13; 14; 15]).
  { rewrite !elem_of_cons. lia. }
  repeat (apply elem_of_cons in H as [-> | H]; [by vm_compute |]).
  by apply elem_of_nil in H.
Qed.

Lemma hex_EncodeToString_shape (bs : list Z) :
  Forall is_byte bs →
  String.length (hex_EncodeToString bs) = (2 * length bs)%nat
  ∧ all_chars is_hex (hex_EncodeToString bs) = true.
Proof.
  induction 1 as [| b bs Hb _ [IHlen IHhex]]; [done |].
  cbn [hex_EncodeToString String.length all_chars length]. split; [lia |].
  unfold is_byte in Hb. rewrite !hexdigit_is_hex, IHhex; [done | |].
  - change 15 with (Z.ones 4). rewrite Z.land_ones by lia.
    pose proof (Z.mod_pos_bound b (2 ^ 4)). lia.
  - rewrite Z.shiftr_div_pow2 by lia. change (2 ^ 4) with 16.
    split; [apply Z.div_pos; lia | apply Z.div_lt_upper_bound; lia].
Qed.

(** X24: a checksum is always sixty-four characters, each of them a digit
    or a letter from a to f in lower case, whatever the key holds, also when
    its creation time cannot be marshalled. *)
Theorem ComputeChecksum_shape (key : Key.t) :
  String.length (ComputeChecksum key) = 64%nat
  ∧ all_chars is_hex (ComputeChecksum key) = true.
Proof.
  unfold ComputeChecksum. cbv zeta.
  destruct (Sum256_shape (bytes_of (default EmptyString (checksum_json key))))
    as [Hlen Hbytes].
  destruct (hex_EncodeToString_shape _ Hbytes) as [Hl Hh].
  split; [by rewrite Hl, Hlen | exact Hh].
Qed.
